(** * Tensor pattern algebra: a shallow embedding of
      tensor/pattern-utils.cc, tensor/pattern-extra-utils.cc and
      tensor/tensor-pattern-utils.h

    Integers of the source (int32, int64) are embedded as [Z].  Where a
    theorem depends on a product or a shift that the source computes in
    int32, the definition keeps the result to 32 bits ([int32_wrap]) and
    the theorem names the range in which it holds.  The fixed-capacity arrays
    [dims] and [strides] are lists of [KALDI_TENSOR_MAX_AXES] integers,
    indexed in the private (reversed) numbering.  Executions whose behaviour
    the C++ standard leaves undefined (division by zero, [back()] on an
    empty vector, an access outside an array) and [KALDI_ERR] /
    [KALDI_ASSERT] failures are the result [None] of a function in the
    error monad [option]; so is a call of a function that has a result
    type and ends without a [return] statement. *)

From Stdlib Require Import ZArith Zquot Lia Bool List.
From stdpp Require Import base option list list_numbers.
Import ListNotations.

Local Open Scope Z_scope.

(** ** Arrays and the error monad *)

(** Read of [a[i]]; the callers keep [i] inside the array. *)
Definition rd (a : list Z) (i : Z) : Z := default 0 (a !! Z.to_nat i).

(** Write [a[i] = v]. *)
Definition wr (a : list Z) (i : Z) (v : Z) : list Z := <[Z.to_nat i := v]> a.

(** Is [i] an index of the array [a]? *)
Definition inb (a : list Z) (i : Z) : bool :=
  (0 <=? i) && (i <? Z.of_nat (length a)).

(** The indexes [0, 1, ..., n-1] of a loop
    [for (r = 0; r < n; r++)]. *)
Definition upto (n : Z) : list Z := seqZ 0 n.

(** The indexes [hi, hi-1, ..., lo+1] of a loop
    [for (r = hi; r > lo; r--)]. *)
Definition downto (hi lo : Z) : list Z := reverse (seqZ (lo + 1) (hi - lo)).

(** Truncating division and remainder of C++; [None] on a zero divisor. *)
Definition cdiv (a b : Z) : option Z :=
  if b =? 0 then None else Some (Z.quot a b).

Definition cmod (a b : Z) : option Z :=
  if b =? 0 then None else Some (Z.rem a b).

(** The value that an int32 holds after an operation whose exact result
    is [z]: [z] itself from [-2^31] to [2^31 - 1], and [z] reduced modulo
    [2^32] into that range elsewhere. *)
Definition int32_wrap (z : Z) : Z :=
  (z + 2147483648) mod 4294967296 - 2147483648.

(** ** The Pattern data type *)

(** Modelled from the spec: the constant [KALDI_TENSOR_MAX_AXES] (also
    written [KALDI_TENSOR_MAX_DIM] in the source) is declared in a header
    that is not part of the sources; the data model fixes it to 5. *)
Definition KALDI_TENSOR_MAX_AXES : Z := 5.

Record Pattern : Type := mkPattern {
  num_axes : Z;
  dims : list Z;
  strides : list Z;
  offset : Z;
  code : Z
}.

Definition set_num_axes (p : Pattern) (n : Z) : Pattern :=
  mkPattern n (dims p) (strides p) (offset p) (code p).
Definition set_dims (p : Pattern) (d : list Z) : Pattern :=
  mkPattern (num_axes p) d (strides p) (offset p) (code p).
Definition set_strides (p : Pattern) (s : list Z) : Pattern :=
  mkPattern (num_axes p) (dims p) s (offset p) (code p).
Definition set_offset (p : Pattern) (o : Z) : Pattern :=
  mkPattern (num_axes p) (dims p) (strides p) o (code p).
Definition set_code (p : Pattern) (c : Z) : Pattern :=
  mkPattern (num_axes p) (dims p) (strides p) (offset p) c.

(** [p->dims[r] = d; p->strides[r] = s]. *)
Definition set_axis (p : Pattern) (r d s : Z) : Pattern :=
  set_strides (set_dims p (wr (dims p) r d)) (wr (strides p) r s).

Definition dim_of (p : Pattern) (r : Z) : Z := rd (dims p) r.
Definition stride_of (p : Pattern) (r : Z) : Z := rd (strides p) r.

(** A pattern as it is built from a public description: the used axes in
    private order, the unused slots filled with dim 1 and stride 0. *)
Definition pad (l : list Z) (x : Z) : list Z :=
  l ++ replicate (Z.to_nat KALDI_TENSOR_MAX_AXES - length l) x.

Definition make_pattern (ds ss : list Z) (off c : Z) : Pattern :=
  mkPattern (Z.of_nat (length ds)) (pad ds 1) (pad ss 0) off c.

(** The dims in the public (non-reversed) order. *)
Definition PublicDims (p : Pattern) : list Z :=
  reverse (take (Z.to_nat (num_axes p)) (dims p)).

(** A pattern as [std::vector::resize] or a declaration creates it; the
    unused slots are taken as the data model requires them. *)
Definition fresh_pattern : Pattern := make_pattern [] [] 0 (-1).

(** ** Memory-index sets *)

(** All the sums [base + sum_r index_r * stride_r] with
    [0 <= index_r < dim_r], axis by axis. *)
Fixpoint mindexes_from (axes : list (Z * Z)) (base : Z) : list Z :=
  match axes with
  | [] => [base]
  | (d, s) :: rest =>
      flat_map (fun i => mindexes_from rest (base + i * s)) (upto d)
  end.

Definition axes_of (p : Pattern) : list (Z * Z) :=
  take (Z.to_nat (num_axes p)) (zip (dims p) (strides p)).

(** The memory-index set of a pattern, listed. *)
Definition MemoryIndexSet (p : Pattern) : list Z :=
  mindexes_from (axes_of p) (offset p).

(** The union of the memory-index sets of several patterns. *)
Definition MemoryIndexSets (ps : list Pattern) : list Z :=
  flat_map MemoryIndexSet ps.

(** ** Validity tiers *)

(** Modelled from the spec: [IsValid] is declared in pattern.h, which is
    not part of the sources.  A pattern is valid when its arrays have
    [KALDI_TENSOR_MAX_AXES] slots, its number of axes is at most that,
    every axis has dim >= 1, an axis with dim = 1 has stride 0, and no two
    axes with dim > 1 have the same stride. *)
Definition IsValid (p : Pattern) : Prop :=
  length (dims p) = Z.to_nat KALDI_TENSOR_MAX_AXES /\
  length (strides p) = Z.to_nat KALDI_TENSOR_MAX_AXES /\
  0 <= num_axes p <= KALDI_TENSOR_MAX_AXES /\
  (forall r, 0 <= r < num_axes p ->
     1 <= dim_of p r /\ (dim_of p r = 1 -> stride_of p r = 0)) /\
  (forall r q, 0 <= r < num_axes p -> 0 <= q < num_axes p -> r <> q ->
     1 < dim_of p r -> 1 < dim_of p q -> stride_of p r <> stride_of p q).

Definition IsValidb (p : Pattern) : bool :=
  bool_decide (length (dims p) = Z.to_nat KALDI_TENSOR_MAX_AXES) &&
  bool_decide (length (strides p) = Z.to_nat KALDI_TENSOR_MAX_AXES) &&
  (0 <=? num_axes p) && (num_axes p <=? KALDI_TENSOR_MAX_AXES) &&
  forallb (fun r => (1 <=? dim_of p r) &&
                    (negb (dim_of p r =? 1) || (stride_of p r =? 0)))
          (upto (num_axes p)) &&
  forallb (fun r => forallb (fun q =>
             (r =? q) || negb (1 <? dim_of p r) || negb (1 <? dim_of p q) ||
             negb (stride_of p r =? stride_of p q)) (upto (num_axes p)))
          (upto (num_axes p)).

(** Modelled from the spec: [IsCanonical] is declared in pattern.h, which
    is not part of the sources.  A pattern is canonical when it is valid,
    its axes are sorted by non-decreasing stride magnitude, ties broken by
    dimension, and the lowest-indexed axis with dim > 1 has the smallest
    stride. *)
Definition axis_le (p : Pattern) (r q : Z) : Prop :=
  Z.abs (stride_of p r) < Z.abs (stride_of p q) \/
  (Z.abs (stride_of p r) = Z.abs (stride_of p q) /\ dim_of p r <= dim_of p q).

Definition IsCanonical (p : Pattern) : Prop :=
  IsValid p /\
  (forall r, 0 <= r -> r + 1 < num_axes p -> axis_le p r (r + 1)) /\
  (forall r, 0 <= r < num_axes p -> 1 < dim_of p r ->
     (forall q, 0 <= q < r -> dim_of p q = 1) ->
     forall q, 0 <= q < num_axes p -> stride_of p r <= stride_of p q).

Definition axis_leb (p : Pattern) (r q : Z) : bool :=
  (Z.abs (stride_of p r) <? Z.abs (stride_of p q)) ||
  ((Z.abs (stride_of p r) =? Z.abs (stride_of p q)) &&
   (dim_of p r <=? dim_of p q)).

Definition IsCanonicalb (p : Pattern) : bool :=
  IsValidb p &&
  forallb (fun r => axis_leb p r (r + 1)) (upto (num_axes p - 1)) &&
  forallb (fun r =>
     negb (1 <? dim_of p r) ||
     negb (forallb (fun q => dim_of p q =? 1) (upto r)) ||
     forallb (fun q => stride_of p r <=? stride_of p q) (upto (num_axes p)))
    (upto (num_axes p)).

(** Modelled from the spec: [Broadcastable] is only declared in
    tensor-pattern-utils.h.  After padding the shorter dims with 1, every
    pair of corresponding dims is equal or one of them is 1.  In the
    private numbering the padding is the unused slots. *)
Definition Broadcastableb (a b : Pattern) : bool :=
  forallb (fun r => (dim_of a r =? dim_of b r) || (dim_of a r =? 1) ||
                    (dim_of b r =? 1))
          (upto (Z.max (num_axes a) (num_axes b))).

(** ** tensor/pattern-utils.cc *)

(** [ComputePatternCode], pattern-utils.cc lines 25-54.  The body
    accumulates the code in the local variable [ans] and ends without a
    [return] statement.  [ComputePatternCode] is the value of [ans] when
    the body ends, the code that the function is written to give;
    [ComputePatternCode_call] is a call of the function as it is written,
    which has no defined result. *)
Definition ComputePatternCode_step (pattern : Pattern)
    (st : Z * Z * bool) (raxis : Z) : Z * Z * bool :=
  let '(ans, n, found_negative_dim) := st in
  let dim := dim_of pattern raxis in
  let stride := stride_of pattern raxis in
  let '(ans, n, found_negative_dim) :=
    if negb (dim =? 1) then
      (Z.lor ans 1,
       (if stride =? 1 then raxis + 1 else n),
       (if dim <? 0 then true else found_negative_dim))
    else (ans, n, found_negative_dim) in
  (Z.shiftl ans 1, n, found_negative_dim).

Definition ComputePatternCode (pattern : Pattern) : Z :=
  let '(ans, n, found_negative_dim) :=
    foldl (ComputePatternCode_step pattern) (0, 0, false)
          (upto (num_axes pattern)) in
  Z.lor ans (Z.lor (Z.shiftl n 8)
                   (if found_negative_dim then Z.shiftl 1 11 else 0)).

Definition ComputePatternCode_call (pattern : Pattern) : option Z :=
  let ans := ComputePatternCode pattern in
  None.

(** [kPatternContainsNegativeStride] and [ContainsNegativeStride],
    tensor-pattern-utils.h lines 61-72: the test is written with [|]. *)
Definition kPatternContainsNegativeStride : Z := 2048.

Definition ContainsNegativeStride (pattern_code : Z) : bool :=
  negb (Z.lor pattern_code kPatternContainsNegativeStride =? 0).

(** [ComputeMinAndMaxMindex], pattern-utils.cc lines 57-85; the result is
    the pair [( *min_mindex, *max_mindex )]. *)
Definition ComputeMinAndMaxMindex (pattern : Pattern) : Z * Z :=
  if ContainsNegativeStride (code pattern) then
    foldl (fun '(min_mindex_sum, max_mindex_sum) raxis =>
             let prod := (dim_of pattern raxis - 1) * stride_of pattern raxis in
             if stride_of pattern raxis >? 0
             then (min_mindex_sum, max_mindex_sum + prod)
             else (min_mindex_sum + prod, max_mindex_sum))
          (0, 0) (upto (num_axes pattern))
  else
    (0, foldl (fun max_mindex_sum raxis =>
                 max_mindex_sum +
                 (dim_of pattern raxis - 1) * stride_of pattern raxis)
              0 (upto (num_axes pattern))).

(** [NumElements], pattern-utils.cc lines 535-541. *)
Definition NumElements (pattern : Pattern) : Z :=
  foldl (fun ans raxis => ans * dim_of pattern raxis) 1
        (upto (num_axes pattern)).

(** [NormalizeSigns], pattern-utils.cc lines 128-169.  A pattern travels
    with its entry of [data_offsets].  [flip_axis] is the body of the loop
    over [q]; [NormalizeSigns_axis] is the loop over [p] for one axis [a],
    which stops at the first pattern with a nonzero stride. *)
Definition flip_axis (a : Z) (pd : Pattern * Z) : Pattern * Z :=
  let '(pat, data_offset) := pd in
  if negb (stride_of pat a =? 0) then
    let this_offset := (dim_of pat a - 1) * stride_of pat a in
    (set_strides pat (wr (strides pat) a (stride_of pat a * -1)),
     data_offset + this_offset)
  else pd.

Fixpoint NormalizeSigns_axis (a : Z) (pds : list (Pattern * Z))
    : list (Pattern * Z) * bool :=
  match pds with
  | [] => ([], false)
  | pd :: rest =>
      if negb (stride_of (fst pd) a =? 0) then
        if stride_of (fst pd) a <? 0
        then (map (flip_axis a) (pd :: rest), true)
        else (pd :: rest, false)
      else
        let '(rest', changed) := NormalizeSigns_axis a rest in
        (pd :: rest', changed)
  end.

Definition NormalizeSigns (pds : list (Pattern * Z)) (max_num_axes : Z)
    : list (Pattern * Z) * bool :=
  foldl (fun '(pds, changed) a =>
           let '(pds', changed_a) := NormalizeSigns_axis a pds in
           (pds', changed || changed_a))
        (pds, false) (upto max_num_axes).

(** [Combinable], pattern-utils.cc lines 186-191. *)
Definition int32_max : Z := 2147483647.

Definition Combinable (p : Pattern) (raxis1 raxis2 : Z) : bool :=
  (stride_of p raxis2 =? stride_of p raxis1 * dim_of p raxis1) &&
  (dim_of p raxis1 * dim_of p raxis2 <? int32_max).

(** [CombineAxes], pattern-utils.cc lines 211-241, for one pattern. *)
Definition CombineAxes1 (raxis1 raxis2 : Z) (pattern : Pattern) : Pattern :=
  if raxis1 >? raxis2 then
    let pattern :=
      set_axis pattern raxis2
        (dim_of pattern raxis2 * dim_of pattern raxis1)
        (stride_of pattern raxis2 * stride_of pattern raxis1) in
    set_axis pattern raxis1 1 0
  else
    let pattern :=
      set_dims pattern
        (wr (dims pattern) raxis1
            (dim_of pattern raxis1 * dim_of pattern raxis1)) in
    set_axis pattern raxis2 1 0.

Definition CombineAxes (patterns : list Pattern) (raxis1 raxis2 : Z)
    : list Pattern :=
  map (CombineAxes1 raxis1 raxis2) patterns.

(** [RemoveTrivialAxes] on a tuple of patterns, pattern-utils.cc lines
    264-302, for one pattern. *)
Definition is_set (flags : list bool) (r : Z) : bool :=
  default false (flags !! Z.to_nat r).

Definition first_set (flags : list bool) : Z :=
  default (-1) (head (List.filter (is_set flags)
                                  (upto KALDI_TENSOR_MAX_AXES))).

Definition RemoveTrivialAxes1 (is_trivial_raxis : list bool)
    (pattern : Pattern) : Pattern :=
  let first_trivial_raxis := first_set is_trivial_raxis in
  let n := num_axes pattern in
  let '(pattern, raxis_out) :=
    foldl (fun '(pattern, raxis_out) raxis_in =>
             if is_set is_trivial_raxis raxis_in then (pattern, raxis_out)
             else
               ((if negb (raxis_out =? raxis_in)
                 then set_axis pattern raxis_out (dim_of pattern raxis_in)
                                (stride_of pattern raxis_in)
                 else pattern),
                raxis_out + 1))
          (pattern, first_trivial_raxis)
          (seqZ first_trivial_raxis (n - first_trivial_raxis)) in
  let pattern := set_num_axes pattern raxis_out in
  foldl (fun pattern r => set_axis pattern r 1 0) pattern
        (seqZ raxis_out (n - raxis_out)).

(** [CompressPatterns], pattern-utils.cc lines 304-398.  The state of the
    axis-combining loops is the patterns with the array
    [is_trivial_raxis]; [combine_scan] is the loop over [raxis2], left at
    the first combination.  When something changed, lines 394-396 assign
    to the code of every pattern the result of a call of
    [ComputePatternCode]. *)
Definition set_flag (flags : list bool) (r : Z) : list bool :=
  <[Z.to_nat r := true]> flags.

Fixpoint combine_scan (raxis1 : Z) (cands : list Z)
    (patterns : list Pattern) (is_trivial_raxis : list bool)
    : list Pattern * list bool * bool :=
  match cands with
  | [] => (patterns, is_trivial_raxis, false)
  | raxis2 :: cands' =>
      if is_set is_trivial_raxis raxis2
      then combine_scan raxis1 cands' patterns is_trivial_raxis
      else if forallb (fun p => Combinable p raxis1 raxis2) patterns
      then (CombineAxes patterns raxis1 raxis2,
            set_flag is_trivial_raxis raxis1, true)
      else if forallb (fun p => Combinable p raxis2 raxis1) patterns
      then (CombineAxes patterns raxis2 raxis1,
            set_flag is_trivial_raxis raxis1, true)
      else combine_scan raxis1 cands' patterns is_trivial_raxis
  end.

(** The loop of lines 337-342, which marks the axes that the combined
    code says are trivial; the test is written with [|]. *)
Definition TrivialFlags (combined_code max_num_axes : Z)
    : list bool * bool :=
  foldl (fun '(flags, ex) raxis =>
           if Z.lor combined_code (Z.shiftl 1 raxis) =? 0
           then (set_flag flags raxis, true) else (flags, ex))
        (replicate (Z.to_nat KALDI_TENSOR_MAX_AXES) false, false)
        (upto max_num_axes).

(** The loops of lines 350-389 over [raxis1] and [raxis2]. *)
Definition CombineLoop (max_num_axes : Z) (pats : list Pattern)
    (is_trivial_raxis : list bool) (exists_trivial_axis : bool)
    : list Pattern * list bool * bool :=
  foldl (fun '(pats, flags, ex) raxis1 =>
           if is_set flags raxis1 then (pats, flags, ex)
           else
             let '(pats', flags', combined) :=
               combine_scan raxis1 (downto (raxis1 - 1) (-1)) pats flags in
             (pats', flags', ex || combined))
        (pats, is_trivial_raxis, exists_trivial_axis)
        (downto (max_num_axes - 1) (-1)).

Definition CompressPatterns (patterns : list Pattern)
    : option (bool * list (Pattern * Z)) :=
  let pds := map (fun p => (p, 0)) patterns in
  let first := default fresh_pattern (head patterns) in
  let max_num_axes :=
    foldl Z.max (num_axes first) (map num_axes (tail patterns)) in
  let combined_code := foldl Z.lor (code first) (map code (tail patterns)) in
  let '(pds, changed) :=
    if ContainsNegativeStride combined_code
    then NormalizeSigns pds max_num_axes
    else (pds, false) in
  let '(is_trivial_raxis, exists_trivial_axis) :=
    TrivialFlags combined_code max_num_axes in
  let '(pats, is_trivial_raxis, exists_trivial_axis) :=
    CombineLoop max_num_axes (map fst pds) is_trivial_raxis
                exists_trivial_axis in
  let data_offsets := map snd pds in
  let '(pats, changed) :=
    if exists_trivial_axis
    then (map (RemoveTrivialAxes1 is_trivial_raxis) pats, true)
    else (pats, changed) in
  pats ←
    (if changed
     then mapM (fun p => c ← ComputePatternCode_call p; Some (set_code p c))
               pats
     else Some pats);
  Some (changed, zip pats data_offsets).

(** [CompressOnePattern], pattern-utils.cc lines 401-405: the compressed
    pattern and [*data_offset]. *)
Definition CompressOnePattern (pattern : Pattern) : option (Pattern * Z) :=
  r ← CompressPatterns [pattern];
  head (snd r).

(** A cast [static_cast<uint32>(i) >= static_cast<uint32>(n)] with
    [n >= 0]: [i] lies outside [0, n). *)
Definition uint32_ge (i n : Z) : bool := (i <? 0) || (n <=? i).

(** [Transpose] on private axis indexes, pattern-utils.cc lines 456-466. *)
Definition swap_axes (raxis1 raxis2 : Z) (p : Pattern) : Pattern :=
  let p' := set_axis p raxis1 (dim_of p raxis2) (stride_of p raxis2) in
  set_axis p' raxis2 (dim_of p raxis1) (stride_of p raxis1).

Definition TransposeR (raxis1 raxis2 : Z) (p : Pattern) : option Pattern :=
  if uint32_ge raxis1 (num_axes p) || uint32_ge raxis2 (num_axes p)
  then None
  else Some (set_code (swap_axes raxis1 raxis2 p) (-1)).

(** [Transpose] on public axis indexes, pattern-utils.cc lines 468-485. *)
Definition Transpose (axis1 axis2 : Z) (p : Pattern) : option Pattern :=
  let n := num_axes p in
  let raxis1 := if axis1 <? 0 then axis1 + 1 else n - 1 - axis1 in
  let raxis2 := if axis2 <? 0 then axis2 + 1 else n - 1 - axis2 in
  if uint32_ge raxis1 n || uint32_ge raxis2 n
  then None
  else Some (set_code (swap_axes raxis1 raxis2 p) (-1)).

(** Modelled from the spec: [EaxisToRaxis] is used by [Select] and [Slice]
    but defined in a header that is not part of the sources.  It maps a
    public axis index, negative ones counted from the end, to the private
    index. *)
Definition EaxisToRaxis (n eaxis : Z) : Z :=
  if eaxis <? 0 then - 1 - eaxis else n - 1 - eaxis.

(** [Slice], pattern-utils.cc lines 574-608.  The source names the
    parameter [axis] and reads [eaxis] and [src.dims[axis]]; the embedding
    reads them as [axis] and [pattern->dims[axis]].  That read uses the
    public index: with a negative [axis] it is outside the array.  The
    product added to the offset is an int32 product.  The statement
    [pattern->strides[raxis] == 0;] is a comparison and changes nothing.
    A shift by [raxis - 1 = -1] is undefined. *)
Definition Slice (axis start end_ : Z) (pattern : Pattern) : option Pattern :=
  let n := num_axes pattern in
  let raxis := EaxisToRaxis n axis in
  if uint32_ge raxis n || (end_ <=? start) ||
     negb (inb (dims pattern) axis) ||
     uint32_ge end_ (dim_of pattern axis)
  then None
  else
    let old_stride := stride_of pattern raxis in
    let pattern :=
      set_offset pattern
        (offset pattern + int32_wrap (stride_of pattern raxis * start)) in
    let new_dim := end_ - start in
    let pattern := set_dims pattern (wr (dims pattern) raxis new_dim) in
    if new_dim =? 1 then
      if code pattern >=? 0 then
        if raxis - 1 <? 0 then None
        else
          let c := Z.land (code pattern) (Z.lnot (Z.shiftl 1 (raxis - 1))) in
          let c := if old_stride =? 1 then Z.land c (Z.lnot 1792) else c in
          Some (set_code pattern c)
      else Some pattern
    else Some pattern.

(** [UnsqueezeR], pattern-utils.cc lines 611-645, called in place
    ([dest] is [&src]) as tensor-pattern-utils.h declares it.  The copying
    loop starts at [r = num_axes_in + 1]; with four axes it writes slot 5,
    outside the arrays. *)
Definition UnsqueezeR (raxis : Z) (p : Pattern) : option Pattern :=
  let num_axes_in := num_axes p in
  if negb ((0 <=? raxis) && (raxis <=? num_axes_in) &&
           (num_axes_in <? KALDI_TENSOR_MAX_AXES))
  then None
  else if negb (inb (dims p) (num_axes_in + 1)) then None
  else
    let p := set_num_axes p (num_axes_in + 1) in
    let p := foldl (fun p r => set_axis p r (dim_of p (r - 1))
                                        (stride_of p (r - 1)))
                   p (downto (num_axes_in + 1) raxis) in
    let p := set_axis p raxis 1 0 in
    Some (if negb (raxis =? num_axes_in) then set_code p (-1) else p).

(** [Unsqueeze], tensor-pattern-utils.h lines 211-214. *)
Definition Unsqueeze (axis : Z) (p : Pattern) : option Pattern :=
  if axis <? 0 then UnsqueezeR (1 - axis) p
  else UnsqueezeR (num_axes p - axis) p.

(** Modelled from the spec: [SqueezeR] is only declared in
    tensor-pattern-utils.h (lines 216-245).  It requires
    [0 <= raxis < p->num_axes] and [p->dims[raxis] == 1], removes that
    axis, shifts the higher axes down, and sets the code to -1 unless the
    removed axis was the highest-numbered one. *)
Definition SqueezeR (raxis : Z) (p : Pattern) : option Pattern :=
  let n := num_axes p in
  if negb ((0 <=? raxis) && (raxis <? n) && (dim_of p raxis =? 1))
  then None
  else
    let p' := foldl (fun p r => set_axis p r (dim_of p (r + 1))
                                         (stride_of p (r + 1)))
                    p (seqZ raxis (n - 1 - raxis)) in
    let p' := set_axis p' (n - 1) 1 0 in
    let p' := set_num_axes p' (n - 1) in
    Some (if negb (raxis =? n - 1) then set_code p' (-1) else p').

(** [Squeeze], tensor-pattern-utils.h lines 276-279. *)
Definition Squeeze (axis : Z) (p : Pattern) : option Pattern :=
  if axis <? 0 then SqueezeR (1 - axis) p
  else SqueezeR (num_axes p - 1 - axis) p.

(** [SortAxes], pattern-utils.cc lines 408-450.  The two-axis case compares
    the signed strides and always invalidates the code; the general case
    sorts with [std::sort] on the magnitude of the stride, then on the
    dim.  [std::sort] leaves the order of axes that compare equal
    unspecified; [sort_axes] is one sort by that comparison, and the
    theorems on [SortAxes] use only that its result is a permutation in
    the order of the comparison. *)
Definition axis_lt (a b : Z * Z) : bool :=
  let abs_stride_a := Z.abs (snd a) in
  let abs_stride_b := Z.abs (snd b) in
  if abs_stride_a <? abs_stride_b then true
  else if abs_stride_a >? abs_stride_b then false
  else fst a <? fst b.

Fixpoint insert_axis (x : Z * Z) (l : list (Z * Z)) : list (Z * Z) :=
  match l with
  | [] => [x]
  | y :: l' => if axis_lt x y then x :: l else y :: insert_axis x l'
  end.

Definition sort_axes (l : list (Z * Z)) : list (Z * Z) :=
  foldr insert_axis [] l.

Definition with_axes (pattern : Pattern) (l : list (Z * Z)) : Pattern :=
  let n := length l in
  set_strides
    (set_dims pattern (map fst l ++ drop n (dims pattern)))
    (map snd l ++ drop n (strides pattern)).

Definition SortAxes (pattern : Pattern) : Pattern :=
  let n := num_axes pattern in
  if n <=? 1 then pattern
  else if n =? 2 then
    let p :=
      if (stride_of pattern 0 >? stride_of pattern 1) ||
         ((stride_of pattern 0 =? stride_of pattern 1) &&
          (dim_of pattern 0 >? dim_of pattern 1))
      then swap_axes 0 1 pattern else pattern in
    set_code p (-1)
  else set_code (with_axes pattern (sort_axes (axes_of pattern))) (-1).

(** ** tensor/pattern-extra-utils.cc *)

(** Modelled from the spec: [CanonicalizePattern] is called by the set
    algebra but defined in a file that is not part of the sources.  It
    sorts the axes by stride magnitude, ties by dim, and leaves the offset
    unchanged; the cached code is invalidated. *)
Definition CanonicalizePattern (pattern : Pattern) : Pattern :=
  set_code (with_axes pattern (sort_axes (axes_of pattern))) (-1).

(** Modelled from the spec: [SortAndUniq] belongs to the utility library,
    which is not part of the sources: sort from least to greatest and
    remove the repeats. *)
Fixpoint insert_uniq (x : Z) (l : list Z) : list Z :=
  match l with
  | [] => [x]
  | y :: l' => if x <? y then x :: l
               else if x =? y then l else y :: insert_uniq x l'
  end.

Definition SortAndUniq (l : list Z) : list Z := foldr insert_uniq [] l.

(** [FindAllStrides], pattern-extra-utils.cc lines 41-53. *)
Definition FindAllStrides (pattern1 pattern2 : Pattern) : list Z :=
  SortAndUniq (map (stride_of pattern1) (upto (num_axes pattern1)) ++
               map (stride_of pattern2) (upto (num_axes pattern2))).

(** [IsRegular], pattern-extra-utils.cc lines 58-78.  [IsRegular_scan] is
    the loop over [j]: [Some true] at the [break] and at the end of the
    loop, [Some false] at the [return false].  [||] does not evaluate the
    remainder when [dims[j] != 1]; the remainder by a zero stride is the
    failure.  [IsRegular_loop] is the loop over [i]; [this_prod] is an
    int32 product. *)
Fixpoint IsRegular_scan (pattern : Pattern) (this_stride this_prod : Z)
    (js : list Z) : option bool :=
  match js with
  | [] => Some true
  | j :: js' =>
      if stride_of pattern j >=? this_prod then Some true
      else if negb (dim_of pattern j =? 1) then Some false
      else
        match cmod (stride_of pattern j) this_stride with
        | None => None
        | Some m =>
            if negb (m =? 0) then Some false
            else IsRegular_scan pattern this_stride this_prod js'
        end
  end.

Fixpoint IsRegular_loop (pattern : Pattern) (is_ : list Z) : option bool :=
  match is_ with
  | [] => Some true
  | i :: is' =>
      let this_stride := stride_of pattern i in
      let this_dim := dim_of pattern i in
      let this_prod := int32_wrap (this_stride * this_dim) in
      match IsRegular_scan pattern this_stride this_prod
                           (seqZ (i + 1) (num_axes pattern - (i + 1))) with
      | None => None
      | Some false => Some false
      | Some true => IsRegular_loop pattern is'
      end
  end.

Definition IsRegular (pattern : Pattern) : option bool :=
  IsRegular_loop pattern (upto (num_axes pattern - 1)).

(** [ConvertPatternStridesLazily], pattern-extra-utils.cc lines 103-132.
    The source increments [pattern_in] where [raxis_in] is meant.  More
    strides than [KALDI_TENSOR_MAX_AXES] would be written outside the
    arrays. *)
Definition ConvertPatternStridesLazily (pattern_in : Pattern)
    (strides_ : list Z) : option Pattern :=
  let num_axes_in := num_axes pattern_in in
  let num_axes_out := Z.of_nat (length strides_) in
  if num_axes_out >? KALDI_TENSOR_MAX_AXES then None
  else
    let pattern_out :=
      set_offset (set_code (set_num_axes fresh_pattern num_axes_out) (-1))
                 (offset pattern_in) in
    let '(pattern_out, raxis_in) :=
      foldl (fun '(pattern_out, raxis_in) raxis_out =>
               let stride := rd strides_ raxis_out in
               if stride_of pattern_in raxis_in =? stride
               then (set_axis pattern_out raxis_out
                              (dim_of pattern_in raxis_in) stride,
                     raxis_in + 1)
               else (set_axis pattern_out raxis_out 1 stride, raxis_in))
            (pattern_out, 0) (upto num_axes_out) in
    if negb (raxis_in =? num_axes_in) then None else Some pattern_out.

(** [EnsureAxisSortingPropertyHolds], pattern-extra-utils.cc lines 173-231.

    [Ensure_scan] is the first loop: [Some (Some k)] at the [break] or at
    the end of the loop, [Some None] at the [return false].  The test of
    that loop reads [dims[k]] and [strides[k]], and [k] still holds
    [num_axes] there: the slot after the used axes is tested at every
    step, and with [KALDI_TENSOR_MAX_AXES] axes the read is outside the
    arrays.

    [Ensure_split] is the second loop, read as
    [for (j = k - 1; j > i; j--)].  [cur] is the index in [patterns] of the
    pattern that the pointer [pattern] designates: [pattern_index] at
    first, and [i] after a [resize], as the source re-reads
    [( *patterns)[i]].  [this_dim] keeps its initial value, and
    [this_prod] is an int32 product. *)
Fixpoint Ensure_scan (pattern : Pattern) (this_stride this_prod : Z)
    (n : Z) (js : list Z) : option (option Z) :=
  match js with
  | [] => Some (Some n)
  | j :: js' =>
      if stride_of pattern j >=? this_prod then Some (Some j)
      else
        let k := n in
        if (k <? 0) || (KALDI_TENSOR_MAX_AXES <=? k) then None
        else if negb (dim_of pattern k =? 1) then Some None
        else
          m ← cmod (stride_of pattern k) this_stride;
          if negb (m =? 0) then Some None
          else Ensure_scan pattern this_stride this_prod n js'
  end.

Definition nth_pattern (patterns : list Pattern) (i : Z) : option Pattern :=
  if i <? 0 then None else patterns !! Z.to_nat i.

Definition put_pattern (patterns : list Pattern) (i : Z) (p : Pattern)
    : list Pattern := <[Z.to_nat i := p]> patterns.

Definition Ensure_split_step (i this_stride this_dim : Z)
    (st : option (list Pattern * Z)) (j : Z) : option (list Pattern * Z) :=
  '(patterns, cur) ← st;
  pattern ← nth_pattern patterns cur;
  let j_stride := stride_of pattern j in
  stride_ratio ← cdiv j_stride this_stride;
  j_dim ← cdiv this_dim stride_ratio;
  remainder ← cmod this_dim stride_ratio;
  '(patterns, cur) ←
    (if negb (remainder =? 0) then
       let patterns := patterns ++ [fresh_pattern] in
       pattern ← nth_pattern patterns i;
       let remainder_pattern :=
         set_dims pattern (wr (dims pattern) i remainder) in
       let remainder_pattern :=
         set_offset remainder_pattern
                    (offset remainder_pattern + j_stride * j_dim) in
       Some (put_pattern patterns (Z.of_nat (length patterns) - 1)
                         remainder_pattern, i)
     else Some (patterns, cur));
  pattern ← nth_pattern patterns cur;
  let pattern := set_dims pattern (wr (dims pattern) j j_dim) in
  let pattern := set_dims pattern (wr (dims pattern) i stride_ratio) in
  Some (put_pattern patterns cur pattern, cur).

Definition EnsureAxisSortingPropertyHolds (raxis pattern_index : Z)
    (patterns : list Pattern) : option (bool * list Pattern) :=
  pattern ← nth_pattern patterns pattern_index;
  let i := raxis in
  let n := num_axes pattern in
  let this_stride := stride_of pattern i in
  let this_dim := dim_of pattern i in
  let this_prod := int32_wrap (this_stride * this_dim) in
  if this_dim =? 1 then Some (true, patterns)
  else
    found ← Ensure_scan pattern this_stride this_prod n
                        (seqZ (i + 1) (n - (i + 1)));
    match found with
    | None => Some (false, patterns)
    | Some k =>
        '(patterns, _) ←
          foldl (Ensure_split_step i this_stride this_dim)
                (Some (patterns, pattern_index)) (downto (k - 1) i);
        Some (true, patterns)
    end.

(** [ConvertPatternStrides], pattern-extra-utils.cc lines 235-263:
    [Some (Some patterns)] when it returns true, [Some None] when it
    returns false and clears [patterns].  [Convert_patterns] is the loop
    over [p], whose bound [patterns->size()] grows while it runs; it is
    given [fuel] iterations. *)
Fixpoint Convert_patterns (fuel : nat) (raxis p : Z)
    (patterns : list Pattern) : option (option (list Pattern)) :=
  match fuel with
  | O => None
  | S fuel' =>
      if p <? Z.of_nat (length patterns) then
        match EnsureAxisSortingPropertyHolds raxis p patterns with
        | None => None
        | Some (true, patterns) =>
            Convert_patterns fuel' raxis (p + 1) patterns
        | Some (false, _) => Some None
        end
      else Some (Some patterns)
  end.

Definition convert_fuel : nat := 4096.

Definition ConvertPatternStrides (pattern : Pattern) (strides_ : list Z)
    : option (option (list Pattern)) :=
  first ← ConvertPatternStridesLazily pattern strides_;
  let n := Z.of_nat (length strides_) in
  foldl (fun st raxis =>
           r ← st;
           match r with
           | None => Some None
           | Some patterns => Convert_patterns convert_fuel raxis 0 patterns
           end)
        (Some (Some [first])) (upto (n - 1)).

(** [FindOffsetsRecursive], pattern-extra-utils.cc lines 358-431.  The
    axis [raxis] that the source computes as
    [num_axes - 1 - known_offsets->size()] is the argument of the
    recursion.  [known_offsets] is passed by value, which is what the
    [push_back] / [pop_back] pairs of the source amount to.  At
    [raxis == 0] the source resizes [offsets_out] by [+ 0] and then writes
    through [offsets_out->back()]: on an empty vector that is undefined,
    otherwise the offsets are appended to the last vector. *)
Definition in_range4 (pattern1 pattern2 : Pattern) (r o : Z) : bool :=
  (o >? - dim_of pattern2 r) && (o <? dim_of pattern1 r).

Definition append_to_back (offsets_out : list (list Z)) (tail_ : list Z)
    : option (list (list Z)) :=
  match reverse offsets_out with
  | [] => None
  | last_ :: front => Some (reverse front ++ [last_ ++ tail_])
  end.

Fixpoint FindOffsetsRecursive (raxis : nat) (pattern1 pattern2 : Pattern)
    (known_offsets : list Z) (remainder : Z) (keep_all_offsets : bool)
    (offsets_out : list (list Z)) : option (list (list Z)) :=
  let r := Z.of_nat raxis in
  let stride := stride_of pattern1 r in
  match cdiv remainder stride with
  | None => None
  | Some this_offset =>
      let next_remainder := remainder - stride * this_offset in
      match raxis with
      | O =>
          if next_remainder =? 0
          then append_to_back offsets_out
                              (this_offset :: reverse known_offsets)
          else Some offsets_out
      | S raxis' =>
          match
            (if in_range4 pattern1 pattern2 r this_offset
             then FindOffsetsRecursive raxis' pattern1 pattern2
                    (known_offsets ++ [this_offset]) next_remainder
                    keep_all_offsets offsets_out
             else Some offsets_out)
          with
          | None => None
          | Some offsets_out =>
              if (next_remainder =? 0) ||
                 (negb keep_all_offsets &&
                  negb (bool_decide (offsets_out = [])))
              then Some offsets_out
              else
                let offset_change := if next_remainder >? 0 then -1 else 1 in
                let this_offset := this_offset + offset_change in
                let next_remainder :=
                  next_remainder - stride * offset_change in
                if in_range4 pattern1 pattern2 r this_offset
                then FindOffsetsRecursive raxis' pattern1 pattern2
                       (known_offsets ++ [this_offset]) next_remainder
                       keep_all_offsets offsets_out
                else Some offsets_out
          end
      end
  end.

(** [FindOffsets], pattern-extra-utils.cc lines 435-449.  The call passes
    [keep_all_offsets] in the position of [remainder] and
    [pattern2.offset - pattern1.offset] in the position of
    [keep_all_offsets]; with the implicit conversions of C++ the remainder
    is 1 or 0 and the flag says whether the offsets differ. *)
Definition FindOffsets (pattern1 pattern2 : Pattern)
    (keep_all_offsets : bool) : option (list (list Z)) :=
  if num_axes pattern1 <=? 0 then None
  else
    FindOffsetsRecursive (Z.to_nat (num_axes pattern1 - 1))
      pattern1 pattern2 []
      (if keep_all_offsets then 1 else 0)
      (negb (offset pattern2 - offset pattern1 =? 0))
      [].

(** Hyperrectangles, pattern-extra-utils.cc lines 452-467: one
    [(begin, end)] pair per axis. *)
Definition Hyperrectangle : Type := list (Z * Z).

Definition interval (a : Hyperrectangle) (i : nat) : Z * Z :=
  default (0, 0) (a !! i).

(** The index tuples of a hyperrectangle, listed. *)
Fixpoint HyperrectangleSet (h : Hyperrectangle) : list (list Z) :=
  match h with
  | [] => [[]]
  | (b, e) :: rest =>
      flat_map (fun i => map (cons i) (HyperrectangleSet rest))
               (seqZ b (e - b))
  end.

(** [SubtractHyperrectangles], pattern-extra-utils.cc lines 522-573.  The
    source appends with [difference->append(a)] in two places and with
    [push_back] in the third; all three add [a] at the end.  The changes
    made to [a[i]] and undone after use are a modified copy.  The first
    argument counts the axes from [i] on and bounds the recursion. *)
Fixpoint SubtractHyperrectangles_from (k : nat) (a b : Hyperrectangle)
    (i : nat) (difference : list Hyperrectangle) : list Hyperrectangle :=
  match k with
  | O => difference
  | S k' =>
      let '(a_start, a_end) := interval a i in
      let '(b_start, b_end) := interval b i in
      if (b_start <? a_end) && (b_end >? a_start) then
        let difference :=
          if a_start <? b_start
          then difference ++ [<[i := (a_start, b_start)]> a]
          else difference in
        let difference :=
          if a_end >? b_end
          then difference ++ [<[i := (b_end, a_end)]> a]
          else difference in
        if (S i <? length a)%nat then
          let intersection_start := Z.max a_start b_start in
          let intersection_end := Z.min a_start b_start in
          SubtractHyperrectangles_from k'
            (<[i := (intersection_start, intersection_end)]> a) b (S i)
            difference
        else difference
      else difference ++ [a]
  end.

Definition SubtractHyperrectangles (a b : Hyperrectangle) (i : nat)
    (difference : list Hyperrectangle) : list Hyperrectangle :=
  SubtractHyperrectangles_from (length a - i) a b i difference.

(** The memory index of an index tuple given in the private numbering. *)
Definition IndexPattern (p : Pattern) (index : list Z) : Z :=
  foldl (fun m r => m + rd index r * stride_of p r) (offset p)
        (upto (num_axes p)).

(** A call of [RandomIndexFromHyperrectangle], pattern-extra-utils.cc
    lines 476-486.  The body fills the vector [ans] with one draw per
    interval and ends without a [return] statement: the call has no
    defined result, whatever the draws. *)
Definition RandomIndexFromHyperrectangle_call (a : Hyperrectangle)
    : option (list Z) :=
  None.

(** [OffsetToHyperrectangle], pattern-extra-utils.cc lines 593-624.
    [OffsetToHyperrectangle_intervals] is the loop over the axes; the
    [KALDI_ASSERT] on every interval is the failure.  The block under
    [#if 1] is compiled: it calls [RandomIndexFromHyperrectangle] and
    asserts that the drawn index tuple and the tuple less the offset give
    the same memory index in the two patterns; its loop bound
    [index.size()] is read as [index1.size()]. *)
Definition OffsetToHyperrectangle_intervals (pattern1 pattern2 : Pattern)
    (offset_ : list Z) : option Hyperrectangle :=
  foldr (fun raxis rest =>
           h ← rest;
           let o := rd offset_ raxis in
           let interval_start := Z.max o 0 in
           let interval_end :=
             Z.min (dim_of pattern1 raxis) (o + dim_of pattern2 raxis) in
           if interval_end >? interval_start
           then Some ((interval_start, interval_end) :: h) else None)
        (Some []) (upto (num_axes pattern1)).

Definition OffsetToHyperrectangle (pattern1 pattern2 : Pattern)
    (offset_ : list Z) : option Hyperrectangle :=
  h ← OffsetToHyperrectangle_intervals pattern1 pattern2 offset_;
  index1 ← RandomIndexFromHyperrectangle_call h;
  let index2 :=
    map (fun i => rd index1 i - rd offset_ i)
        (upto (Z.of_nat (length index1))) in
  if IndexPattern pattern1 index1 =? IndexPattern pattern2 index2
  then Some h else None.

(** Modelled from the spec: [SetUnusedDimsAndStrides] and
    [SetDefaultCodeAndProperties] are defined in a file that is not part
    of the sources.  The first gives the slots from [num_axes] on dim 1
    and stride 0; the second leaves the code not computed (-1). *)
Definition SetUnusedDimsAndStrides (n : Z) (dest : Pattern) : Pattern :=
  foldl (fun p r => set_axis p r 1 0) dest
        (seqZ n (KALDI_TENSOR_MAX_AXES - n)).

Definition SetDefaultCodeAndProperties (dest : Pattern) : Pattern :=
  set_code dest (-1).

(** [HyperrectangleToPattern], pattern-extra-utils.cc lines 639-660. *)
Definition HyperrectangleToPattern (src : Pattern) (h : Hyperrectangle)
    : Pattern :=
  let n := num_axes src in
  let dest := set_num_axes fresh_pattern n in
  let '(dest, offset_) :=
    foldl (fun '(dest, offset_) r =>
             let stride := stride_of src r in
             let '(begin_, end_) := interval h (Z.to_nat r) in
             (set_axis dest r (end_ - begin_) stride,
              offset_ + begin_ * stride))
          (dest, offset src) (upto n) in
  let dest := SetUnusedDimsAndStrides n dest in
  SetDefaultCodeAndProperties (set_offset (set_num_axes dest n) offset_).

(** [GetFullHyperrectangleOfPattern], pattern-extra-utils.cc lines
    667-675. *)
Definition GetFullHyperrectangleOfPattern (src : Pattern) : Hyperrectangle :=
  map (fun raxis => (0, dim_of src raxis)) (upto (num_axes src)).

(** [OffsetToPattern], pattern-extra-utils.cc lines 699-742.  Inside the
    loop the source declares an [int32 offset = o[r]] that hides the
    [int64 offset] of the function: the statement
    [offset += int64(offset) * stride] changes the inner variable, which
    then enters the dim, and the offset of [dest] is the one of
    [pattern1]. *)
Definition OffsetToPattern (pattern1 pattern2 : Pattern) (o : list Z)
    : Pattern :=
  let n := num_axes pattern1 in
  let offset_outer := offset pattern1 in
  let dest := set_num_axes fresh_pattern n in
  let dest :=
    foldl (fun dest r =>
             let stride := stride_of pattern1 r in
             let offset_inner := rd o r in
             if offset_inner >=? 0 then
               let offset_inner := offset_inner + offset_inner * stride in
               set_axis dest r
                 (Z.min (dim_of pattern1 r - offset_inner)
                        (dim_of pattern2 r))
                 stride
             else
               set_axis dest r
                 (Z.min (dim_of pattern1 r)
                        (dim_of pattern2 r + offset_inner))
                 stride)
          dest (upto n) in
  let dest := SetUnusedDimsAndStrides n dest in
  SetDefaultCodeAndProperties (set_offset (set_num_axes dest n) offset_outer).

(** [ComputeIntersection], pattern-extra-utils.cc lines 747-815: the
    returned flag and [*intersection].  [Intersection_pair] is the body of
    the two nested loops; its flag records the early [return true] of the
    fast mode.  The patterns given to [OffsetToPattern] are the
    canonicalized inputs, as in the source, not the sub-patterns. *)
Definition Intersection_pair (pattern1 pattern2 : Pattern)
    (keep_all_patterns : bool) (st : option (bool * list Pattern))
    (subs : Pattern * Pattern) : option (bool * list Pattern) :=
  match st with
  | None => None
  | Some (true, _) => st
  | Some (false, intersection) =>
      match FindOffsets (fst subs) (snd subs) keep_all_patterns with
      | None => None
      | Some offsets =>
          let intersection :=
            intersection ++ map (OffsetToPattern pattern1 pattern2) offsets in
          Some (negb keep_all_patterns &&
                negb (bool_decide (intersection = [])), intersection)
      end
  end.

Definition ComputeIntersection (pattern1_in pattern2_in : Pattern)
    (keep_all_patterns : bool) : option (bool * list Pattern) :=
  let pattern1 := CanonicalizePattern pattern1_in in
  let pattern2 := CanonicalizePattern pattern2_in in
  let strides_ := FindAllStrides pattern1 pattern2 in
  if Z.of_nat (length strides_) =? 0 then
    Some (true, if offset pattern1 =? offset pattern2 then [pattern1] else [])
  else
    match ConvertPatternStrides pattern1 strides_ with
    | None => None
    | Some None => Some (false, [])
    | Some (Some patterns1) =>
        match ConvertPatternStrides pattern2 strides_ with
        | None => None
        | Some None => Some (false, [])
        | Some (Some patterns2) =>
            match foldl (Intersection_pair pattern1 pattern2
                                           keep_all_patterns)
                        (Some (false, [])) (list_prod patterns1 patterns2)
            with
            | None => None
            | Some (_, intersection) => Some (true, intersection)
            end
        end
    end.

(** [ComputeDifference], pattern-extra-utils.cc lines 962-1074.

    [SubtractOffsets] is lines 1029-1066 for one pair of sub-patterns once
    the offsets are known: each offset becomes a hyperrectangle that is
    subtracted from every remaining hyperrectangle of [sub_pattern1], and
    what remains is turned back into patterns.  [Difference_step] is the
    body of the loop over [cur_difference]; [end_mindex_of] is the offset
    plus the int32 product of the last stride and dim. *)
Definition SubtractOffsets (sub_pattern1 sub_pattern2 : Pattern)
    (offsets : list (list Z)) : option (list Pattern) :=
  cur_rects ←
    foldl (fun st offset_ =>
             cur_rects ← st;
             h ← OffsetToHyperrectangle sub_pattern1 sub_pattern2 offset_;
             Some (foldl (fun next_rects rect =>
                            SubtractHyperrectangles rect h 0 next_rects)
                         [] cur_rects))
          (Some [GetFullHyperrectangleOfPattern sub_pattern1]) offsets;
  Some (map (HyperrectangleToPattern sub_pattern1) cur_rects).

Definition end_mindex_of (n : Z) (p : Pattern) : Z :=
  offset p + int32_wrap (stride_of p (n - 1) * dim_of p (n - 1)).

Definition Difference_step (n : Z) (sub_pattern2 : Pattern)
    (st : option (list Pattern)) (sub_pattern1 : Pattern)
    : option (list Pattern) :=
  next_difference ← st;
  let begin_mindex2 := offset sub_pattern2 in
  let end_mindex2 := end_mindex_of n sub_pattern2 in
  let begin_mindex1 := offset sub_pattern1 in
  let end_mindex1 := end_mindex_of n sub_pattern1 in
  if (begin_mindex2 >=? end_mindex1) || (begin_mindex1 >=? end_mindex2)
  then Some (next_difference ++ [sub_pattern1])
  else
    offsets ← FindOffsets sub_pattern1 sub_pattern2 true;
    pieces ← SubtractOffsets sub_pattern1 sub_pattern2 offsets;
    Some (next_difference ++ pieces).

Definition ComputeDifference (pattern1_in pattern2_in : Pattern)
    : option (bool * list Pattern) :=
  let pattern1 := CanonicalizePattern pattern1_in in
  let pattern2 := CanonicalizePattern pattern2_in in
  let strides_ := FindAllStrides pattern1 pattern2 in
  let n := Z.of_nat (length strides_) in
  if n =? 0 then
    Some (true,
          if negb (offset pattern1 =? offset pattern2) then [pattern1] else [])
  else
    match ConvertPatternStrides pattern1 strides_ with
    | None => None
    | Some None => Some (false, [])
    | Some (Some patterns1) =>
        match ConvertPatternStrides pattern2 strides_ with
        | None => None
        | Some None => Some (false, [])
        | Some (Some patterns2) =>
            difference ←
              foldl (fun st sub_pattern2 =>
                       cur_difference ← st;
                       foldl (Difference_step n sub_pattern2) (Some [])
                             cur_difference)
                    (Some patterns1) patterns2;
            Some (true, difference)
        end
    end.

(** [PatternIsSubsetOf], pattern-extra-utils.cc lines 1076-1084; the value
    returned by [ComputeIntersection] is not looked at. *)
Definition PatternIsSubsetOf (p q : Pattern) : option bool :=
  r ← ComputeIntersection p q true;
  let total_size := foldl (fun t r => t + NumElements r) 0 (snd r) in
  Some (total_size =? NumElements p).

(** [PatternContains], pattern-extra-utils.cc lines 817-838 (the source
    writes [p] for [pattern] in the loop). *)
Fixpoint PatternContains_loop (pattern : Pattern) (raxes : list Z)
    (mindex : Z) : option bool :=
  match raxes with
  | [] => Some (mindex =? 0)
  | raxis :: raxes' =>
      match cdiv mindex (stride_of pattern raxis) with
      | None => None
      | Some index =>
          if uint32_ge index (dim_of pattern raxis) then Some false
          else PatternContains_loop pattern raxes'
                 (mindex - stride_of pattern raxis * index)
      end
  end.

Definition PatternContains (pattern_in : Pattern) (mindex : Z)
    : option bool :=
  let pattern :=
    if negb (IsCanonicalb pattern_in)
    then CanonicalizePattern pattern_in else pattern_in in
  PatternContains_loop pattern (downto (num_axes pattern - 1) (-1))
                       (mindex - offset pattern).

(** [ToMemoryIndexSet], pattern-extra-utils.cc lines 842-882: the vector
    [*s]; a write outside it is the failure.  [recursively_set_elements]
    is the lambda of the source. *)
Definition set_char (s : list bool) (m : Z) : option (list bool) :=
  if (0 <=? m) && (m <? Z.of_nat (length s))
  then Some (<[Z.to_nat m := true]> s) else None.

Fixpoint recursively_set_elements (pattern : Pattern) (raxis : nat)
    (mindex : Z) (s : list bool) : option (list bool) :=
  let this_stride := stride_of pattern (Z.of_nat raxis) in
  let this_dim := dim_of pattern (Z.of_nat raxis) in
  match raxis with
  | O =>
      foldl (fun st d => s ← st; set_char s (mindex + d * this_stride))
            (Some s) (upto this_dim)
  | S raxis' =>
      foldl (fun st d =>
               s ← st;
               recursively_set_elements pattern raxis'
                                        (mindex + d * this_stride) s)
            (Some s) (upto this_dim)
  end.

Definition ToMemoryIndexSet (pattern_in : Pattern) : option (list bool) :=
  let pattern :=
    if negb (IsCanonicalb pattern_in)
    then CanonicalizePattern pattern_in else pattern_in in
  let n := if num_axes pattern =? 0 then 1 else num_axes pattern in
  let end_mindex := stride_of pattern (n - 1) * dim_of pattern (n - 1) in
  if end_mindex <? 0 then None
  else
    recursively_set_elements pattern (Z.to_nat (n - 1)) (offset pattern)
                             (replicate (Z.to_nat end_mindex) false).

(** [PatternsIntersectSlow], pattern-extra-utils.cc lines 1088-1115.  The
    iterators are positions; both start at [max_offset], and the loop runs
    while the first is not [begin()] and the second is not [end()]. *)
Fixpoint Slow_loop (v1 v2 : list bool) (ks : list Z) : option bool :=
  match ks with
  | [] => Some false
  | k :: ks' =>
      match v1 !! Z.to_nat k, v2 !! Z.to_nat k with
      | Some c1, Some c2 =>
          if c1 && c2 then Some true else Slow_loop v1 v2 ks'
      | _, _ => None
      end
  end.

Definition PatternsIntersectSlow (pattern1_in pattern2_in : Pattern)
    : option bool :=
  let pattern1 := CanonicalizePattern pattern1_in in
  let pattern2 := CanonicalizePattern pattern2_in in
  let min_offset := Z.min (offset pattern1) (offset pattern2) in
  let pattern1 := set_offset pattern1 (offset pattern1 - min_offset) in
  let pattern2 := set_offset pattern2 (offset pattern2 - min_offset) in
  let max_offset := Z.max (offset pattern1) (offset pattern2) in
  pattern1_mindexes ← ToMemoryIndexSet pattern1;
  pattern2_mindexes ← ToMemoryIndexSet pattern2;
  let len1 := Z.of_nat (length pattern1_mindexes) in
  let len2 := Z.of_nat (length pattern2_mindexes) in
  if (max_offset >? len1) || (max_offset >? len2) then None
  else if max_offset =? 0 then Some false
  else Slow_loop pattern1_mindexes pattern2_mindexes
                 (seqZ max_offset (len2 - max_offset)).

(** Modelled from the spec: [RandInt] belongs to the base library, which is
    not part of the sources; it returns an integer of [lo..hi].  The
    generator is a stream of raw numbers with the count of the draws made
    so far. *)
Definition Rng : Type := nat -> Z.

Definition RandInt (rng : Rng) (count : nat) (lo hi : Z) : Z :=
  lo + (rng count) mod (hi - lo + 1).

(** [RandomMemoryIndex], pattern-extra-utils.cc lines 884-891: the index
    and the new count of draws.  The product of the drawn index and the
    stride is an int32 product, added to the int64 [mindex]. *)
Definition RandomMemoryIndex (rng : Rng) (count : nat) (pattern : Pattern)
    : Z * nat :=
  foldl (fun '(mindex, count) raxis =>
           (mindex + int32_wrap (RandInt rng count 0
                                         (dim_of pattern raxis - 1)
                                 * stride_of pattern raxis),
            S count))
        (offset pattern, count) (upto (num_axes pattern)).

(** [PatternsIntersect], pattern-extra-utils.cc lines 899-958.

    [Draws] is one of the two sampling loops of lines 945-953:
    [Some true] when a drawn index of [drawn_from] lies in [container]
    (the source returns true there), [Some false] when the [draws]
    iterations end without that.  [SamplingDraws] chooses the loop as line
    945 does, and [SamplingThenSlow] is lines 942-957.  The call of
    [ComputeIntersection] is written with its last two arguments
    exchanged; they are read in the order of the declaration.  The
    warning counter [num_warned] only drives a log message. *)
Fixpoint Draws (rng : Rng) (count : nat) (draws : nat)
    (container drawn_from : Pattern) : option bool :=
  match draws with
  | O => Some false
  | S draws' =>
      let '(mindex, count) := RandomMemoryIndex rng count drawn_from in
      match PatternContains container mindex with
      | None => None
      | Some true => Some true
      | Some false => Draws rng count draws' container drawn_from
      end
  end.

Definition num_draws : nat := 10.

Definition SamplingDraws (rng : Rng) (pattern1 pattern2 : Pattern)
    : option bool :=
  if NumElements pattern1 <? NumElements pattern2
  then Draws rng 0 num_draws pattern2 pattern1
  else Draws rng 0 num_draws pattern1 pattern2.

Definition SamplingThenSlow (rng : Rng) (pattern1 pattern2 : Pattern)
    : option bool :=
  match SamplingDraws rng pattern1 pattern2 with
  | None => None
  | Some true => Some true
  | Some false => PatternsIntersectSlow pattern1 pattern2
  end.

Definition PatternsIntersect (rng : Rng) (pattern1 pattern2 : Pattern)
    : option bool :=
  let '(min_mindex1, max_mindex1) := ComputeMinAndMaxMindex pattern1 in
  let '(min_mindex2, max_mindex2) := ComputeMinAndMaxMindex pattern2 in
  if (min_mindex2 >? max_mindex1) || (min_mindex1 >? max_mindex2)
  then Some false
  else
    match
      (if min_mindex2 >=? min_mindex1
       then PatternContains pattern1 min_mindex2
       else PatternContains pattern2 min_mindex1)
    with
    | None => None
    | Some true => Some true
    | Some false =>
        match ComputeIntersection pattern1 pattern2 false with
        | None => None
        | Some (true, intersection) =>
            Some (negb (bool_decide (intersection = [])))
        | Some (false, _) => SamplingThenSlow rng pattern1 pattern2
        end
    end.

(** ** The regularity property, as the specification words it *)

(** The index [k] of the regularity property for the axis [i]: the
    smallest index greater than [i] with
    [stride_k >= stride_i * dim_i], and [num_axes] when there is none. *)
Definition RegularityK (p : Pattern) (i : Z) : Z :=
  default (num_axes p)
    (head (List.filter
             (fun j => stride_of p j >=? stride_of p i * dim_of p i)
             (seqZ (i + 1) (num_axes p - (i + 1))))).

(** The property with the words of the specification: an axis of dim 1 is
    exempted, and an intervening axis has dim 1 or a stride divisible by
    the one of [i]. *)
Definition RegularAsSpecified (p : Pattern) : Prop :=
  forall i, 0 <= i < num_axes p ->
    dim_of p i = 1 \/
    forall j, i < j < RegularityK p i ->
      dim_of p j = 1 \/ (stride_of p i | stride_of p j).

(** The property that [IsRegular] decides: no axis is exempted, and an
    intervening axis has dim 1 and a stride divisible by the one of [i]. *)
Definition RegularAsCoded (p : Pattern) : Prop :=
  forall i, 0 <= i < num_axes p ->
    forall j, i < j < RegularityK p i ->
      dim_of p j = 1 /\ (stride_of p i | stride_of p j).

(** What the loop over [j] establishes for the axis [i]: every axis [j]
    that it reaches before the first stride at or above [this_prod] has
    dim 1 and a stride with remainder 0 by [this_stride]. *)
Definition scanned_ok (p : Pattern) (s prod a b : Z) : Prop :=
  forall j, a <= j < b ->
    (forall j', a <= j' <= j -> stride_of p j' < prod) ->
    dim_of p j = 1 /\ Z.rem (stride_of p j) s = 0.

(** The sums that bound the memory indexes of a list of axes from the
    base: the axes of non-positive stride contribute [(dim - 1) * stride]
    to the lower sum, those of positive stride to the upper one. *)
Fixpoint lo_sum (axes : list (Z * Z)) : Z :=
  match axes with
  | [] => 0
  | (d, s) :: rest => (if s >? 0 then 0 else (d - 1) * s) + lo_sum rest
  end.

Fixpoint hi_sum (axes : list (Z * Z)) : Z :=
  match axes with
  | [] => 0
  | (d, s) :: rest => (if s >? 0 then (d - 1) * s else 0) + hi_sum rest
  end.

(** ** Codes, stored patterns and further operations *)

(** [AxisIsTrivial] on a code, tensor-pattern-utils.h lines 77-79; [<<]
    binds tighter than [|]. *)
Definition AxisIsTrivial (pattern_code raxis : Z) : bool :=
  Z.lor pattern_code (Z.shiftl 1 raxis) =? 0.

(** [CombineCodes] of two codes, tensor-pattern-utils.h lines 150-152.
    The shift is the shift of an int32. *)
Definition CombineCodes (code1 code2 : Z) : Z :=
  Z.lor (int32_wrap (Z.shiftl code1 12)) code2.

(** A pattern as the struct stores it: both arrays have their
    [KALDI_TENSOR_MAX_AXES] slots and [num_axes] lies within them. *)
Definition WellFormed (p : Pattern) : Prop :=
  length (dims p) = Z.to_nat KALDI_TENSOR_MAX_AXES /\
  length (strides p) = Z.to_nat KALDI_TENSOR_MAX_AXES /\
  0 <= num_axes p <= KALDI_TENSOR_MAX_AXES.

(** The product of the dims of a list of axes. *)
Definition dims_product (axes : list (Z * Z)) : Z :=
  foldr (fun a acc => fst a * acc) 1 axes.

(** What a pattern keeps when one of its slots is written. *)
Definition same_frame (p q : Pattern) : Prop :=
  WellFormed q /\ num_axes q = num_axes p /\ offset q = offset p /\
  code q = code p.

(** [Select], pattern-utils.cc lines 543-572.  The bound of [index] is
    read from [src.dims[axis]], where the function has no [axis]; the
    embedding reads the parameter [eaxis] there, as [Slice] reads its
    parameter: with a negative [eaxis] the read is outside the array.
    The product added to the offset is an int32 product.  Every slot of
    [dest] is written; the field [properties] is not part of the
    embedding. *)
Definition Select (eaxis index : Z) (src : Pattern) : option Pattern :=
  let n := num_axes src in
  let raxis := EaxisToRaxis n eaxis in
  if uint32_ge raxis n || negb (inb (dims src) eaxis) ||
     uint32_ge index (dim_of src eaxis)
  then None
  else
    let dest := set_num_axes fresh_pattern (n - 1) in
    let dest :=
      foldl (fun dest r => set_axis dest r (dim_of src r) (stride_of src r))
            dest (upto raxis) in
    let dest :=
      set_offset dest
        (offset src + int32_wrap (index * stride_of src raxis)) in
    let dest :=
      foldl (fun dest r =>
               set_axis dest (r - 1) (dim_of src r) (stride_of src r))
            dest (seqZ (raxis + 1) (n - (raxis + 1))) in
    let dest :=
      foldl (fun dest r => set_axis dest r 1 0) dest
            (seqZ (n - 1) (KALDI_TENSOR_MAX_AXES - (n - 1))) in
    Some (set_code dest (-1)).

(** [RemoveTrivialAxes] on one pattern, in place, pattern-utils.cc lines
    489-509.  [num_axes_out] is never incremented, and the last statement
    assigns [num_axes], not [num_axes_out]. *)
Definition RemoveTrivialAxes (pattern : Pattern) : Pattern :=
  let n := num_axes pattern in
  let num_axes_out := 0 in
  let pattern :=
    foldl (fun pattern raxis =>
             let this_dim := dim_of pattern raxis in
             if negb (this_dim =? 1) then
               if negb (num_axes_out =? raxis)
               then set_axis pattern num_axes_out this_dim
                             (stride_of pattern raxis)
               else pattern
             else pattern)
          pattern (upto n) in
  let pattern :=
    foldl (fun pattern raxis => set_axis pattern raxis 1 0) pattern
          (seqZ num_axes_out (n - num_axes_out)) in
  set_code (set_num_axes pattern n) (-1).

(** [RemoveTrivialAxes] from [pattern_in] to [pattern_out],
    pattern-utils.cc lines 512-533.  The source reads
    [pattern->num_axes] and writes [pattern_out->axes[...]]; they are read
    as [pattern_in.num_axes] and [pattern_out->strides[...]].
    [num_axes_out] is never incremented; the offset of [pattern_out] is
    not assigned. *)
Definition RemoveTrivialAxes_out (pattern_in pattern_out : Pattern)
    : Pattern :=
  let n := num_axes pattern_in in
  let num_axes_out := 0 in
  let pattern_out :=
    foldl (fun pattern_out raxis =>
             let this_dim := dim_of pattern_in raxis in
             if negb (this_dim =? 1)
             then set_axis pattern_out num_axes_out this_dim
                           (stride_of pattern_in raxis)
             else pattern_out)
          pattern_out (upto n) in
  let pattern_out :=
    foldl (fun pattern_out raxis => set_axis pattern_out raxis 1 0)
          pattern_out
          (seqZ num_axes_out (KALDI_TENSOR_MAX_AXES - num_axes_out)) in
  set_code (set_num_axes pattern_out num_axes_out) (-1).

(** An index tuple lies in a hyperrectangle: one index per interval, each
    from the begin of its interval to before its end (the "set view of
    hyperrectangles" of pattern-extra-utils.cc, lines 460-466). *)
Definition InHyperrectangle (t : list Z) (h : Hyperrectangle) : Prop :=
  Forall2 (fun x iv => fst iv <= x < snd iv) t h.

(** The axes that a hyperrectangle cuts out, with the strides [str] of the
    positions from [a] on, and the memory index of an index tuple with
    those strides. *)
Fixpoint rect_axes (str : Z -> Z) (a : Z) (h : Hyperrectangle)
    : list (Z * Z) :=
  match h with
  | [] => []
  | iv :: h' => (snd iv - fst iv, str a) :: rect_axes str (a + 1) h'
  end.

Fixpoint tuple_index (str : Z -> Z) (a : Z) (t : list Z) (base : Z) : Z :=
  match t with
  | [] => base
  | x :: t' => tuple_index str (a + 1) t' (base + x * str a)
  end.




(** ** Compact layouts *)

(** [MakeCompactNormalizedAndJustified], pattern-extra-utils.cc lines
    1272-1297.  [dest] is the object the caller passes; the assertions of
    the paranoid mode are left out.  [next_stride] is an int32, and so is
    its product with the dim. *)
Definition MakeCompactNormalizedAndJustified (src dest : Pattern) : Pattern :=
  let n := num_axes src in
  let '(dest, next_stride) :=
    foldl (fun '(dest, next_stride) raxis =>
             let this_dim := dim_of src raxis in
             let this_stride := stride_of src raxis in
             if this_stride =? 0
             then (set_axis dest raxis this_dim 0, next_stride)
             else (set_axis dest raxis this_dim next_stride,
                   int32_wrap (next_stride * this_dim)))
          (dest, 1) (upto n) in
  let dest := SetUnusedDimsAndStrides n dest in
  SetDefaultCodeAndProperties (set_offset (set_num_axes dest n) 0).

(** The value of [next_stride] when the loop of
    [MakeCompactNormalizedAndJustified] reaches the axis [raxis]. *)
Definition next_stride_at (src : Pattern) (raxis : Z) : Z :=
  foldl (fun next_stride q =>
           if stride_of src q =? 0 then next_stride
           else int32_wrap (next_stride * dim_of src q))
        1 (upto raxis).

(** Axes laid out one after the other from the stride [c] on: an axis has
    the product of [c] and of the dims before it as its stride, or it is
    trivial with stride 0. *)
Fixpoint CompactFrom (c : Z) (axes : list (Z * Z)) : Prop :=
  match axes with
  | [] => True
  | (d, s) :: rest =>
      1 <= d /\ ((s = 0 /\ d = 1) \/ s = c) /\ CompactFrom (c * d) rest
  end.

(** ** Rebasing *)

(** Modelled from the spec: the class [PatternRebaser] is declared in a
    header that is not part of the sources.  The record has the members
    that [ConvertMemoryIndex] reads: the number of axes of the compressed
    source pattern, the two offsets, and the strides of source and
    destination per axis. *)
Record PatternRebaser : Type := mkPatternRebaser {
  num_axes_ : Z;
  src_offset_ : Z;
  dest_offset_ : Z;
  src_strides_ : list Z;
  dest_strides_ : list Z
}.

(** [PatternRebaser::ConvertMemoryIndex], pattern-extra-utils.cc lines
    1143-1166.  With no axes the function returns [m] after the
    subtraction of the source offset; [KALDI_ERR] is the failure, as is a
    division by a stride 0. *)
Definition ConvertMemoryIndex (r : PatternRebaser) (m : Z) : option Z :=
  let n := num_axes_ r in
  let ans := dest_offset_ r in
  let m := m - src_offset_ r in
  if n =? 0 then Some m
  else
    '(m, ans) ←
      foldl (fun st raxis =>
               '(m, ans) ← st;
               let stride := rd (src_strides_ r) raxis in
               i ← cdiv m stride;
               Some (m - i * stride, ans + i * rd (dest_strides_ r) raxis))
            (Some (m, ans)) (downto (n - 1) (-1));
    if negb (m =? 0) then None else Some ans.

(** The sum of [indexes[j] * strides[j]] over the axes [j < k]. *)
Definition index_sum (indexes strides : list Z) (k : Z) : Z :=
  foldl (fun acc j => acc + rd indexes j * rd strides j) 0 (upto k).


(** * Properties *)

(** ** Evaluations of the embedding *)

Example code_one_axis :
  ComputePatternCode (make_pattern [9] [-1] 8 (-1)) = 2.
Proof. reflexivity. Qed.

Example normalize_flip :
  NormalizeSigns [(make_pattern [9] [-1] 8 (-1), 0)] 1 =
  ([(mkPattern 1 [9; 1; 1; 1; 1] [1; 0; 0; 0; 0] 8 (-1), -8)], true).
Proof. vm_compute. reflexivity. Qed.

Example compress_unchanged :
  CompressOnePattern (make_pattern [3] [2] 0 (-1)) =
  Some (make_pattern [3] [2] 0 (-1), 0).
Proof. vm_compute. reflexivity. Qed.

Example unsqueeze_doc_0 :
  PublicDims <$> Unsqueeze 0 (make_pattern [5; 6] [1; 5] 0 (-1)) =
  Some [1; 6; 5].
Proof. reflexivity. Qed.

Example unsqueeze_doc_2 :
  PublicDims <$> Unsqueeze 2 (make_pattern [10; 9] [1; 10] 0 (-1)) =
  Some [9; 10; 1].
Proof. reflexivity. Qed.

Example squeeze_doc_1 :
  PublicDims <$> Squeeze 1 (make_pattern [4; 1; 3] [1; 0; 4] 0 (-1)) =
  Some [3; 4].
Proof. reflexivity. Qed.

Example convert_split :
  ConvertPatternStrides (make_pattern [3] [2] 0 (-1)) [2; 4] =
  Some (Some [mkPattern 2 [2; 1; 1; 1; 1] [2; 4; 0; 0; 0] 0 (-1);
              mkPattern 2 [1; 1; 1; 1; 1] [2; 4; 0; 0; 0] 4 (-1)]).
Proof. vm_compute. reflexivity. Qed.

Example convert_irregular :
  ConvertPatternStrides (make_pattern [3] [2] 0 (-1)) [2; 3] =
  Some (Some [mkPattern 2 [1; 3; 1; 1; 1] [2; 3; 0; 0; 0] 0 (-1)]).
Proof. vm_compute. reflexivity. Qed.

(** ** Loops over axis indexes and the validity tiers *)

Lemma forallb_upto (f : Z -> bool) (n : Z) :
  forallb f (upto n) = true <-> forall r, 0 <= r < n -> f r = true.
Proof.
  unfold upto. rewrite forallb_forall. split.
  - intros H r Hr. apply H. apply list_elem_of_In, elem_of_seqZ. lia.
  - intros H r Hr. apply list_elem_of_In, elem_of_seqZ in Hr. apply H. lia.
Qed.

Lemma In_upto (x n : Z) : In x (upto n) <-> 0 <= x < n.
Proof.
  unfold upto. rewrite <- list_elem_of_In, elem_of_seqZ. lia.
Qed.

Lemma IsValidb_sound (p : Pattern) : IsValidb p = true -> IsValid p.
Proof.
  unfold IsValidb, IsValid. rewrite !andb_true_iff, !forallb_upto.
  intros [[[[[Hd Hs] H0] H1] H2] H3].
  apply bool_decide_eq_true in Hd, Hs.
  split; [done|]. split; [done|]. split; [lia|]. split.
  - intros r Hr. specialize (H2 r Hr).
    rewrite andb_true_iff, orb_true_iff, negb_true_iff in H2. lia.
  - intros r q Hr Hq Hne Hdr Hdq. specialize (H3 r Hr).
    rewrite forallb_upto in H3. specialize (H3 q Hq).
    rewrite !orb_true_iff, !negb_true_iff in H3. lia.
Qed.

Lemma IsCanonicalb_sound (p : Pattern) :
  IsCanonicalb p = true -> IsCanonical p.
Proof.
  unfold IsCanonicalb, IsCanonical.
  rewrite !andb_true_iff, !forallb_upto.
  intros [[Hv Hs] Hl]. split; [by apply IsValidb_sound|]. split.
  - intros r Hr0 Hr. specialize (Hs r ltac:(lia)).
    unfold axis_leb in Hs. unfold axis_le.
    rewrite orb_true_iff, andb_true_iff in Hs. lia.
  - intros r Hr Hd Hlow q Hq. specialize (Hl r Hr).
    rewrite !orb_true_iff, !negb_true_iff in Hl.
    destruct Hl as [[Hl|Hl]|Hl]; [lia| |].
    + assert (forallb (fun q => dim_of p q =? 1) (upto r) = true) as Hc.
      { apply forallb_upto. intros q' Hq'. specialize (Hlow q' Hq'). lia. }
      congruence.
    + rewrite forallb_upto in Hl. specialize (Hl q Hq). lia.
Qed.

(** ** The classification code *)

(** The test of [ContainsNegativeStride] holds for every code, the [|]
    with a nonzero mask being nonzero. *)
Lemma lor_mask_nonzero (c m : Z) : m <> 0 -> (Z.lor c m =? 0) = false.
Proof.
  intros Hm. apply Z.eqb_neq. intros H.
  apply Z.lor_eq_0_iff in H. lia.
Qed.

Lemma ContainsNegativeStride_always (c : Z) :
  ContainsNegativeStride c = true.
Proof.
  unfold ContainsNegativeStride, kPatternContainsNegativeStride.
  by rewrite lor_mask_nonzero.
Qed.

(** C4 (the code departs from the claim).  On the valid one-axis pattern
    with dim 9, stride -1 and offset 8, [ComputePatternCode] returns 2:
    bit 0 is clear although the axis 0 has dim 9, because the bit of an
    axis is shifted left once more after it is set, and bit 11 is clear
    although the stride is negative, because the sign of the dim is
    tested.  Bits 8-10 hold 0, as no stride is 1. *)
Theorem ComputePatternCode_misplaces_bits :
  let p := make_pattern [9] [-1] 8 (-1) in
  IsValid p /\
  ComputePatternCode p = 2 /\
  dim_of p 0 <> 1 /\ Z.testbit (ComputePatternCode p) 0 = false /\
  stride_of p 0 < 0 /\ Z.testbit (ComputePatternCode p) 11 = false.
Proof.
  cbv zeta. split; [by apply IsValidb_sound|].
  repeat split; try reflexivity; vm_compute; congruence.
Qed.

(** Whatever the stride, a step of the loop of [ComputePatternCode] leaves
    the flag behind bit 11 clear when the dim is not negative. *)
Lemma ComputePatternCode_step_flag (p : Pattern) (ans n r : Z) :
  0 <= dim_of p r ->
  snd (ComputePatternCode_step p (ans, n, false) r) = false.
Proof.
  intros Hr. unfold ComputePatternCode_step.
  destruct (negb (dim_of p r =? 1)); [|reflexivity].
  replace (dim_of p r <? 0) with false by (symmetry; apply Z.ltb_ge; lia).
  reflexivity.
Qed.

(** A bit above the size of a number is clear. *)
Lemma testbit_small (a k : Z) :
  0 <= a < 2 ^ k -> 0 <= k -> Z.testbit a k = false.
Proof.
  intros [Ha Hlt] Hk. destruct (Z.eq_dec a 0) as [->|Hne].
  - apply Z.bits_0.
  - apply Z.bits_above_log2; [lia|]. apply Z.log2_lt_pow2; lia.
Qed.

(** Setting the low bit adds at most 1. *)
Lemma lor_1_bounds (a : Z) : 0 <= a -> 0 <= Z.lor a 1 <= a + 1.
Proof.
  intros Ha. split; [apply Z.lor_nonneg; lia|].
  pose proof (Z.add_lor_land a 1) as H.
  assert (0 <= Z.land a 1) by (apply Z.land_nonneg; lia). lia.
Qed.

(** Along the loop the accumulated bits stay below [2 ^ (k + 1)] after
    [k] axes, [n] stays an axis number plus one, and the flag stays
    clear. *)
Lemma ComputePatternCode_loop_bounds (p : Pattern) (l : list Z) :
  forall ans n k,
    0 <= k -> 0 <= ans <= 2 ^ (k + 1) - 2 -> 0 <= n <= 5 ->
    (forall r, In r l -> 0 <= r < 5 /\ 0 <= dim_of p r) ->
    exists ans' n',
      foldl (ComputePatternCode_step p) (ans, n, false) l =
        (ans', n', false) /\
      0 <= ans' <= 2 ^ (k + Z.of_nat (length l) + 1) - 2 /\ 0 <= n' <= 5.
Proof.
  induction l as [|r l IH]; intros ans n k Hk Ha Hn Hl.
  - exists ans, n. cbn [foldl length].
    replace (k + Z.of_nat 0 + 1) with (k + 1) by lia. done.
  - cbn [foldl length].
    destruct (Hl r (or_introl eq_refl)) as [Hr Hd].
    pose proof (ComputePatternCode_step_flag p ans n r Hd) as Hf.
    destruct (ComputePatternCode_step p (ans, n, false) r)
      as [[ans1 n1] f1] eqn:E1.
    cbn [snd] in Hf. subst f1.
    assert (0 <= ans1 <= 2 ^ (k + 1 + 1) - 2 /\ 0 <= n1 <= 5) as [Ha1 Hn1].
    { unfold ComputePatternCode_step in E1.
      pose proof (lor_1_bounds ans ltac:(lia)) as Hb.
      rewrite Z.pow_add_r with (c := 1) by lia.
      destruct (negb (dim_of p r =? 1)); [destruct (stride_of p r =? 1)|];
        injection E1; intros; subst ans1 n1;
        rewrite Z.shiftl_mul_pow2 by lia; lia. }
    destruct (IH ans1 n1 (k + 1) ltac:(lia) Ha1 Hn1
                 (fun q Hq => Hl q (or_intror Hq)))
      as (ans' & n' & E & Ha' & Hn').
    exists ans', n'. split; [exact E|]. split; [|done].
    replace (k + Z.of_nat (S (length l)) + 1)
      with (k + 1 + Z.of_nat (length l) + 1) by lia.
    exact Ha'.
Qed.

(** Bit 11 of the code of a valid pattern is clear, whatever its
    strides. *)
Lemma ComputePatternCode_bit11_clear (p : Pattern) :
  IsValid p -> Z.testbit (ComputePatternCode p) 11 = false.
Proof.
  intros (_ & _ & Hn & Hd & _). unfold ComputePatternCode.
  destruct (ComputePatternCode_loop_bounds p (upto (num_axes p)) 0 0 0)
    as (ans & n & E & Ha & Hn'); [lia..| |].
  { intros r Hr. apply In_upto in Hr.
    unfold KALDI_TENSOR_MAX_AXES in Hn. split; [lia|].
    destruct (Hd r Hr). lia. }
  rewrite E, Z.lor_0_r, Z.lor_spec.
  unfold upto in Ha. rewrite length_seqZ in Ha.
  unfold KALDI_TENSOR_MAX_AXES in Hn.
  assert (2 ^ (0 + Z.of_nat (Z.to_nat (num_axes p)) + 1) <= 2 ^ 6) as Hp
    by (apply Z.pow_le_mono_r; lia).
  rewrite (testbit_small ans 11) by lia.
  rewrite Z.shiftl_spec by lia.
  cbn [orb]. apply testbit_small; lia.
Qed.

(** Every step of the loop ends with a shift, which clears bit 0. *)
Lemma ComputePatternCode_loop_even (p : Pattern) (l : list Z) :
  forall st,
    Z.testbit (fst (fst st)) 0 = false ->
    Z.testbit (fst (fst (foldl (ComputePatternCode_step p) st l))) 0 = false.
Proof.
  induction l as [|r l IH]; intros st Hst; [done|].
  cbn [foldl]. apply IH.
  destruct st as [[ans n] f]. unfold ComputePatternCode_step.
  destruct (negb (dim_of p r =? 1)); cbn [fst];
    apply Z.shiftl_spec_low; lia.
Qed.

(** Bit 0 of the code of any pattern is clear, whatever the dim of its
    axis 0. *)
Lemma ComputePatternCode_bit0_clear (p : Pattern) :
  Z.testbit (ComputePatternCode p) 0 = false.
Proof.
  unfold ComputePatternCode.
  pose proof (ComputePatternCode_loop_even p (upto (num_axes p))
                (0, 0, false) eq_refl) as H.
  destruct (foldl _ _ _) as [[ans n] f]. cbn [fst] in H.
  rewrite !Z.lor_spec, H, Z.shiftl_spec_low by lia.
  destruct f; [rewrite Z.shiftl_spec_low by lia|]; reflexivity.
Qed.

(** ** The bounding range *)

(** The result of [ComputeMinAndMaxMindex] does not depend on the offset of
    the pattern. *)
Lemma ComputeMinAndMaxMindex_offset (p : Pattern) (o : Z) :
  ComputeMinAndMaxMindex (set_offset p o) = ComputeMinAndMaxMindex p.
Proof. reflexivity. Qed.

(** The used axes of a valid pattern, read slot by slot. *)
Lemma axes_of_upto (p : Pattern) :
  IsValid p ->
  axes_of p = map (fun r => (dim_of p r, stride_of p r)) (upto (num_axes p)).
Proof.
  intros (Hd & Hs & Hn & _). unfold axes_of, upto, dim_of, stride_of, rd.
  apply list_eq. intros i.
  change (map ?f ?l) with (f <$> l).
  rewrite list_lookup_fmap.
  destruct (decide (i < Z.to_nat (num_axes p))%nat) as [Hi|Hi].
  - rewrite lookup_take_lt by done.
    rewrite lookup_seqZ_lt by lia. cbn.
    rewrite lookup_zip_with.
    replace (Z.to_nat (0 + Z.of_nat i)) with i by lia.
    destruct (lookup_lt_is_Some_2 (dims p) i) as [d Ed];
      [unfold KALDI_TENSOR_MAX_AXES in *; lia|].
    destruct (lookup_lt_is_Some_2 (strides p) i) as [s Es];
      [unfold KALDI_TENSOR_MAX_AXES in *; lia|].
    rewrite Ed, Es. reflexivity.
  - rewrite lookup_take_ge by lia.
    rewrite lookup_seqZ_ge by lia. reflexivity.
Qed.

(** The loop of [ComputeMinAndMaxMindex] adds the two sums to its
    accumulators. *)
Lemma MinMax_fold (p : Pattern) (l : list Z) (a b : Z) :
  foldl (fun '(min_mindex_sum, max_mindex_sum) raxis =>
           let prod := (dim_of p raxis - 1) * stride_of p raxis in
           if stride_of p raxis >? 0
           then (min_mindex_sum, max_mindex_sum + prod)
           else (min_mindex_sum + prod, max_mindex_sum))
        (a, b) l =
  (a + lo_sum (map (fun r => (dim_of p r, stride_of p r)) l),
   b + hi_sum (map (fun r => (dim_of p r, stride_of p r)) l)).
Proof.
  revert a b.
  induction l as [|r l IH]; intros a b; cbn [foldl map lo_sum hi_sum].
  - f_equal; lia.
  - destruct (stride_of p r >? 0); rewrite IH; f_equal; lia.
Qed.

(** On a valid pattern [ComputeMinAndMaxMindex] returns the two sums of
    its axes: the branch for the codes without negative stride is never
    taken. *)
Lemma ComputeMinAndMaxMindex_sums (p : Pattern) :
  IsValid p ->
  ComputeMinAndMaxMindex p = (lo_sum (axes_of p), hi_sum (axes_of p)).
Proof.
  intros Hv. unfold ComputeMinAndMaxMindex.
  rewrite ContainsNegativeStride_always, MinMax_fold.
  rewrite <- axes_of_upto by done. reflexivity.
Qed.

(** The memory indexes lie between the base plus the lower sum and the
    base plus the upper sum. *)
Lemma mindexes_from_bounds (axes : list (Z * Z)) :
  Forall (fun a => 1 <= fst a) axes ->
  forall base m, In m (mindexes_from axes base) ->
    base + lo_sum axes <= m <= base + hi_sum axes.
Proof.
  induction 1 as [|[d s] rest Hd _ IH]; intros base m Hm.
  - cbn in *. lia.
  - cbn [mindexes_from lo_sum hi_sum] in *. cbn [fst] in Hd.
    apply in_flat_map in Hm as (i & Hi & Hm).
    apply In_upto in Hi. apply IH in Hm.
    destruct (s >? 0) eqn:Es; nia.
Qed.

(** Both bounds are memory indexes. *)
Lemma mindexes_from_attained (axes : list (Z * Z)) :
  Forall (fun a => 1 <= fst a) axes ->
  forall base,
    In (base + lo_sum axes) (mindexes_from axes base) /\
    In (base + hi_sum axes) (mindexes_from axes base).
Proof.
  induction 1 as [|[d s] rest Hd _ IH]; intros base.
  - cbn. split; left; lia.
  - cbn [mindexes_from lo_sum hi_sum]. cbn [fst] in Hd.
    rewrite !in_flat_map. destruct (s >? 0) eqn:Es; split.
    + exists 0. rewrite In_upto. split; [lia|].
      replace (base + (0 + lo_sum rest)) with (base + 0 * s + lo_sum rest)
        by lia.
      apply IH.
    + exists (d - 1). rewrite In_upto. split; [lia|].
      replace (base + ((d - 1) * s + hi_sum rest))
        with (base + (d - 1) * s + hi_sum rest) by lia.
      apply IH.
    + exists (d - 1). rewrite In_upto. split; [lia|].
      replace (base + ((d - 1) * s + lo_sum rest))
        with (base + (d - 1) * s + lo_sum rest) by lia.
      apply IH.
    + exists 0. rewrite In_upto. split; [lia|].
      replace (base + (0 + hi_sum rest)) with (base + 0 * s + hi_sum rest)
        by lia.
      apply IH.
Qed.

(** The used axes of a valid pattern have positive dims. *)
Lemma axes_of_dims_positive (p : Pattern) :
  IsValid p -> Forall (fun a => 1 <= fst a) (axes_of p).
Proof.
  intros Hv. rewrite axes_of_upto by done.
  destruct Hv as (_ & _ & _ & Hd & _).
  apply List.Forall_forall. intros a Ha.
  apply in_map_iff in Ha as (r & <- & Hr). apply In_upto in Hr.
  cbn. by apply Hd.
Qed.

(** On every valid pattern the result of [ComputeMinAndMaxMindex] is the
    minimum and the maximum of the memory-index set less the offset of the
    pattern: the extremes of the set are [offset + min] and
    [offset + max]. *)
Lemma ComputeMinAndMaxMindex_exact_up_to_offset (p : Pattern) :
  IsValid p ->
  let min_mindex := fst (ComputeMinAndMaxMindex p) in
  let max_mindex := snd (ComputeMinAndMaxMindex p) in
  (forall m, In m (MemoryIndexSet p) ->
     offset p + min_mindex <= m <= offset p + max_mindex) /\
  In (offset p + min_mindex) (MemoryIndexSet p) /\
  In (offset p + max_mindex) (MemoryIndexSet p).
Proof.
  intros Hv. cbv zeta. rewrite ComputeMinAndMaxMindex_sums by done.
  cbn [fst snd]. unfold MemoryIndexSet.
  pose proof (axes_of_dims_positive p Hv) as Hd. split.
  - by apply mindexes_from_bounds.
  - by apply mindexes_from_attained.
Qed.

(** The lower sum is not positive and the upper sum is not negative. *)
Lemma lo_hi_sum_sign (axes : list (Z * Z)) :
  Forall (fun a => 1 <= fst a) axes -> lo_sum axes <= 0 <= hi_sum axes.
Proof.
  induction 1 as [|[d s] rest Hd _ IH]; cbn [lo_sum hi_sum]; [lia|].
  cbn [fst] in Hd. destruct (s >? 0) eqn:Es; nia.
Qed.

(** So the bounding-range test of [PatternsIntersect] (lines 906-908)
    rejects no pair of valid patterns, however far apart their offsets. *)
Lemma bounding_range_never_rejects (p1 p2 : Pattern) :
  IsValid p1 -> IsValid p2 ->
  let r1 := ComputeMinAndMaxMindex p1 in
  let r2 := ComputeMinAndMaxMindex p2 in
  (fst r2 >? snd r1) || (fst r1 >? snd r2) = false.
Proof.
  intros H1 H2. cbv zeta.
  rewrite !ComputeMinAndMaxMindex_sums by done. cbn [fst snd].
  pose proof (lo_hi_sum_sign _ (axes_of_dims_positive p1 H1)).
  pose proof (lo_hi_sum_sign _ (axes_of_dims_positive p2 H2)).
  apply orb_false_iff. split; rewrite Z.gtb_ltb; apply Z.ltb_ge; lia.
Qed.

(** C3 (the code departs from the claim).  [ComputeMinAndMaxMindex] leaves
    the offset out: for the valid pattern with dim 2, stride 1 and offset
    5, whose cached code is up to date and whose memory-index set is
    {5, 6}, it gives min = 0 and max = 1.  So the first stage of
    [PatternsIntersect] does not reject that pattern against the one with
    offset 0, whose set is {0, 1}, and the function answers true whatever
    the random draws. *)
Theorem ComputeMinAndMaxMindex_leaves_offset_out (rng : Rng) :
  let p1 := make_pattern [2] [1] 0 258 in
  let p2 := make_pattern [2] [1] 5 258 in
  IsValid p1 /\ IsValid p2 /\
  code p2 = ComputePatternCode p2 /\
  MemoryIndexSet p1 = [0; 1] /\
  MemoryIndexSet p2 = [5; 6] /\
  ComputeMinAndMaxMindex p2 = (0, 1) /\
  PatternsIntersect rng p1 p2 = Some true.
Proof.
  cbv zeta. repeat split; try (by apply IsValidb_sound); reflexivity.
Qed.

(** ** Compression *)

(** The loop that marks the trivial axes from the combined code marks
    none: its test compares an [|] with a nonzero mask to 0. *)
Lemma TrivialFlags_none (c n : Z) :
  TrivialFlags c n =
  (replicate (Z.to_nat KALDI_TENSOR_MAX_AXES) false, false).
Proof.
  unfold TrivialFlags, upto.
  generalize (replicate (Z.to_nat KALDI_TENSOR_MAX_AXES) false).
  assert (forall l (fl : list bool) (ex : bool),
            (forall r, In r l -> 0 <= r) ->
            foldl (fun '(flags, ex) raxis =>
                     if Z.lor c (Z.shiftl 1 raxis) =? 0
                     then (set_flag flags raxis, true) else (flags, ex))
                  (fl, ex) l = (fl, ex)) as H.
  { induction l as [|r l IH]; intros fl ex Hl; [reflexivity|].
    cbn [foldl]. rewrite lor_mask_nonzero.
    - apply IH. intros q Hq. apply Hl. by right.
    - rewrite Z.shiftl_1_l. apply Z.pow_nonzero; [lia|].
      apply Hl. by left. }
  intros fl. apply H. intros r Hr.
  apply list_elem_of_In, elem_of_seqZ in Hr. lia.
Qed.

(** C6 (the code departs from the claim).  On the one-axis pattern with
    dim 9, stride -1 and offset 8, whatever its cached code,
    [NormalizeSigns] flips the stride to 1 and sets the data offset to -8,
    and reports a change.  [CompressPatterns] then assigns to the code of
    the pattern the result of a call of [ComputePatternCode], which ends
    without a [return] statement: [CompressOnePattern] has no defined
    result on this input, where the claim expects the pattern with stride
    1 and the data offset -8. *)
Theorem CompressOnePattern_undefined_on_negative_stride (c : Z) :
  let p := make_pattern [9] [-1] 8 c in
  IsValid p /\
  (forall m, In m (MemoryIndexSet p) <-> 0 <= m <= 8) /\
  NormalizeSigns [(p, 0)] 1 =
    ([(mkPattern 1 [9; 1; 1; 1; 1] [1; 0; 0; 0; 0] 8 c, -8)], true) /\
  CompressOnePattern p = None.
Proof.
  cbv zeta. split; [by apply IsValidb_sound|]. split.
  { assert (MemoryIndexSet (make_pattern [9] [-1] 8 c) =
            [8; 7; 6; 5; 4; 3; 2; 1; 0]) as -> by reflexivity.
    cbn [In]. intros m. lia. }
  split; [reflexivity|].
  unfold CompressOnePattern, CompressPatterns.
  rewrite ContainsNegativeStride_always, TrivialFlags_none.
  vm_compute. reflexivity.
Qed.

(** ** Squeezing, unsqueezing and slicing *)

(** C8 (the code departs from the claim).  With a negative axis the
    wrappers call the private operation at [1 - axis].  On the valid
    pattern of public dims [9, 10], [Unsqueeze(-1)] inserts the new axis
    at private position 2, in front of the public dims, where
    [Unsqueeze(2)] appends it; on the valid pattern of public dims
    [7, 1], [Squeeze(-1)] asks for the private axis 2, which does not
    exist, where [Squeeze(1)] removes the last public axis. *)
Theorem negative_axis_wrappers_miss_last_axis :
  let p := make_pattern [10; 9] [1; 10] 0 (-1) in
  let q := make_pattern [1; 7] [0; 1] 0 (-1) in
  IsValid p /\ IsValid q /\
  PublicDims p = [9; 10] /\
  PublicDims <$> Unsqueeze (-1) p = Some [1; 9; 10] /\
  PublicDims <$> Unsqueeze (num_axes p) p = Some [9; 10; 1] /\
  PublicDims q = [7; 1] /\
  Squeeze (-1) q = None /\
  PublicDims <$> Squeeze (num_axes q - 1) q = Some [7].
Proof.
  cbv zeta. repeat split; try (by apply IsValidb_sound); reflexivity.
Qed.

(** C9 (the code departs from the claim).  The valid pattern with private
    dims {3, 4} and strides {1, 3} has the up-to-date code 262.  Slicing
    its public axis 0 to the range [0, 1) leaves the cached code 262,
    which is neither -1 nor the code 260 that [ComputePatternCode] gives
    for the result: [Slice] clears the bit [raxis - 1] of the code. *)
Theorem Slice_leaves_stale_code :
  let p := make_pattern [3; 4] [1; 3] 0 262 in
  IsValid p /\ code p = ComputePatternCode p /\
  exists p', Slice 0 0 1 p = Some p' /\
             code p' = 262 /\ code p' <> -1 /\
             ComputePatternCode p' = 260.
Proof.
  cbv zeta. split; [by apply IsValidb_sound|]. split; [reflexivity|].
  eexists. split; [reflexivity|]. repeat split; vm_compute; congruence.
Qed.

(** [UnsqueezeR] keeps the cached code when the new axis is the
    highest-numbered one.  With the bit layout that [ComputePatternCode]
    produces, where the bit of an axis depends on the number of axes, that
    code is stale too: the one-axis pattern with dim 3 and stride 1 has
    the code 258, and after [Unsqueeze(0)] the cached code is still 258
    where [ComputePatternCode] gives 260. *)
Lemma Unsqueeze_keeps_code_of_fewer_axes :
  let p := make_pattern [3] [1] 0 258 in
  IsValid p /\ code p = ComputePatternCode p /\
  exists p', Unsqueeze 0 p = Some p' /\ PublicDims p' = [1; 3] /\
             code p' = 258 /\ ComputePatternCode p' = 260.
Proof.
  cbv zeta. split; [by apply IsValidb_sound|]. split; [reflexivity|].
  eexists. repeat split; reflexivity.
Qed.

(** [Transpose] always invalidates the cached code. *)
Lemma Transpose_invalidates_code (axis1 axis2 : Z) (p p' : Pattern) :
  Transpose axis1 axis2 p = Some p' -> code p' = -1.
Proof.
  unfold Transpose. destruct (_ || _); [discriminate|].
  intros [= <-]. reflexivity.
Qed.

(** ** Subset test *)

(** C7 (the code departs from the claim).  For the valid one-axis pattern
    with dim 2, stride 2 and offset 0, whatever its cached code,
    [PatternIsSubsetOf(p, p)] returns false: [ComputeIntersection] returns
    true with no pattern, because [FindOffsets] hands the flag
    [keep_all_offsets] over as the remainder, and 1 is not a multiple of
    the stride. *)
Theorem PatternIsSubsetOf_not_reflexive (c : Z) :
  let p := make_pattern [2] [2] 0 c in
  IsValid p /\
  ComputeIntersection p p true = Some (true, []) /\
  NumElements p = 2 /\
  PatternIsSubsetOf p p = Some false.
Proof.
  cbv zeta. repeat split; try (by apply IsValidb_sound); reflexivity.
Qed.

(** ** Regularity *)

(** The remainder of C++ vanishes exactly on the multiples. *)
(** In its range an int32 result is exact. *)
Lemma int32_wrap_small (z : Z) :
  - 2147483648 <= z <= int32_max -> int32_wrap z = z.
Proof.
  unfold int32_wrap, int32_max. intros Hz.
  rewrite Z.mod_small by lia. lia.
Qed.

Lemma rem_zero_iff_divide (a b : Z) : Z.rem a b = 0 <-> (b | a).
Proof.
  destruct (Z.eq_dec b 0) as [->|Hb].
  - rewrite Zrem_0_r. split.
    + intros ->. apply Z.divide_0_r.
    + intros H. by apply Z.divide_0_l.
  - by apply Z.rem_divide.
Qed.

(** A segment of indexes, unfolded once. *)
Lemma seqZ_S (a : Z) (m : nat) :
  seqZ a (Z.of_nat (S m)) = a :: seqZ (a + 1) (Z.of_nat m).
Proof.
  rewrite seqZ_cons by lia. f_equal. f_equal; lia.
Qed.

(** On axes whose dim 1 comes with stride 0 the loop over [j] takes no
    remainder by zero, and it succeeds exactly when [scanned_ok] holds. *)
Lemma IsRegular_scan_spec (p : Pattern) (s prod : Z) (m : nat) :
  (s = 0 -> prod = 0) ->
  forall a,
    (forall j, a <= j < a + Z.of_nat m ->
       dim_of p j = 1 -> stride_of p j = 0) ->
    exists b,
      IsRegular_scan p s prod (seqZ a (Z.of_nat m)) = Some b /\
      (b = true <-> scanned_ok p s prod a (a + Z.of_nat m)).
Proof.
  intros Hs. unfold scanned_ok. induction m as [|m IH]; intros a Hv.
  - rewrite seqZ_nil by lia. exists true. split; [done|].
    split; [intros _ j Hj; lia|done].
  - rewrite seqZ_S. cbn [IsRegular_scan].
    destruct (stride_of p a >=? prod) eqn:Ege.
    { exists true. split; [done|]. split; [|done].
      intros _ j Hj Hlt. specialize (Hlt a ltac:(lia)). lia. }
    destruct (dim_of p a =? 1) eqn:Ed; cbn [negb].
    2:{ exists false. split; [done|]. split; [discriminate|]. intros H.
        destruct (H a ltac:(lia)) as [Hd _]; [intros j' Hj'|];
          [replace j' with a by lia|]; lia. }
    assert (stride_of p a = 0) as H0 by (apply Hv; lia).
    unfold cmod. destruct (s =? 0) eqn:Es0; [lia|].
    destruct (Z.rem (stride_of p a) s =? 0) eqn:Er; cbn [negb].
    2:{ exists false. split; [done|]. split; [discriminate|]. intros H.
        destruct (H a ltac:(lia)) as [_ Hd]; [intros j' Hj'|];
          [replace j' with a by lia|]; lia. }
    destruct (IH (a + 1)) as (b & Eb & Hb).
    { intros j Hj. apply Hv. lia. }
    exists b. split; [exact Eb|]. rewrite Hb. split.
    + intros H j Hj Hlt.
      destruct (Z.eq_dec j a) as [->|Hne]; [lia|].
      apply H; [lia|]. intros j' Hj'. apply Hlt. lia.
    + intros H j Hj Hlt. apply H; [lia|].
      intros j' Hj'. destruct (Z.eq_dec j' a) as [->|Hne]; [lia|].
      apply Hlt. lia.
Qed.

(** The loop over [i] succeeds exactly when every loop over [j] does. *)
Lemma IsRegular_loop_spec (p : Pattern) (l : list Z) :
  (forall r, 0 <= r < num_axes p -> dim_of p r = 1 -> stride_of p r = 0) ->
  (forall i, In i l ->
     0 <= i /\
     - 2147483648 <= stride_of p i * dim_of p i <= int32_max) ->
  exists b,
    IsRegular_loop p l = Some b /\
    (b = true <->
     forall i, In i l ->
       scanned_ok p (stride_of p i) (stride_of p i * dim_of p i)
                  (i + 1) (num_axes p)).
Proof.
  intros Hv. induction l as [|i l IH]; intros Hl.
  - exists true. split; [done|]. split; [intros _ i []|done].
  - cbn [IsRegular_loop].
    assert (0 <= i) as Hi by (apply Hl; by left).
    rewrite int32_wrap_small by (apply Hl; by left).
    assert (seqZ (i + 1) (num_axes p - (i + 1)) =
            seqZ (i + 1) (Z.of_nat (Z.to_nat (num_axes p - (i + 1))))) as ->
      by (unfold seqZ; by rewrite Nat2Z.id).
    destruct (IsRegular_scan_spec p (stride_of p i)
                (stride_of p i * dim_of p i)
                (Z.to_nat (num_axes p - (i + 1))) ltac:(lia) (i + 1))
      as (b & Eb & Hb).
    { intros j Hj. apply Hv. lia. }
    assert (scanned_ok p (stride_of p i) (stride_of p i * dim_of p i)
              (i + 1) (i + 1 + Z.of_nat (Z.to_nat (num_axes p - (i + 1)))) <->
            scanned_ok p (stride_of p i) (stride_of p i * dim_of p i)
              (i + 1) (num_axes p)) as Hrange.
    { unfold scanned_ok. split; intros H j Hj; apply H; lia. }
    rewrite Hrange in Hb. rewrite Eb.
    destruct (IH (fun q Hq => Hl q (or_intror Hq))) as (b' & Eb' & Hb').
    destruct b.
    + exists b'. split; [exact Eb'|]. rewrite Hb'. split.
      * intros H q [<-|Hq]; [by apply Hb|by apply H].
      * intros H q Hq. apply H. by right.
    + exists false. split; [done|]. split; [discriminate|].
      intros H. apply Hb, H. by left.
Qed.

(** An axis [j] lies before [RegularityK p i] when no stride from [i + 1]
    to [j] reaches [stride_i * dim_i]. *)
Lemma first_match_spec (f : Z -> bool) (m : nat) :
  forall a,
    let k := default (a + Z.of_nat m)
                     (head (List.filter f (seqZ a (Z.of_nat m)))) in
    a <= k <= a + Z.of_nat m /\
    forall j, a <= j < a + Z.of_nat m ->
      (j < k <-> forall j', a <= j' <= j -> f j' = false).
Proof.
  induction m as [|m IH]; intros a; cbv zeta.
  - rewrite seqZ_nil by lia. cbn. split; [lia|]. intros j Hj; lia.
  - rewrite seqZ_S. cbn [List.filter].
    destruct (f a) eqn:Efa.
    + cbn. split; [lia|]. intros j Hj. split; [lia|].
      intros H. specialize (H a ltac:(lia)). congruence.
    + specialize (IH (a + 1)). cbv zeta in IH.
      replace (a + 1 + Z.of_nat m) with (a + Z.of_nat (S m)) in IH by lia.
      destruct IH as [Hk IH]. split; [lia|].
      intros j Hj. destruct (Z.eq_dec j a) as [->|Hne].
      * split; [|lia]. intros _ j' Hj'. by replace j' with a by lia.
      * rewrite IH by lia. split.
        -- intros H j' Hj'. destruct (Z.eq_dec j' a) as [->|Hne']; [done|].
           apply H. lia.
        -- intros H j' Hj'. apply H. lia.
Qed.

Lemma RegularityK_spec (p : Pattern) (i j : Z) :
  0 <= i -> i < j ->
  (j < RegularityK p i <->
   j < num_axes p /\
   forall j', i < j' <= j ->
     stride_of p j' < stride_of p i * dim_of p i).
Proof.
  intros Hi Hij. unfold RegularityK.
  destruct (Z_lt_le_dec j (num_axes p)) as [Hjn|Hjn].
  - pose proof (first_match_spec
                  (fun j => stride_of p j >=? stride_of p i * dim_of p i)
                  (Z.to_nat (num_axes p - (i + 1))) (i + 1)) as H.
    cbv zeta in H. rewrite Z2Nat.id in H by lia.
    replace (i + 1 + (num_axes p - (i + 1))) with (num_axes p) in H by lia.
    destruct H as [_ H]. rewrite (H j) by lia. split.
    + intros Hf. split; [done|]. intros j' Hj'.
      specialize (Hf j' ltac:(lia)). lia.
    + intros [_ Hf] j' Hj'. specialize (Hf j' ltac:(lia)). lia.
  - split; [|lia]. intros Hlt. exfalso.
    destruct (Z_lt_le_dec (i + 1) (num_axes p)) as [Hin|Hin].
    + pose proof (first_match_spec
                    (fun j => stride_of p j >=? stride_of p i * dim_of p i)
                    (Z.to_nat (num_axes p - (i + 1))) (i + 1)) as H.
      cbv zeta in H. rewrite Z2Nat.id in H by lia.
      replace (i + 1 + (num_axes p - (i + 1))) with (num_axes p) in H by lia.
      lia.
    + rewrite seqZ_nil in Hlt by lia. cbn in Hlt. lia.
Qed.

(** The loops over [j] succeed for all the axes exactly when the pattern
    has the property [RegularAsCoded]. *)
Lemma scanned_ok_iff_RegularAsCoded (p : Pattern) :
  (forall i, In i (upto (num_axes p - 1)) ->
     scanned_ok p (stride_of p i) (stride_of p i * dim_of p i)
                (i + 1) (num_axes p)) <->
  RegularAsCoded p.
Proof.
  unfold RegularAsCoded, scanned_ok. split.
  - intros H i Hi j [Hij Hj].
    apply RegularityK_spec in Hj as [Hjn Hlt]; [|lia..].
    destruct (H i ltac:(apply In_upto; lia) j) as [Hd Hr].
    + lia.
    + intros j' Hj'. apply Hlt. lia.
    + split; [done|]. by apply rem_zero_iff_divide.
  - intros H i Hi j Hj Hlt. apply In_upto in Hi.
    destruct (H i ltac:(lia) j) as [Hd Hr].
    + split; [lia|]. apply RegularityK_spec; [lia..|].
      split; [lia|]. intros j' Hj'. apply Hlt. lia.
    + split; [done|]. by apply rem_zero_iff_divide.
Qed.

(** On a valid pattern without negative stride the exemption of the axes
    of dim 1 changes nothing: such an axis has stride 0, and the next
    stride already reaches [stride_i * dim_i = 0]. *)
Lemma RegularAsCoded_exempting_dim_one (p : Pattern) :
  IsValid p -> (forall r, 0 <= r < num_axes p -> 0 <= stride_of p r) ->
  (RegularAsCoded p <->
   forall i, 0 <= i < num_axes p ->
     dim_of p i = 1 \/
     forall j, i < j < RegularityK p i ->
       dim_of p j = 1 /\ (stride_of p i | stride_of p j)).
Proof.
  intros (_ & _ & _ & Hd & _) Hs. unfold RegularAsCoded. split.
  - intros H i Hi. right. by apply H.
  - intros H i Hi j [Hij Hj].
    destruct (H i Hi) as [H1|Hr]; [|by apply Hr].
    exfalso. apply RegularityK_spec in Hj as [Hjn Hlt]; [|lia..].
    destruct (Hd i Hi) as [_ H0]. rewrite (H0 H1) in Hlt.
    specialize (Hlt (i + 1) ltac:(lia)).
    specialize (Hs (i + 1) ltac:(lia)). lia.
Qed.

(** C5, amended.  For every canonical pattern whose products
    [stride_i * dim_i] fit in an int32, [IsRegular] returns, and it
    returns true exactly when, for every axis [i] and with [k] the
    smallest index greater than [i] with [stride_k >= stride_i * dim_i]
    ([k = num_axes] when there is none), every intervening axis [j] with
    [i < j < k] has dim 1 and a stride divisible by the stride of [i];
    the test is also made for the axes [i] of dim 1. *)
Theorem IsRegular_decides_RegularAsCoded (p : Pattern) :
  IsCanonical p ->
  (forall i, 0 <= i < num_axes p - 1 ->
     - 2147483648 <= stride_of p i * dim_of p i <= int32_max) ->
  exists b, IsRegular p = Some b /\ (b = true <-> RegularAsCoded p).
Proof.
  intros [(_ & _ & _ & Hd & _) _] Hfit. unfold IsRegular.
  destruct (IsRegular_loop_spec p (upto (num_axes p - 1))) as (b & Eb & Hb).
  - intros r Hr. by apply Hd.
  - intros i Hi. apply In_upto in Hi. split; [lia|by apply Hfit].
  - exists b. split; [exact Eb|].
    rewrite Hb. apply scanned_ok_iff_RegularAsCoded.
Qed.

(** The canonical pattern with dims {3, 2} and strides {2, 6} is
    regular. *)
Lemma IsRegular_decides_RegularAsCoded_witness :
  let p := make_pattern [3; 2] [2; 6] 0 (-1) in
  IsCanonical p /\ IsRegular p = Some true /\ RegularAsCoded p.
Proof.
  cbv zeta.
  assert (IsCanonical (make_pattern [3; 2] [2; 6] 0 (-1))) as Hc
    by (by apply IsCanonicalb_sound).
  split; [exact Hc|]. split; [reflexivity|].
  destruct (IsRegular_decides_RegularAsCoded _ Hc) as (b & Eb & Hb).
  - intros i Hi. change (num_axes _) with 2 in Hi.
    assert (i = 0) as -> by lia. by vm_compute.
  - apply Hb. vm_compute in Eb. congruence.
Defined.

(** C5 as stated fails on two canonical patterns.  With dims {3, 2} and
    strides {2, 4} the axis 1 lies before [k = 2] and its stride 4 is
    divisible by 2, so the property of the specification holds, but its
    dim is not 1 and [IsRegular] returns false.  With dims {1, 2} and
    strides {0, -1} the axis 0 has dim 1 and is exempted by the
    specification, but [IsRegular] scans from it, meets the stride -1
    below 0 on an axis of dim 2, and returns false. *)
Lemma IsRegular_differs_from_RegularAsSpecified :
  let p := make_pattern [3; 2] [2; 4] 0 (-1) in
  let q := make_pattern [1; 2] [0; -1] 0 (-1) in
  (IsCanonical p /\ RegularAsSpecified p /\ IsRegular p = Some false) /\
  (IsCanonical q /\ RegularAsSpecified q /\ IsRegular q = Some false).
Proof.
  cbv zeta. split.
  - split; [by apply IsCanonicalb_sound|]. split; [|reflexivity].
    intros i Hi. change (num_axes _) with 2 in Hi.
    assert (i = 0 \/ i = 1) as [-> | ->] by lia; right; intros j Hj.
    + change (RegularityK _ 0) with 2 in Hj.
      replace j with 1 by lia. right. exists 2. reflexivity.
    + change (RegularityK _ 1) with 2 in Hj. lia.
  - split; [by apply IsCanonicalb_sound|]. split; [|reflexivity].
    intros i Hi. change (num_axes _) with 2 in Hi.
    assert (i = 0 \/ i = 1) as [-> | ->] by lia.
    + left. reflexivity.
    + right. intros j Hj. change (RegularityK _ 1) with 2 in Hj. lia.
Qed.

(** ** Intersection and difference *)


(** The subtraction of hyperrectangles loses index tuples: from the
    square [0, 2) x [0, 2) minus its corner [0, 1) x [0, 1), the tuple
    (0, 1) belongs to the difference of the sets but to no rectangle of
    the result, whose second rectangle [(0, 0); (1, 2)] is empty.  The end
    of the overlap is computed as the minimum of the two starts. *)
Lemma SubtractHyperrectangles_drops_index :
  let a := [(0, 2); (0, 2)] in
  let b := [(0, 1); (0, 1)] in
  SubtractHyperrectangles a b 0 [] = [[(1, 2); (0, 2)]; [(0, 0); (1, 2)]] /\
  In [0; 1] (HyperrectangleSet a) /\ ~ In [0; 1] (HyperrectangleSet b) /\
  ~ In [0; 1] (flat_map HyperrectangleSet (SubtractHyperrectangles a b 0 [])).
Proof.
  cbv zeta. split; [reflexivity|].
  assert (HyperrectangleSet [(0, 2); (0, 2)] =
          [[0; 0]; [0; 1]; [1; 0]; [1; 1]]) as -> by reflexivity.
  assert (HyperrectangleSet [(0, 1); (0, 1)] = [[0; 0]]) as -> by reflexivity.
  assert (flat_map HyperrectangleSet
            (SubtractHyperrectangles [(0, 2); (0, 2)] [(0, 1); (0, 1)] 0 []) =
          [[1; 0]; [1; 1]]) as -> by reflexivity.
  cbn [In]. repeat split; [by right; left| |]; intuition congruence.
Qed.

(** The same loss seen from the patterns.  For the contiguous 2 x 2 block
    [p] and the scalar pattern [q] at offset 0, converted to the common
    strides {1, 2} as [sub1] and [sub2], the offset tuple (0, 0) relates
    the two as [FindOffsets] documents it, and the loop of
    [OffsetToHyperrectangle] gives it the hyperrectangle [h].  For that
    offset the intersection piece covers {0}, and the pieces that the
    subtraction of [h] leaves of [sub1] cover only {1, 3}: the index 2 of
    [p] is in neither.  On this input the two functions as written end in
    [back()] on an empty vector. *)
Lemma difference_step_drops_memory_index :
  let p := make_pattern [2; 2] [1; 2] 0 (-1) in
  let q := make_pattern [] [] 0 (-1) in
  let strides_ :=
    FindAllStrides (CanonicalizePattern p) (CanonicalizePattern q) in
  MemoryIndexSet p = [0; 2; 1; 3] /\ MemoryIndexSet q = [0] /\
  exists sub1 sub2 h,
    ConvertPatternStrides (CanonicalizePattern p) strides_ =
      Some (Some [sub1]) /\
    ConvertPatternStrides (CanonicalizePattern q) strides_ =
      Some (Some [sub2]) /\
    IndexPattern sub1 [0; 0] = IndexPattern sub2 [0; 0] /\
    MemoryIndexSet
      (OffsetToPattern (CanonicalizePattern p) (CanonicalizePattern q)
                       [0; 0]) = [0] /\
    OffsetToHyperrectangle_intervals sub1 sub2 [0; 0] = Some h /\
    MemoryIndexSets
      (map (HyperrectangleToPattern sub1)
           (SubtractHyperrectangles (GetFullHyperrectangleOfPattern sub1)
                                    h 0 [])) = [1; 3] /\
    ComputeIntersection p q true = None /\
    ComputeDifference p q = None.
Proof.
  cbv zeta. split; [reflexivity|]. split; [reflexivity|].
  eexists _, _, _.
  repeat split; vm_compute; reflexivity.
Qed.

(** C2 (the code departs from the claim).  The valid, broadcastable
    one-axis patterns with dim 3 and strides 3 and 2 have the common
    strides {2, 3}, and [ConvertPatternStrides] returns true for both:
    the scan of [EnsureAxisSortingPropertyHolds] tests the slot after the
    used axes, which holds dim 1 and stride 0, so it does not notice that
    the stride 2 does not divide 3.  [ComputeIntersection] then does not
    return true: in both modes [FindOffsets] reaches [back()] on an empty
    vector.  The same happens for the contiguous one-axis pattern with
    itself. *)
Theorem ComputeIntersection_undefined_though_both_convert :
  let p1 := make_pattern [3] [3] 0 (-1) in
  let p2 := make_pattern [3] [2] 0 (-1) in
  let strides_ :=
    FindAllStrides (CanonicalizePattern p1) (CanonicalizePattern p2) in
  let p := make_pattern [3] [1] 0 (-1) in
  (IsValid p1 /\ IsValid p2 /\ Broadcastableb p1 p2 = true /\
   (exists patterns1,
      ConvertPatternStrides (CanonicalizePattern p1) strides_ =
        Some (Some patterns1)) /\
   (exists patterns2,
      ConvertPatternStrides (CanonicalizePattern p2) strides_ =
        Some (Some patterns2)) /\
   ComputeIntersection p1 p2 true = None /\
   ComputeIntersection p1 p2 false = None) /\
  (IsValid p /\ Broadcastableb p p = true /\
   (exists patterns,
      ConvertPatternStrides (CanonicalizePattern p)
        (FindAllStrides (CanonicalizePattern p) (CanonicalizePattern p)) =
        Some (Some patterns)) /\
   ComputeIntersection p p true = None /\
   ComputeIntersection p p false = None).
Proof.
  cbv zeta. split.
  - split; [by apply IsValidb_sound|].
    split; [by apply IsValidb_sound|].
    split; [reflexivity|].
    split; [eexists; vm_compute; reflexivity|].
    split; [eexists; vm_compute; reflexivity|].
    split; vm_compute; reflexivity.
  - split; [by apply IsValidb_sound|].
    split; [reflexivity|].
    split; [eexists; vm_compute; reflexivity|].
    split; vm_compute; reflexivity.
Qed.

(** ** The sampling stage of PatternsIntersect *)



(** * Further properties of the operations *)

(** ** Tests and combinations of codes *)

(** The two tests on a code that are written with [|] do not look at the
    code: [ContainsNegativeStride] holds and [AxisIsTrivial] fails for
    every code, so a caller can neither learn from a code that all the
    strides are non-negative nor that an axis is trivial. *)
Theorem code_tests_ignore_the_code (pattern_code raxis : Z) :
  0 <= raxis ->
  ContainsNegativeStride pattern_code = true /\
  AxisIsTrivial pattern_code raxis = false.
Proof.
  intros Hr. split; [apply ContainsNegativeStride_always|].
  unfold AxisIsTrivial. apply lor_mask_nonzero.
  rewrite Z.shiftl_1_l. apply Z.pow_nonzero; lia.
Qed.

Lemma code_tests_ignore_the_code_witness :
  ContainsNegativeStride 0 = true /\ AxisIsTrivial 0 3 = false.
Proof. apply (code_tests_ignore_the_code 0 3). lia. Defined.

(** Twelve bits hold a code: the first code and the second are read back
    from the combination of two, by a shift and by a mask, whenever the
    first lies in [[0, 2^19)], so that the int32 shift loses nothing, and
    the second in [[0, 4096)]; an unset second code, -1, makes the whole
    combination -1, and a first code of [2^20] is lost. *)
Theorem CombineCodes_round_trip (code1 code2 : Z) :
  0 <= code1 < 524288 -> 0 <= code2 < 4096 ->
  Z.shiftr (CombineCodes code1 code2) 12 = code1 /\
  Z.land (CombineCodes code1 code2) 4095 = code2 /\
  CombineCodes code1 (-1) = -1 /\
  CombineCodes 1048576 code2 = code2.
Proof.
  intros Hc1 Hc. unfold CombineCodes.
  assert (Z.shiftr code2 12 = 0) as H0
    by (rewrite Z.shiftr_div_pow2, Z.div_small by lia; reflexivity).
  rewrite (int32_wrap_small (Z.shiftl code1 12))
    by (rewrite Z.shiftl_mul_pow2 by lia; unfold int32_max; lia).
  split; [|split; [|split]].
  - rewrite Z.shiftr_lor, Z.shiftr_shiftl_l, H0 by lia.
    replace (12 - 12) with 0 by lia.
    by rewrite Z.shiftl_0_r, Z.lor_0_r.
  - change 4095 with (Z.ones 12).
    rewrite !Z.land_ones by lia.
    apply Z.bits_inj'. intros n Hn.
    destruct (Z_lt_le_dec n 12) as [Hlt|Hge].
    + rewrite Z.mod_pow2_bits_low, Z.lor_spec, Z.shiftl_spec_low by lia.
      reflexivity.
    + rewrite Z.mod_pow2_bits_high by lia. symmetry.
      apply testbit_small; [|lia].
      split; [lia|]. apply Z.lt_le_trans with (2 ^ 12); [lia|].
      apply Z.pow_le_mono_r; lia.
  - apply Z.lor_m1_r.
  - by change (int32_wrap (Z.shiftl 1048576 12)) with 0.
Qed.

Lemma CombineCodes_round_trip_witness :
  CombineCodes 266 258 = 1089794 /\
  Z.shiftr (CombineCodes 266 258) 12 = 266 /\
  Z.land (CombineCodes 266 258) 4095 = 258.
Proof.
  split; [reflexivity|].
  destruct (CombineCodes_round_trip 266 258) as (H1 & H2 & _);
    [lia|lia|]. by split.
Defined.

(** ** Arrays *)

Lemma length_wr (a : list Z) (i v : Z) : length (wr a i v) = length a.
Proof. unfold wr. apply length_insert. Qed.

Lemma rd_wr_eq (a : list Z) (i v : Z) :
  0 <= i < Z.of_nat (length a) -> rd (wr a i v) i = v.
Proof.
  intros Hi. unfold rd, wr.
  rewrite list_lookup_insert_eq by lia. reflexivity.
Qed.

Lemma rd_wr_ne (a : list Z) (i j v : Z) :
  0 <= i -> 0 <= j -> i <> j -> rd (wr a i v) j = rd a j.
Proof.
  intros Hi Hj Hne. unfold rd, wr.
  rewrite list_lookup_insert_ne by lia. reflexivity.
Qed.

(** Two arrays of the same length with the same reads are equal. *)
Lemma rd_ext (a b : list Z) :
  length a = length b ->
  (forall j, 0 <= j < Z.of_nat (length a) -> rd a j = rd b j) ->
  a = b.
Proof.
  intros Hl H. apply list_eq. intros i.
  destruct (decide (i < length a)%nat) as [Hi|Hi].
  - specialize (H (Z.of_nat i) ltac:(lia)). unfold rd in H.
    rewrite Nat2Z.id in H.
    destruct (lookup_lt_is_Some_2 a i Hi) as [x Ex].
    destruct (lookup_lt_is_Some_2 b i ltac:(lia)) as [y Ey].
    rewrite Ex, Ey in *. cbn in H. congruence.
  - rewrite !lookup_ge_None_2 by lia. reflexivity.
Qed.

(** ** Patterns as stored *)

Lemma IsValid_WellFormed (p : Pattern) : IsValid p -> WellFormed p.
Proof. intros (Hd & Hs & Hn & _). done. Qed.

Lemma WellFormed_set_axis (p : Pattern) (r d s : Z) :
  WellFormed p -> WellFormed (set_axis p r d s).
Proof.
  intros (Hd & Hs & Hn). unfold WellFormed, set_axis. cbn.
  by rewrite !length_wr.
Qed.

Lemma dim_of_set_axis (p : Pattern) (r d s q : Z) :
  0 <= r < Z.of_nat (length (dims p)) -> 0 <= q ->
  dim_of (set_axis p r d s) q = if q =? r then d else dim_of p q.
Proof.
  intros Hr Hq. unfold dim_of, set_axis. cbn.
  destruct (Z.eqb_spec q r) as [->|Hne].
  - by apply rd_wr_eq.
  - apply rd_wr_ne; lia.
Qed.

Lemma stride_of_set_axis (p : Pattern) (r d s q : Z) :
  0 <= r < Z.of_nat (length (strides p)) -> 0 <= q ->
  stride_of (set_axis p r d s) q = if q =? r then s else stride_of p q.
Proof.
  intros Hr Hq. unfold stride_of, set_axis. cbn.
  destruct (Z.eqb_spec q r) as [->|Hne].
  - by apply rd_wr_eq.
  - apply rd_wr_ne; lia.
Qed.

(** The used axes of a stored pattern, read slot by slot. *)
Lemma axes_of_slots (p : Pattern) :
  WellFormed p ->
  axes_of p = map (fun r => (dim_of p r, stride_of p r)) (upto (num_axes p)).
Proof.
  intros (Hd & Hs & Hn). unfold axes_of, upto, dim_of, stride_of, rd.
  apply list_eq. intros i.
  change (map ?f ?l) with (f <$> l).
  rewrite list_lookup_fmap.
  destruct (decide (i < Z.to_nat (num_axes p))%nat) as [Hi|Hi].
  - rewrite lookup_take_lt by done.
    rewrite lookup_seqZ_lt by lia. cbn.
    rewrite lookup_zip_with.
    replace (Z.to_nat (0 + Z.of_nat i)) with i by lia.
    destruct (lookup_lt_is_Some_2 (dims p) i) as [d Ed];
      [unfold KALDI_TENSOR_MAX_AXES in *; lia|].
    destruct (lookup_lt_is_Some_2 (strides p) i) as [s Es];
      [unfold KALDI_TENSOR_MAX_AXES in *; lia|].
    rewrite Ed, Es. reflexivity.
  - rewrite lookup_take_ge by lia.
    rewrite lookup_seqZ_ge by lia. reflexivity.
Qed.

(** Two stored patterns with the same number of axes and the same dims and
    strides on them have the same used axes. *)
Lemma axes_of_ext (p q : Pattern) :
  WellFormed p -> WellFormed q -> num_axes p = num_axes q ->
  (forall r, 0 <= r < num_axes p ->
     dim_of p r = dim_of q r /\ stride_of p r = stride_of q r) ->
  axes_of p = axes_of q.
Proof.
  intros Hp Hq Hn H. rewrite !axes_of_slots by done. rewrite <- Hn.
  apply map_ext_in. intros r Hr. apply In_upto in Hr.
  destruct (H r Hr) as [-> ->]. reflexivity.
Qed.

(** ** Memory-index sets of lists of axes *)

Lemma flat_map_flat_map {A B C : Type} (f : A -> list B) (g : B -> list C)
    (l : list A) :
  flat_map g (flat_map f l) = flat_map (fun x => flat_map g (f x)) l.
Proof.
  induction l as [|x l IH]; [reflexivity|].
  cbn [flat_map]. by rewrite flat_map_app, IH.
Qed.

(** The axes of a concatenation are enumerated one list after the
    other. *)
Lemma mindexes_from_app (l1 l2 : list (Z * Z)) :
  forall base,
    mindexes_from (l1 ++ l2) base =
    flat_map (mindexes_from l2) (mindexes_from l1 base).
Proof.
  induction l1 as [|[d s] l1 IH]; intros base.
  - cbn. by rewrite app_nil_r.
  - cbn [app mindexes_from]. rewrite flat_map_flat_map.
    apply flat_map_ext. intros i. apply IH.
Qed.

(** Membership, axis by axis. *)
Lemma In_mindexes_from_cons (d s : Z) (rest : list (Z * Z)) (base m : Z) :
  In m (mindexes_from ((d, s) :: rest) base) <->
  exists i, 0 <= i < d /\ In m (mindexes_from rest (base + i * s)).
Proof.
  cbn [mindexes_from]. rewrite in_flat_map.
  split; intros (i & Hi & Hm); exists i; by rewrite In_upto in *.
Qed.

Lemma In_mindexes_from_app (l1 l2 : list (Z * Z)) (base m : Z) :
  In m (mindexes_from (l1 ++ l2) base) <->
  exists b, In b (mindexes_from l1 base) /\ In m (mindexes_from l2 b).
Proof. rewrite mindexes_from_app. apply in_flat_map. Qed.

(** Moving the base moves every memory index. *)
Lemma In_mindexes_from_shift (axes : list (Z * Z)) (k : Z) :
  forall base m,
    In m (mindexes_from axes (base + k)) <->
    In (m - k) (mindexes_from axes base).
Proof.
  induction axes as [|[d s] rest IH]; intros base m.
  - cbn. split; intros [H|[]]; left; lia.
  - rewrite !In_mindexes_from_cons.
    split; intros (i & Hi & Hm); exists i; (split; [done|]).
    + apply IH. by replace (base + i * s + k) with (base + k + i * s) by lia.
    + replace (base + k + i * s) with (base + i * s + k) by lia. by apply IH.
Qed.

(** The number of enumerated memory indexes is the product of the
    dims. *)
Lemma length_flat_map_const {A B : Type} (f : A -> list B) (l : list A)
    (n : nat) :
  (forall x, In x l -> length (f x) = n) ->
  length (flat_map f l) = (length l * n)%nat.
Proof.
  induction l as [|x l IH]; intros H; [reflexivity|].
  cbn [flat_map length]. rewrite length_app, IH, H; [lia|by left|].
  intros y Hy. apply H. by right.
Qed.

Lemma length_mindexes_from (axes : list (Z * Z)) :
  Forall (fun a => 0 <= fst a) axes ->
  forall base,
    Z.of_nat (length (mindexes_from axes base)) = dims_product axes.
Proof.
  induction 1 as [|[d s] rest Hd _ IH]; intros base; [reflexivity|].
  cbn [mindexes_from dims_product foldr fst] in *.
  rewrite (length_flat_map_const _ _
             (length (mindexes_from rest 0))).
  - unfold upto. rewrite length_seqZ.
    fold (dims_product rest). rewrite <- (IH 0). lia.
  - intros i _. apply Nat2Z.inj. by rewrite !IH.
Qed.

Lemma NumElements_fold (p : Pattern) (l : list Z) (a : Z) :
  foldl (fun ans raxis => ans * dim_of p raxis) a l =
  a * dims_product (map (fun r => (dim_of p r, stride_of p r)) l).
Proof.
  revert a. induction l as [|r l IH]; intros a.
  - cbn. lia.
  - cbn [foldl map dims_product foldr fst]. rewrite IH.
    fold (dims_product (map (fun r => (dim_of p r, stride_of p r)) l)). lia.
Qed.

Lemma NumElements_product (p : Pattern) :
  WellFormed p -> NumElements p = dims_product (axes_of p).
Proof.
  intros Hw. unfold NumElements. rewrite NumElements_fold.
  rewrite <- axes_of_slots by done. lia.
Qed.

(** A valid pattern has at least one element. *)
Lemma NumElements_positive (p : Pattern) : IsValid p -> 1 <= NumElements p.
Proof.
  intros Hv. pose proof (axes_of_dims_positive p Hv) as Hd.
  rewrite NumElements_product by (by apply IsValid_WellFormed).
  clear Hv. induction Hd as [|[d s] rest H1 _ IH]; [cbn; lia|].
  cbn [dims_product foldr fst] in *. fold (dims_product rest). nia.
Qed.

(** [NumElements] counts the index tuples: on a valid pattern it is the
    length of the enumeration of the memory indexes, and it is at least
    1. *)
Theorem NumElements_counts_index_tuples (p : Pattern) :
  IsValid p ->
  NumElements p = Z.of_nat (length (MemoryIndexSet p)) /\ 1 <= NumElements p.
Proof.
  intros Hv. split; [|by apply NumElements_positive].
  pose proof (axes_of_dims_positive p Hv) as Hd.
  rewrite NumElements_product by (by apply IsValid_WellFormed).
  unfold MemoryIndexSet. symmetry. apply length_mindexes_from.
  eapply Forall_impl; [exact Hd|]. intros a Ha. cbn in Ha. lia.
Qed.

Lemma NumElements_counts_index_tuples_witness :
  let p := make_pattern [3; 2] [2; 7] 4 (-1) in
  IsValid p /\ NumElements p = 6 /\ length (MemoryIndexSet p) = 6%nat.
Proof.
  cbv zeta.
  assert (IsValid (make_pattern [3; 2] [2; 7] 4 (-1))) as Hv
    by (by apply IsValidb_sound).
  split; [exact Hv|].
  destruct (NumElements_counts_index_tuples _ Hv) as [H _].
  split; [reflexivity|]. apply Nat2Z.inj. rewrite <- H. reflexivity.
Defined.

(** ** Random memory indexes *)

(** The loop of [RandomMemoryIndex] ends on a memory index of the axes it
    went through and has made one draw per axis. *)
Lemma RandomMemoryIndex_fold (rng : Rng) (p : Pattern) (l : list Z) :
  (forall r, In r l ->
     1 <= dim_of p r /\
     (dim_of p r - 1) * Z.abs (stride_of p r) <= int32_max) ->
  forall base count,
    let res :=
      foldl (fun '(mindex, count) raxis =>
               (mindex + int32_wrap (RandInt rng count 0 (dim_of p raxis - 1)
                                     * stride_of p raxis),
                S count))
            (base, count) l in
    In (fst res)
       (mindexes_from (map (fun r => (dim_of p r, stride_of p r)) l) base) /\
    snd res = (count + length l)%nat.
Proof.
  induction l as [|r l IH]; intros Hl base count; cbv zeta.
  - cbn. split; [by left|lia].
  - cbn [foldl map length].
    destruct (Hl r (or_introl eq_refl)) as [Hd Hfit].
    assert (0 <= RandInt rng count 0 (dim_of p r - 1) < dim_of p r) as Hi.
    { unfold RandInt.
      pose proof (Z.mod_pos_bound (rng count) (dim_of p r - 1 - 0 + 1)
                    ltac:(lia)). lia. }
    rewrite int32_wrap_small.
    2:{ unfold int32_max in *.
        assert (Z.abs (RandInt rng count 0 (dim_of p r - 1) * stride_of p r)
                <= 2147483647) by (rewrite Z.abs_mul; nia).
        lia. }
    destruct (IH (fun q Hq => Hl q (or_intror Hq))
                 (base + RandInt rng count 0 (dim_of p r - 1) * stride_of p r)
                 (S count)) as [Hin Hc].
    cbv zeta in Hin, Hc. split; [|lia].
    apply In_mindexes_from_cons.
    exists (RandInt rng count 0 (dim_of p r - 1)). by split.
Qed.

(** Whatever the random numbers, [RandomMemoryIndex] returns a memory
    index of a valid pattern, and it draws once per axis, provided that
    on every axis the int32 product of the largest index and the stride
    fits. *)
Theorem RandomMemoryIndex_in_pattern (rng : Rng) (count : nat) (p : Pattern) :
  IsValid p ->
  (forall r, 0 <= r < num_axes p ->
     (dim_of p r - 1) * Z.abs (stride_of p r) <= int32_max) ->
  In (fst (RandomMemoryIndex rng count p)) (MemoryIndexSet p) /\
  snd (RandomMemoryIndex rng count p) =
    (count + Z.to_nat (num_axes p))%nat.
Proof.
  intros Hv Hfit. unfold RandomMemoryIndex, MemoryIndexSet.
  rewrite axes_of_upto by done.
  destruct Hv as (_ & _ & Hn & Hd & _).
  pose proof (RandomMemoryIndex_fold rng p (upto (num_axes p))) as H.
  cbv zeta in H.
  destruct (H (fun r Hr =>
                 conj (proj1 (Hd r (proj1 (In_upto r _) Hr)))
                      (Hfit r (proj1 (In_upto r _) Hr)))
              (offset p) count) as [H1 H2].
  split; [exact H1|]. rewrite H2. unfold upto. by rewrite length_seqZ.
Qed.

Lemma RandomMemoryIndex_in_pattern_witness :
  let p := make_pattern [3; 2] [2; 7] 4 (-1) in
  IsValid p /\
  In (fst (RandomMemoryIndex (fun n => Z.of_nat n + 5) 0 p))
     (MemoryIndexSet p).
Proof.
  cbv zeta.
  assert (IsValid (make_pattern [3; 2] [2; 7] 4 (-1))) as Hv
    by (by apply IsValidb_sound).
  split; [exact Hv|].
  apply (RandomMemoryIndex_in_pattern (fun n => Z.of_nat n + 5) 0 _ Hv).
  intros r Hr. change (num_axes _) with 2 in Hr.
  assert (r = 0 \/ r = 1) as [->| ->] by lia; by vm_compute.
Defined.

(** ** Transposition *)

Lemma In_mindexes_from_base (axes : list (Z * Z)) (base base' m : Z) :
  base = base' ->
  In m (mindexes_from axes base) -> In m (mindexes_from axes base').
Proof. by intros ->. Qed.

(** The memory indexes do not depend on the order of the axes. *)
Lemma In_mindexes_from_Permutation (l l' : list (Z * Z)) :
  Permutation l l' ->
  forall base m, In m (mindexes_from l base) <-> In m (mindexes_from l' base).
Proof.
  induction 1 as [|[d s] l l' _ IH|[d1 s1] [d2 s2] l|l l' l'' _ IH1 _ IH2];
    intros base m.
  - reflexivity.
  - rewrite !In_mindexes_from_cons.
    split; intros (i & Hi & Hm); exists i; (split; [done|]); by apply IH.
  - rewrite !In_mindexes_from_cons. split.
    + intros (i & Hi & Hm). apply In_mindexes_from_cons in Hm as (j & Hj & Hm).
      exists j. split; [done|]. apply In_mindexes_from_cons.
      exists i. split; [done|].
      eapply In_mindexes_from_base; [|exact Hm]. lia.
    + intros (i & Hi & Hm). apply In_mindexes_from_cons in Hm as (j & Hj & Hm).
      exists j. split; [done|]. apply In_mindexes_from_cons.
      exists i. split; [done|].
      eapply In_mindexes_from_base; [|exact Hm]. lia.
  - by rewrite IH1.
Qed.

Lemma dims_product_Permutation (l l' : list (Z * Z)) :
  Permutation l l' -> dims_product l = dims_product l'.
Proof.
  unfold dims_product.
  induction 1 as [|a l l' _ IH|a b l|l l' l'' _ IH1 _ IH2]; cbn [foldr].
  - reflexivity.
  - by rewrite IH.
  - lia.
  - congruence.
Qed.

(** The slots of a pattern after the exchange of two axes. *)
Lemma swap_axes_slots (p : Pattern) (r1 r2 q : Z) :
  WellFormed p -> 0 <= r1 < num_axes p -> 0 <= r2 < num_axes p -> 0 <= q ->
  let sigma := if q =? r1 then r2 else if q =? r2 then r1 else q in
  dim_of (swap_axes r1 r2 p) q = dim_of p sigma /\
  stride_of (swap_axes r1 r2 p) q = stride_of p sigma.
Proof.
  intros (Hd & Hs & Hn) H1 H2 Hq. cbv zeta. unfold swap_axes.
  unfold KALDI_TENSOR_MAX_AXES in *.
  rewrite dim_of_set_axis, stride_of_set_axis;
    [|cbn; rewrite length_wr; lia|done|cbn; rewrite length_wr; lia|done].
  rewrite dim_of_set_axis, stride_of_set_axis by lia.
  destruct (Z.eqb_spec q r2) as [E2|Hne2];
    destruct (Z.eqb_spec q r1) as [E1|Hne1]; subst; done.
Qed.

Lemma WellFormed_swap_axes (p : Pattern) (r1 r2 : Z) :
  WellFormed p -> WellFormed (swap_axes r1 r2 p).
Proof.
  intros Hw. unfold swap_axes. by do 2 apply WellFormed_set_axis.
Qed.

(** Exchanging two of the used axes permutes the used axes. *)
Lemma swap_axes_Permutation (p : Pattern) (r1 r2 : Z) :
  WellFormed p -> 0 <= r1 < num_axes p -> 0 <= r2 < num_axes p ->
  Permutation (axes_of (swap_axes r1 r2 p)) (axes_of p).
Proof.
  intros Hw H1 H2.
  rewrite !axes_of_slots by (try apply WellFormed_swap_axes; done).
  change (num_axes (swap_axes r1 r2 p)) with (num_axes p).
  set (sigma := fun q => if q =? r1 then r2 else if q =? r2 then r1 else q).
  rewrite (map_ext_in _ (fun q => (dim_of p (sigma q), stride_of p (sigma q)))).
  2:{ intros q Hq. apply In_upto in Hq.
      destruct (swap_axes_slots p r1 r2 q Hw H1 H2 ltac:(lia)) as [-> ->].
      reflexivity. }
  rewrite <- (map_map sigma (fun q => (dim_of p q, stride_of p q))).
  apply Permutation_map.
  assert (forall q, sigma (sigma q) = q) as Hinv.
  { intros q. unfold sigma.
    destruct (Z.eqb_spec q r1) as [->|?].
    - destruct (Z.eqb_spec r2 r1) as [->|?]; [done|].
      by rewrite Z.eqb_refl.
    - destruct (Z.eqb_spec q r2) as [->|?]; [by rewrite Z.eqb_refl|].
      destruct (Z.eqb_spec q r1); [done|].
      by destruct (Z.eqb_spec q r2). }
  assert (forall q, 0 <= q < num_axes p -> 0 <= sigma q < num_axes p) as Hr.
  { intros q Hq. unfold sigma.
    destruct (q =? r1); [done|]. by destruct (q =? r2). }
  apply NoDup_Permutation.
  - apply (NoDup_fmap_2_strong sigma).
    + intros x y _ _ Hxy. by rewrite <- (Hinv x), <- (Hinv y), Hxy.
    + apply NoDup_seqZ.
  - apply NoDup_seqZ.
  - intros x. rewrite !list_elem_of_In, in_map_iff. split.
    + intros (q & <- & Hq). apply In_upto. apply Hr. by apply In_upto.
    + intros Hx. exists (sigma x). split; [apply Hinv|].
      apply In_upto, Hr. by apply In_upto.
Qed.

(** The arguments that [Transpose] accepts, and the exchange it makes. *)
Lemma Transpose_Some (axis1 axis2 : Z) (p p' : Pattern) :
  Transpose axis1 axis2 p = Some p' ->
  exists r1 r2,
    0 <= r1 < num_axes p /\ 0 <= r2 < num_axes p /\
    r1 = (if axis1 <? 0 then axis1 + 1 else num_axes p - 1 - axis1) /\
    r2 = (if axis2 <? 0 then axis2 + 1 else num_axes p - 1 - axis2) /\
    p' = set_code (swap_axes r1 r2 p) (-1).
Proof.
  unfold Transpose. cbv zeta.
  destruct (_ || _) eqn:E; [discriminate|]. intros [= <-].
  apply orb_false_iff in E as [E1 E2]. unfold uint32_ge in *.
  apply orb_false_iff in E1 as [? ?], E2 as [? ?].
  eexists _, _. repeat split; lia.
Qed.

(** [Transpose] only rearranges the axes: the memory indexes, the number
    of elements, the number of axes and the offset stay, and the cached
    code is given up. *)
Theorem Transpose_keeps_memory_indexes (axis1 axis2 : Z) (p p' : Pattern) :
  WellFormed p -> Transpose axis1 axis2 p = Some p' ->
  (forall m, In m (MemoryIndexSet p') <-> In m (MemoryIndexSet p)) /\
  NumElements p' = NumElements p /\
  num_axes p' = num_axes p /\ offset p' = offset p /\ code p' = -1.
Proof.
  intros Hw Ht.
  apply Transpose_Some in Ht as (r1 & r2 & H1 & H2 & _ & _ & ->).
  pose proof (swap_axes_Permutation p r1 r2 Hw H1 H2) as Hp.
  split; [|split; [|done]].
  - intros m. unfold MemoryIndexSet.
    change (offset (set_code _ _)) with (offset p).
    change (axes_of (set_code (swap_axes r1 r2 p) (-1)))
      with (axes_of (swap_axes r1 r2 p)).
    by apply In_mindexes_from_Permutation.
  - rewrite !NumElements_product; [|done|by apply WellFormed_swap_axes].
    change (axes_of (set_code (swap_axes r1 r2 p) (-1)))
      with (axes_of (swap_axes r1 r2 p)).
    by apply dims_product_Permutation.
Qed.

Lemma Transpose_keeps_memory_indexes_witness :
  let p := make_pattern [3; 2] [2; 7] 4 (-1) in
  WellFormed p /\
  exists p', Transpose 0 1 p = Some p' /\ NumElements p' = NumElements p.
Proof.
  cbv zeta.
  assert (WellFormed (make_pattern [3; 2] [2; 7] 4 (-1))) as Hw
    by (repeat split; done).
  split; [exact Hw|]. eexists. split; [reflexivity|].
  by destruct (Transpose_keeps_memory_indexes 0 1 _ _ Hw eq_refl)
    as (_ & H & _).
Defined.

Lemma Pattern_eta (p : Pattern) :
  p = mkPattern (num_axes p) (dims p) (strides p) (offset p) (code p).
Proof. by destruct p. Qed.

(** Exchanging the same two axes twice restores the arrays. *)
Lemma swap_axes_twice (p : Pattern) (r1 r2 : Z) :
  WellFormed p -> 0 <= r1 < num_axes p -> 0 <= r2 < num_axes p ->
  swap_axes r1 r2 (swap_axes r1 r2 p) = p.
Proof.
  intros Hw H1 H2.
  pose proof (WellFormed_swap_axes p r1 r2 Hw) as Hw1.
  pose proof (WellFormed_swap_axes _ r1 r2 Hw1) as Hw2.
  assert (forall j, 0 <= j ->
            (if (if j =? r1 then r2 else if j =? r2 then r1 else j) =? r1
             then r2
             else if (if j =? r1 then r2 else if j =? r2 then r1 else j) =? r2
                  then r1
                  else if j =? r1 then r2 else if j =? r2 then r1 else j) = j)
    as Hinv.
  { intros j _.
    destruct (Z.eqb_spec j r1) as [E1|?].
    - destruct (Z.eqb_spec r2 r1) as [E|?]; [congruence|].
      rewrite Z.eqb_refl. congruence.
    - destruct (Z.eqb_spec j r2) as [E2|?]; [by rewrite Z.eqb_refl|].
      destruct (Z.eqb_spec j r1); [done|]. by destruct (Z.eqb_spec j r2). }
  assert (forall j, 0 <= j ->
            0 <= (if j =? r1 then r2 else if j =? r2 then r1 else j)) as Hpos.
  { intros j Hj. destruct (j =? r1); [lia|]. destruct (j =? r2); lia. }
  assert (dims (swap_axes r1 r2 (swap_axes r1 r2 p)) = dims p) as Hd.
  { apply rd_ext.
    - destruct Hw2 as (-> & _), Hw as (-> & _). reflexivity.
    - intros j Hj.
      destruct (swap_axes_slots (swap_axes r1 r2 p) r1 r2 j)
        as [Ha _]; [done|done|done|lia|].
      unfold dim_of in Ha. rewrite Ha.
      destruct (swap_axes_slots p r1 r2
                  (if j =? r1 then r2 else if j =? r2 then r1 else j))
        as [Hb _]; [done|done|done|apply Hpos; lia|].
      unfold dim_of in Hb. rewrite Hb. f_equal. apply Hinv. lia. }
  assert (strides (swap_axes r1 r2 (swap_axes r1 r2 p)) = strides p) as Hs.
  { apply rd_ext.
    - destruct Hw2 as (_ & -> & _), Hw as (_ & -> & _). reflexivity.
    - intros j Hj.
      destruct (swap_axes_slots (swap_axes r1 r2 p) r1 r2 j)
        as [_ Ha]; [done|done|done|lia|].
      unfold stride_of in Ha. rewrite Ha.
      destruct (swap_axes_slots p r1 r2
                  (if j =? r1 then r2 else if j =? r2 then r1 else j))
        as [_ Hb]; [done|done|done|apply Hpos; lia|].
      unfold stride_of in Hb. rewrite Hb. f_equal. apply Hinv. lia. }
  rewrite (Pattern_eta (swap_axes r1 r2 (swap_axes r1 r2 p))), Hd, Hs.
  by destruct p.
Qed.

(** Transposing the same two axes twice gives the pattern back, the cached
    code apart. *)
Theorem Transpose_twice (axis1 axis2 : Z) (p p' : Pattern) :
  WellFormed p -> Transpose axis1 axis2 p = Some p' ->
  Transpose axis1 axis2 p' = Some (set_code p (-1)).
Proof.
  intros Hw Ht. pose proof Ht as Ht'.
  apply Transpose_Some in Ht' as (r1 & r2 & H1 & H2 & E1 & E2 & ->).
  unfold Transpose. cbv zeta.
  change (num_axes (set_code (swap_axes r1 r2 p) (-1))) with (num_axes p).
  rewrite <- E1, <- E2.
  assert (uint32_ge r1 (num_axes p) || uint32_ge r2 (num_axes p) = false)
    as ->.
  { clear -H1 H2. unfold uint32_ge. rewrite !orb_false_iff. lia. }
  change (swap_axes r1 r2 (set_code (swap_axes r1 r2 p) (-1)))
    with (set_code (swap_axes r1 r2 (swap_axes r1 r2 p)) (-1)).
  by rewrite swap_axes_twice.
Qed.

Lemma Transpose_twice_witness :
  let p := make_pattern [3; 2] [2; 7] 4 258 in
  WellFormed p /\
  exists p', Transpose 0 (-1) p = Some p' /\
             Transpose 0 (-1) p' = Some (set_code p (-1)).
Proof.
  cbv zeta.
  assert (WellFormed (make_pattern [3; 2] [2; 7] 4 258)) as Hw
    by (repeat split; done).
  split; [exact Hw|]. eexists. split; [reflexivity|].
  apply (Transpose_twice 0 (-1) _ _ Hw eq_refl).
Defined.

(** Of the negative axis indexes [Transpose] takes -1 alone, as the last
    public axis; -2 and below make it fail, where the header promises an
    offset from the number of axes. *)
Theorem Transpose_negative_axis (axis1 axis2 : Z) (p : Pattern) :
  (axis1 < -1 \/ axis2 < -1 -> Transpose axis1 axis2 p = None) /\
  Transpose (-1) axis2 p = Transpose (num_axes p - 1) axis2 p /\
  Transpose axis1 (-1) p = Transpose axis1 (num_axes p - 1) p.
Proof.
  unfold Transpose, uint32_ge. cbv zeta. split; [|split].
  - intros [H|H].
    + replace (axis1 <? 0) with true by lia.
      replace (axis1 + 1 <? 0) with true by lia. reflexivity.
    + replace (axis2 <? 0) with true by lia.
      replace (axis2 + 1 <? 0) with true by lia.
      by rewrite orb_true_r.
  - change (-1 <? 0) with true. cbn [Z.add].
    destruct (Z.ltb_spec (num_axes p - 1) 0) as [Hn|Hn].
    + replace (num_axes p - 1 + 1) with (num_axes p) by lia.
      replace (num_axes p <=? -1 + 1) with true by lia.
      replace (num_axes p <=? num_axes p) with true by lia.
      by rewrite !orb_true_r.
    + replace (num_axes p - 1 - (num_axes p - 1)) with (-1 + 1) by lia.
      reflexivity.
  - change (-1 <? 0) with true.
    destruct (Z.ltb_spec (num_axes p - 1) 0) as [Hn|Hn].
    + replace (num_axes p - 1 + 1) with (num_axes p) by lia.
      replace (num_axes p <=? -1 + 1) with true by lia.
      replace (num_axes p <=? num_axes p) with true by lia.
      by rewrite !orb_true_r.
    + replace (num_axes p - 1 - (num_axes p - 1)) with (-1 + 1) by lia.
      reflexivity.
Qed.

(** ** Sorting the axes *)

Lemma insert_axis_Permutation (x : Z * Z) (l : list (Z * Z)) :
  Permutation (insert_axis x l) (x :: l).
Proof.
  induction l as [|y l IH]; cbn [insert_axis]; [done|].
  destruct (axis_lt x y); [done|].
  rewrite IH. apply perm_swap.
Qed.

Lemma sort_axes_Permutation (l : list (Z * Z)) :
  Permutation (sort_axes l) l.
Proof.
  unfold sort_axes. induction l as [|x l IH]; cbn [foldr]; [done|].
  by rewrite insert_axis_Permutation, IH.
Qed.




(** The arrays of a pattern that receives as many axes as it has. *)
Lemma axes_of_with_axes (p : Pattern) (l : list (Z * Z)) :
  WellFormed p -> length l = Z.to_nat (num_axes p) ->
  WellFormed (with_axes p l) /\ axes_of (with_axes p l) = l.
Proof.
  intros (Hd & Hs & Hn) Hl. unfold KALDI_TENSOR_MAX_AXES in *.
  unfold WellFormed, with_axes, axes_of, KALDI_TENSOR_MAX_AXES. cbn.
  rewrite !length_app, !length_map, !length_drop.
  split; [lia|].
  change (map fst l) with (l.*1). change (map snd l) with (l.*2).
  rewrite zip_with_app by (by rewrite !length_fmap).
  rewrite zip_fst_snd, <- Hl. apply take_app_length.
Qed.

Lemma length_axes_of (p : Pattern) :
  WellFormed p -> length (axes_of p) = Z.to_nat (num_axes p).
Proof.
  intros Hw. rewrite axes_of_slots by done.
  unfold upto. by rewrite length_map, length_seqZ.
Qed.

(** The used axes after [SortAxes] are the used axes before it, in some
    order. *)
Lemma SortAxes_Permutation (p : Pattern) :
  WellFormed p ->
  WellFormed (SortAxes p) /\ Permutation (axes_of (SortAxes p)) (axes_of p).
Proof.
  intros Hw. unfold SortAxes. cbv zeta.
  destruct (Z.leb_spec (num_axes p) 1) as [H1|H1]; [done|].
  destruct (Z.eqb_spec (num_axes p) 2) as [H2|H2].
  - destruct (_ || _).
    + split; [by apply WellFormed_swap_axes|].
      change (axes_of (set_code (swap_axes 0 1 p) (-1)))
        with (axes_of (swap_axes 0 1 p)).
      apply swap_axes_Permutation; [done|lia..].
    + done.
  - destruct (axes_of_with_axes p (sort_axes (axes_of p)) Hw) as [Hw' E].
    { rewrite (Permutation_length (sort_axes_Permutation _)).
      by apply length_axes_of. }
    split; [done|].
    change (axes_of (set_code ?q (-1))) with (axes_of q).
    rewrite E. apply sort_axes_Permutation.
Qed.

(** [SortAxes] only rearranges the axes: the memory indexes, the number
    of elements, the number of axes and the offset stay. *)
Theorem SortAxes_keeps_memory_indexes (p : Pattern) :
  WellFormed p ->
  (forall m, In m (MemoryIndexSet (SortAxes p)) <-> In m (MemoryIndexSet p)) /\
  NumElements (SortAxes p) = NumElements p /\
  num_axes (SortAxes p) = num_axes p /\ offset (SortAxes p) = offset p.
Proof.
  intros Hw. destruct (SortAxes_Permutation p Hw) as [Hw' Hp].
  assert (num_axes (SortAxes p) = num_axes p /\
          offset (SortAxes p) = offset p) as [Hn Ho].
  { unfold SortAxes. cbv zeta.
    destruct (num_axes p <=? 1); [done|].
    destruct (num_axes p =? 2); [|done]. by destruct (_ || _). }
  split; [|split; [|done]].
  - intros m. unfold MemoryIndexSet. rewrite Ho.
    by apply In_mindexes_from_Permutation.
  - rewrite !NumElements_product by done.
    by apply dims_product_Permutation.
Qed.

Lemma SortAxes_keeps_memory_indexes_witness :
  let p := make_pattern [3; 2; 5] [14; 7; -1] 4 (-1) in
  WellFormed p /\ NumElements (SortAxes p) = NumElements p.
Proof.
  cbv zeta.
  assert (WellFormed (make_pattern [3; 2; 5] [14; 7; -1] 4 (-1))) as Hw
    by (repeat split; done).
  split; [exact Hw|].
  by destruct (SortAxes_keeps_memory_indexes _ Hw) as (_ & H & _).
Defined.



(** ** Loops that write the slots of a pattern *)

Lemma foldl_invariant {A B : Type} (P : A -> Prop) (f : A -> B -> A)
    (l : list B) (a : A) :
  P a -> (forall a x, In x l -> P a -> P (f a x)) -> P (foldl f a l).
Proof.
  revert a. induction l as [|x l IH]; intros a Ha Hf; [done|].
  cbn [foldl]. apply IH.
  - apply Hf; [by left|done].
  - intros a' y Hy. apply Hf. by right.
Qed.

Lemma same_frame_refl (p : Pattern) : WellFormed p -> same_frame p p.
Proof. done. Qed.

Lemma same_frame_set_axis (p q : Pattern) (r d s : Z) :
  same_frame p q -> same_frame p (set_axis q r d s).
Proof.
  intros (Hw & Hn & Ho & Hc). split; [by apply WellFormed_set_axis|done].
Qed.

(** A loop that writes to the slot [g r] values that depend on [r] only,
    no slot twice. *)
Lemma fold_set_axis_slots (g D S : Z -> Z) (l : list Z) :
  NoDup (map g l) ->
  (forall r, In r l -> 0 <= g r < KALDI_TENSOR_MAX_AXES) ->
  forall p, WellFormed p ->
    let q := foldl (fun p r => set_axis p (g r) (D r) (S r)) p l in
    same_frame p q /\
    (forall r, In r l ->
       dim_of q (g r) = D r /\ stride_of q (g r) = S r) /\
    (forall x, 0 <= x -> (forall r, In r l -> g r <> x) ->
       dim_of q x = dim_of p x /\ stride_of q x = stride_of p x).
Proof.
  induction l as [|r0 l IH]; intros Hnd Hg p Hw; cbv zeta.
  - cbn. split; [done|]. split; [intros r []|done].
  - cbn [foldl map] in *. apply NoDup_cons in Hnd as [Hnot Hnd].
    pose proof (Hg r0 (or_introl eq_refl)) as Hr0.
    assert (WellFormed (set_axis p (g r0) (D r0) (S r0))) as Hw1
      by (by apply WellFormed_set_axis).
    destruct (IH Hnd (fun r Hr => Hg r (or_intror Hr)) _ Hw1)
      as (Hf & Hin & Hout).
    destruct Hw as (Hd & Hs & Hn). unfold KALDI_TENSOR_MAX_AXES in *.
    split; [|split].
    + destruct Hf as (? & ? & ? & ?). done.
    + intros r [<-|Hr]; [|by apply Hin].
      destruct (Hout (g r0) ltac:(lia)) as [-> ->].
      * intros r Hr E. apply Hnot. rewrite <- E.
        apply list_elem_of_In, in_map. done.
      * rewrite dim_of_set_axis, stride_of_set_axis by lia.
        by rewrite Z.eqb_refl.
    + intros x Hx Hne. destruct (Hout x Hx) as [-> ->].
      * intros r Hr. apply Hne. by right.
      * rewrite dim_of_set_axis, stride_of_set_axis by lia.
        specialize (Hne r0 (or_introl eq_refl)).
        by replace (x =? g r0) with false by lia.
Qed.

(** The loop that gives a range of slots dim 1 and stride 0. *)
Lemma fold_trivial_slots (a k : Z) (p : Pattern) :
  WellFormed p -> 0 <= a -> a + k <= KALDI_TENSOR_MAX_AXES ->
  let q := foldl (fun p r => set_axis p r 1 0) p (seqZ a k) in
  same_frame p q /\
  (forall x, 0 <= x ->
     dim_of q x = (if (a <=? x) && (x <? a + k) then 1 else dim_of p x) /\
     stride_of q x =
       (if (a <=? x) && (x <? a + k) then 0 else stride_of p x)).
Proof.
  intros Hw Ha Hk. cbv zeta.
  destruct (fold_set_axis_slots (fun r => r) (fun _ => 1) (fun _ => 0)
              (seqZ a k)) with (p := p) as (Hf & Hin & Hout); [| |done|].
  - rewrite map_id. apply NoDup_seqZ.
  - intros r Hr. apply list_elem_of_In, elem_of_seqZ in Hr. lia.
  - split; [done|]. intros x Hx.
    destruct ((a <=? x) && (x <? a + k)) eqn:E.
    + apply Hin. apply list_elem_of_In, elem_of_seqZ. lia.
    + apply Hout; [done|]. intros r Hr ->.
      apply list_elem_of_In, elem_of_seqZ in Hr. lia.
Qed.

(** The used axes of a stored pattern, cut at the axis [r]. *)
Lemma axes_of_split (p : Pattern) (r : Z) :
  WellFormed p -> 0 <= r < num_axes p ->
  axes_of p =
  map (fun q => (dim_of p q, stride_of p q)) (upto r) ++
  (dim_of p r, stride_of p r) ::
  map (fun q => (dim_of p q, stride_of p q))
      (seqZ (r + 1) (num_axes p - (r + 1))).
Proof.
  intros Hw Hr. rewrite axes_of_slots by done. unfold upto.
  replace (num_axes p) with (r + (1 + (num_axes p - (r + 1)))) at 1 by lia.
  rewrite seqZ_app, map_app by lia. f_equal.
  rewrite seqZ_app by lia.
  replace (seqZ (0 + r) 1) with [r]
    by (rewrite seqZ_cons, seqZ_nil by lia; f_equal; lia).
  cbn [map app]. repeat f_equal; lia.
Qed.

(** ** Unsqueezing *)

Lemma downto_cons (hi lo : Z) :
  lo < hi -> downto hi lo = hi :: downto (hi - 1) lo.
Proof.
  intros H. unfold downto.
  replace (hi - lo) with ((hi - 1 - lo) + 1) by lia.
  rewrite seqZ_app by lia.
  replace (seqZ (lo + 1 + (hi - 1 - lo)) 1) with [hi]
    by (rewrite seqZ_cons, seqZ_nil by lia; f_equal; lia).
  by rewrite reverse_app.
Qed.

Lemma downto_nil (hi lo : Z) : hi <= lo -> downto hi lo = [].
Proof. intros H. unfold downto. by rewrite seqZ_nil by lia. Qed.

(** The loop of [UnsqueezeR] that moves the slots above [lo] up by one,
    from the highest down. *)
Lemma shift_up_slots (k : nat) :
  forall hi lo p,
    hi = lo + Z.of_nat k -> 0 <= lo -> hi < KALDI_TENSOR_MAX_AXES ->
    WellFormed p ->
    let q := foldl (fun p r => set_axis p r (dim_of p (r - 1))
                                        (stride_of p (r - 1)))
                   p (downto hi lo) in
    same_frame p q /\
    (forall x, 0 <= x ->
       dim_of q x =
         (if (lo <? x) && (x <=? hi) then dim_of p (x - 1) else dim_of p x) /\
       stride_of q x =
         (if (lo <? x) && (x <=? hi) then stride_of p (x - 1)
          else stride_of p x)).
Proof.
  induction k as [|k IH]; intros hi lo p Hhi Hlo Hmax Hw; cbv zeta.
  - rewrite downto_nil by lia. cbn. split; [done|]. intros x Hx.
    by replace ((lo <? x) && (x <=? hi)) with false by lia.
  - rewrite downto_cons by lia. cbn [foldl].
    set (p1 := set_axis p hi (dim_of p (hi - 1)) (stride_of p (hi - 1))).
    assert (WellFormed p1) as Hw1 by (by apply WellFormed_set_axis).
    destruct (IH (hi - 1) lo p1 ltac:(lia) Hlo ltac:(lia) Hw1) as [Hf Hq].
    destruct Hw as (Hd & Hs & Hn). unfold KALDI_TENSOR_MAX_AXES in *.
    split.
    { destruct Hf as (? & ? & ? & ?). done. }
    intros x Hx. destruct (Hq x Hx) as [-> ->]. unfold p1.
    destruct ((lo <? x) && (x <=? hi - 1)) eqn:E.
    + rewrite dim_of_set_axis, stride_of_set_axis by lia.
      replace (x - 1 =? hi) with false by lia.
      by replace ((lo <? x) && (x <=? hi)) with true by lia.
    + rewrite dim_of_set_axis, stride_of_set_axis by lia.
      destruct (Z.eqb_spec x hi) as [->|Hne].
      * by replace ((lo <? hi) && (hi <=? hi)) with true by lia.
      * by replace ((lo <? x) && (x <=? hi)) with false by lia.
Qed.

(** An axis of dim 1 adds no memory index. *)
Lemma mindexes_from_trivial_axis (l1 l2 : list (Z * Z)) (s base : Z) :
  mindexes_from (l1 ++ (1, s) :: l2) base = mindexes_from (l1 ++ l2) base.
Proof.
  rewrite !mindexes_from_app. apply flat_map_ext. intros b.
  cbn [mindexes_from]. change (upto 1) with [0]. cbn [flat_map].
  rewrite app_nil_r. f_equal. lia.
Qed.

(** The arguments that [UnsqueezeR] accepts and the slots it leaves. *)
Lemma UnsqueezeR_slots (raxis : Z) (p p' : Pattern) :
  WellFormed p -> UnsqueezeR raxis p = Some p' ->
  0 <= raxis <= num_axes p /\ num_axes p + 1 < KALDI_TENSOR_MAX_AXES /\
  WellFormed p' /\ num_axes p' = num_axes p + 1 /\ offset p' = offset p /\
  code p' = (if raxis =? num_axes p then code p else -1) /\
  (forall x, 0 <= x ->
     dim_of p' x =
       (if x =? raxis then 1
        else if (raxis <? x) && (x <=? num_axes p + 1) then dim_of p (x - 1)
             else dim_of p x) /\
     stride_of p' x =
       (if x =? raxis then 0
        else if (raxis <? x) && (x <=? num_axes p + 1)
             then stride_of p (x - 1)
             else stride_of p x)).
Proof.
  intros Hw. pose proof Hw as (Hd & Hs & Hn).
  unfold UnsqueezeR, inb. cbv zeta. unfold KALDI_TENSOR_MAX_AXES in *.
  destruct (Z.leb_spec 0 raxis); [|discriminate].
  destruct (Z.leb_spec raxis (num_axes p)); [|discriminate].
  destruct (Z.ltb_spec (num_axes p) 5); [|discriminate]. cbn [andb negb].
  destruct (Z.leb_spec 0 (num_axes p + 1)); [|discriminate].
  destruct (Z.ltb_spec (num_axes p + 1) (Z.of_nat (length (dims p))));
    [|discriminate]. cbn [andb negb].
  intros [= <-].
  assert (WellFormed (set_num_axes p (num_axes p + 1))) as Hw0
    by (unfold WellFormed, KALDI_TENSOR_MAX_AXES; cbn; lia).
  destruct (shift_up_slots (Z.to_nat (num_axes p + 1 - raxis))
              (num_axes p + 1) raxis (set_num_axes p (num_axes p + 1))
              ltac:(lia) ltac:(lia) ltac:(unfold KALDI_TENSOR_MAX_AXES; lia)
              Hw0) as [(Hw1 & Hn1 & Ho1 & Hc1) Hq].
  set (q := foldl _ _ _) in *.
  assert (WellFormed (set_axis q raxis 1 0)) as Hw2
    by (by apply WellFormed_set_axis).
  split; [lia|]. split; [lia|].
  split; [by destruct (negb (raxis =? num_axes p))|].
  split; [by destruct (negb (raxis =? num_axes p))|].
  split; [by destruct (negb (raxis =? num_axes p))|].
  split; [by destruct (raxis =? num_axes p)|].
  intros x Hx.
  assert (dim_of (set_axis q raxis 1 0) x =
            (if x =? raxis then 1
             else if (raxis <? x) && (x <=? num_axes p + 1)
                  then dim_of p (x - 1) else dim_of p x) /\
          stride_of (set_axis q raxis 1 0) x =
            (if x =? raxis then 0
             else if (raxis <? x) && (x <=? num_axes p + 1)
                  then stride_of p (x - 1) else stride_of p x)) as Hslots.
  { destruct Hw1 as (Hd1 & Hs1 & _). unfold KALDI_TENSOR_MAX_AXES in *.
    rewrite dim_of_set_axis, stride_of_set_axis by lia.
    destruct (x =? raxis); [done|]. by destruct (Hq x Hx) as [-> ->]. }
  by destruct (negb (raxis =? num_axes p)).
Qed.

(** [UnsqueezeR] inserts an axis of dim 1 and stride 0 at the private
    position [raxis] and moves the higher axes up by one; the enumeration
    of the memory indexes and the offset stay, the number of elements
    too. *)
Theorem UnsqueezeR_keeps_memory_indexes (raxis : Z) (p p' : Pattern) :
  WellFormed p -> UnsqueezeR raxis p = Some p' ->
  MemoryIndexSet p' = MemoryIndexSet p /\
  num_axes p' = num_axes p + 1 /\
  dim_of p' raxis = 1 /\ stride_of p' raxis = 0 /\
  (forall r, 0 <= r < raxis -> dim_of p' r = dim_of p r) /\
  (forall r, raxis <= r < num_axes p -> dim_of p' (r + 1) = dim_of p r).
Proof.
  intros Hw Hu.
  destruct (UnsqueezeR_slots raxis p p' Hw Hu)
    as (Hr & Hmax & Hw' & Hn' & Ho' & _ & Hq).
  assert (forall r, 0 <= r < raxis ->
            dim_of p' r = dim_of p r /\ stride_of p' r = stride_of p r) as Hlow.
  { intros r Hr'. destruct (Hq r ltac:(lia)) as [-> ->].
    replace (r =? raxis) with false by lia.
    by replace ((raxis <? r) && (r <=? num_axes p + 1)) with false by lia. }
  assert (forall r, raxis <= r < num_axes p ->
            dim_of p' (r + 1) = dim_of p r /\
            stride_of p' (r + 1) = stride_of p r) as Hhigh.
  { intros r Hr'. destruct (Hq (r + 1) ltac:(lia)) as [-> ->].
    replace (r + 1 =? raxis) with false by lia.
    replace ((raxis <? r + 1) && (r + 1 <=? num_axes p + 1)) with true by lia.
    by replace (r + 1 - 1) with r by lia. }
  assert (dim_of p' raxis = 1 /\ stride_of p' raxis = 0) as [Hd1 Hs1].
  { destruct (Hq raxis ltac:(lia)) as [-> ->]. by rewrite Z.eqb_refl. }
  split; [|split; [done|split; [done|split; [done|split]]]].
  - unfold MemoryIndexSet. rewrite Ho'.
    rewrite (axes_of_split p' raxis) by (done || lia).
    rewrite Hd1, Hs1, mindexes_from_trivial_axis. f_equal.
    rewrite (axes_of_slots p) by done. unfold upto.
    replace (num_axes p) with (raxis + (num_axes p - raxis)) at 1 by lia.
    rewrite seqZ_app, map_app by lia. f_equal.
    + apply map_ext_in. intros r Hr'. apply In_upto in Hr'.
      by destruct (Hlow r Hr') as [-> ->].
    + rewrite Hn'.
      replace (num_axes p + 1 - (raxis + 1)) with (num_axes p - raxis) by lia.
      replace (raxis + 1) with (1 + raxis) by lia.
      rewrite <- (fmap_add_seqZ 1 raxis).
      change (Z.add 1 <$> ?l) with (map (Z.add 1) l). rewrite map_map.
      replace (0 + raxis) with raxis by lia.
      apply map_ext_in. intros r Hr'.
      apply list_elem_of_In, elem_of_seqZ in Hr'.
      replace (1 + r) with (r + 1) by lia.
      by destruct (Hhigh r ltac:(lia)) as [-> ->].
  - intros r Hr'. by destruct (Hlow r Hr').
  - intros r Hr'. by destruct (Hhigh r Hr').
Qed.

Lemma UnsqueezeR_keeps_memory_indexes_witness :
  let p := make_pattern [3; 2] [2; 7] 4 (-1) in
  WellFormed p /\
  exists p', UnsqueezeR 1 p = Some p' /\
             MemoryIndexSet p' = MemoryIndexSet p.
Proof.
  cbv zeta.
  assert (WellFormed (make_pattern [3; 2] [2; 7] 4 (-1))) as Hw
    by (repeat split; done).
  split; [exact Hw|]. eexists. split; [reflexivity|].
  by destruct (UnsqueezeR_keeps_memory_indexes 1 _ _ Hw eq_refl) as (H & _).
Defined.

(** [UnsqueezeR] succeeds exactly when the position lies in
    [0, num_axes] and the pattern has at most three axes: on a pattern of
    four axes, which the assertion lets through, the copying loop starts
    at the slot [num_axes + 1], beyond the arrays. *)
Theorem UnsqueezeR_succeeds_iff (raxis : Z) (p : Pattern) :
  WellFormed p ->
  ((exists p', UnsqueezeR raxis p = Some p') <->
   0 <= raxis <= num_axes p /\ num_axes p + 1 < KALDI_TENSOR_MAX_AXES).
Proof.
  intros Hw. split.
  - intros [p' Hu].
    by destruct (UnsqueezeR_slots raxis p p' Hw Hu) as (? & ? & _).
  - intros [Hr Hmax]. destruct Hw as (Hd & Hs & Hn).
    unfold UnsqueezeR, inb. cbv zeta. unfold KALDI_TENSOR_MAX_AXES in *.
    replace ((0 <=? raxis) && (raxis <=? num_axes p) && (num_axes p <? 5))
      with true by lia.
    replace ((0 <=? num_axes p + 1) &&
             (num_axes p + 1 <? Z.of_nat (length (dims p))))
      with true by lia.
    cbn [negb]. eauto.
Qed.

Lemma UnsqueezeR_succeeds_iff_witness :
  let p := make_pattern [3; 2; 5; 7] [1; 3; 6; 30] 0 (-1) in
  WellFormed p /\ num_axes p < KALDI_TENSOR_MAX_AXES /\
  ~ exists p', UnsqueezeR 0 p = Some p'.
Proof.
  cbv zeta.
  assert (WellFormed (make_pattern [3; 2; 5; 7] [1; 3; 6; 30] 0 (-1))) as Hw
    by (repeat split; done).
  split; [exact Hw|]. split; [done|]. intros H.
  apply (UnsqueezeR_succeeds_iff 0 _ Hw) in H. cbn in H.
  unfold KALDI_TENSOR_MAX_AXES in H. lia.
Defined.

(** ** Slicing and selecting *)

(** A shorter range of indexes on one axis, started further up, gives
    memory indexes of the whole range. *)
Lemma In_mindexes_from_subrange (l1 l2 : list (Z * Z))
    (d d' s start base m : Z) :
  0 <= start -> start + d' <= d ->
  In m (mindexes_from (l1 ++ (d', s) :: l2) (base + start * s)) ->
  In m (mindexes_from (l1 ++ (d, s) :: l2) base).
Proof.
  intros Hs Hd. rewrite !In_mindexes_from_app.
  intros (b & Hb & Hm). apply In_mindexes_from_shift in Hb.
  apply In_mindexes_from_cons in Hm as (i & Hi & Hm).
  exists (b - start * s). split; [done|].
  apply In_mindexes_from_cons. exists (i + start). split; [lia|].
  eapply In_mindexes_from_base; [|exact Hm]. lia.
Qed.

(** Fixing the index of one axis and dropping the axis gives memory
    indexes of the whole. *)
Lemma In_mindexes_from_fixed (l1 l2 : list (Z * Z)) (d s i base m : Z) :
  0 <= i < d ->
  In m (mindexes_from (l1 ++ l2) (base + i * s)) ->
  In m (mindexes_from (l1 ++ (d, s) :: l2) base).
Proof.
  intros Hi. rewrite !In_mindexes_from_app.
  intros (b & Hb & Hm). apply In_mindexes_from_shift in Hb.
  exists (b - i * s). split; [done|].
  apply In_mindexes_from_cons. exists i. split; [done|].
  eapply In_mindexes_from_base; [|exact Hm]. lia.
Qed.

(** The arguments that [Slice] accepts and the pattern it leaves, the code
    apart. *)
Lemma Slice_Some (axis start end_ : Z) (p p' : Pattern) :
  Slice axis start end_ p = Some p' ->
  let raxis := EaxisToRaxis (num_axes p) axis in
  0 <= raxis < num_axes p /\ start < end_ /\ 0 <= end_ < dim_of p axis /\
  0 <= axis /\
  num_axes p' = num_axes p /\
  dims p' = wr (dims p) raxis (end_ - start) /\
  strides p' = strides p /\
  offset p' = offset p + int32_wrap (stride_of p raxis * start).
Proof.
  unfold Slice. cbv zeta.
  set (raxis := EaxisToRaxis (num_axes p) axis).
  destruct (uint32_ge raxis (num_axes p)) eqn:E1; [discriminate|].
  destruct (end_ <=? start) eqn:E2; [discriminate|].
  destruct (inb (dims p) axis) eqn:E4; [|discriminate].
  destruct (uint32_ge end_ (dim_of p axis)) eqn:E3; [discriminate|].
  cbn [orb negb]. unfold uint32_ge in E1, E3. unfold inb in E4.
  apply orb_false_iff in E1 as [? ?], E3 as [? ?].
  apply andb_true_iff in E4 as [? _].
  intros Hres.
  assert (num_axes p' = num_axes p /\
          dims p' = wr (dims p) raxis (end_ - start) /\
          strides p' = strides p /\
          offset p' =
            offset p + int32_wrap (stride_of p raxis * start)) as Hp.
  { destruct (end_ - start =? 1); [|by injection Hres as <-].
    destruct (code _ >=? 0); [|by injection Hres as <-].
    destruct (raxis - 1 <? 0); [discriminate|]. by injection Hres as <-. }
  repeat split; try lia; apply Hp.
Qed.

(** Slicing within the dim of the sliced axis only removes memory indexes.
    [Slice] checks [end] against [dims[axis]], the slot with the public
    index, and does not check [start]; both bounds are required here of
    the private axis that is sliced, and the int32 product of the stride
    and [start] is required to fit.  A negative [axis] never succeeds: the
    private axis is [num_axes - 1 - axis]. *)
Theorem Slice_keeps_within_pattern (axis start end_ : Z) (p p' : Pattern) :
  WellFormed p -> Slice axis start end_ p = Some p' ->
  0 <= start -> end_ <= dim_of p (num_axes p - 1 - axis) ->
  - 2147483648 <= stride_of p (num_axes p - 1 - axis) * start <= int32_max ->
  0 <= axis < num_axes p /\
  (forall m, In m (MemoryIndexSet p') -> In m (MemoryIndexSet p)) /\
  num_axes p' = num_axes p /\
  dim_of p' (num_axes p - 1 - axis) = end_ - start /\
  offset p' = offset p + stride_of p (num_axes p - 1 - axis) * start.
Proof.
  intros Hw Hs Hstart Hend Hfit.
  apply Slice_Some in Hs. cbv zeta in Hs.
  destruct Hs as (Hr & Hse & _ & Hax & Hn & Hd & Hst & Ho).
  assert (EaxisToRaxis (num_axes p) axis = num_axes p - 1 - axis) as Eax
    by (unfold EaxisToRaxis; by replace (axis <? 0) with false by lia).
  rewrite Eax in Hr, Hd, Ho. rewrite int32_wrap_small in Ho by done.
  set (raxis := num_axes p - 1 - axis) in *.
  split; [lia|].
  pose proof Hw as (Hld & Hls & Hnn). unfold KALDI_TENSOR_MAX_AXES in *.
  assert (WellFormed p') as Hw'.
  { unfold WellFormed, KALDI_TENSOR_MAX_AXES.
    rewrite Hd, Hst, Hn, length_wr. done. }
  assert (forall x, 0 <= x ->
            dim_of p' x = (if x =? raxis then end_ - start else dim_of p x) /\
            stride_of p' x = stride_of p x) as Hx.
  { intros x Hx. unfold dim_of, stride_of. rewrite Hd, Hst. split; [|done].
    destruct (Z.eqb_spec x raxis) as [->|Hne].
    - apply rd_wr_eq. lia.
    - apply rd_wr_ne; lia. }
  split; [|split; [done|split; [|done]]].
  - intros m. unfold MemoryIndexSet.
    rewrite (axes_of_split p raxis), (axes_of_split p' raxis)
      by (done || lia).
    rewrite Hn, Ho.
    destruct (Hx raxis ltac:(lia)) as [-> ->]. rewrite Z.eqb_refl.
    rewrite (map_ext_in (fun q => (dim_of p' q, stride_of p' q))
                        (fun q => (dim_of p q, stride_of p q)) (upto raxis)).
    2:{ intros q Hq. apply In_upto in Hq.
        destruct (Hx q ltac:(lia)) as [-> ->].
        by replace (q =? raxis) with false by lia. }
    rewrite (map_ext_in (fun q => (dim_of p' q, stride_of p' q))
                        (fun q => (dim_of p q, stride_of p q))
                        (seqZ (raxis + 1) _)).
    2:{ intros q Hq. apply list_elem_of_In, elem_of_seqZ in Hq.
        destruct (Hx q ltac:(lia)) as [-> ->].
        by replace (q =? raxis) with false by lia. }
    replace (stride_of p raxis * start) with (start * stride_of p raxis)
      by lia.
    apply In_mindexes_from_subrange; lia.
  - destruct (Hx raxis ltac:(lia)) as [-> _]. by rewrite Z.eqb_refl.
Qed.

Lemma Slice_keeps_within_pattern_witness :
  let p := make_pattern [4; 3] [1; 4] 0 (-1) in
  WellFormed p /\
  exists p', Slice 1 0 2 p = Some p' /\
             forall m, In m (MemoryIndexSet p') -> In m (MemoryIndexSet p).
Proof.
  cbv zeta.
  assert (WellFormed (make_pattern [4; 3] [1; 4] 0 (-1))) as Hw
    by (repeat split; done).
  split; [exact Hw|]. eexists. split; [reflexivity|].
  by destruct (Slice_keeps_within_pattern 1 0 2 _ _ Hw eq_refl)
    as (_ & H & _).
Defined.

Lemma WellFormed_fresh (n : Z) :
  0 <= n <= KALDI_TENSOR_MAX_AXES ->
  WellFormed (set_num_axes fresh_pattern n).
Proof. intros [? ?]. repeat split; (done || cbn; lia). Qed.

Lemma dims_product_app (l1 l2 : list (Z * Z)) :
  dims_product (l1 ++ l2) = dims_product l1 * dims_product l2.
Proof.
  unfold dims_product. induction l1 as [|a l1 IH]; cbn [app foldr]; [lia|].
  rewrite IH. lia.
Qed.

(** The arguments that [Select] accepts and the slots of its result. *)
Lemma Select_slots (eaxis index : Z) (src dest : Pattern) :
  WellFormed src -> Select eaxis index src = Some dest ->
  let raxis := EaxisToRaxis (num_axes src) eaxis in
  0 <= raxis < num_axes src /\ 0 <= index < dim_of src eaxis /\
  0 <= eaxis /\
  WellFormed dest /\ num_axes dest = num_axes src - 1 /\
  offset dest = offset src + int32_wrap (index * stride_of src raxis) /\
  code dest = -1 /\
  (forall x, 0 <= x < num_axes src - 1 ->
     dim_of dest x = dim_of src (if x <? raxis then x else x + 1) /\
     stride_of dest x = stride_of src (if x <? raxis then x else x + 1)) /\
  (forall x, num_axes src - 1 <= x < KALDI_TENSOR_MAX_AXES ->
     dim_of dest x = 1 /\ stride_of dest x = 0).
Proof.
  intros Hw. pose proof Hw as (Hd & Hs & Hn).
  unfold Select. cbv zeta.
  set (raxis := EaxisToRaxis (num_axes src) eaxis).
  destruct (uint32_ge raxis (num_axes src)) eqn:E1; [discriminate|].
  destruct (inb (dims src) eaxis) eqn:E3; [|discriminate].
  destruct (uint32_ge index (dim_of src eaxis)) eqn:E2; [discriminate|].
  cbn [orb negb]. unfold uint32_ge in E1, E2. unfold inb in E3.
  apply orb_false_iff in E1 as [? ?], E2 as [? ?].
  apply andb_true_iff in E3 as [? _].
  unfold KALDI_TENSOR_MAX_AXES in *.
  set (d0 := set_num_axes fresh_pattern (num_axes src - 1)).
  assert (WellFormed d0) as Hw0
    by (apply WellFormed_fresh; unfold KALDI_TENSOR_MAX_AXES; lia).
  destruct (fold_set_axis_slots (fun r => r) (dim_of src) (stride_of src)
              (upto raxis)) with (p := d0)
    as ((Hw1 & Hn1 & Ho1 & Hc1) & Hin1 & Hout1); [| |done|].
  { rewrite map_id. apply NoDup_seqZ. }
  { intros r Hr. apply In_upto in Hr. unfold KALDI_TENSOR_MAX_AXES. lia. }
  set (d1 := foldl _ d0 (upto raxis)) in *.
  set (d2 := set_offset d1
               (offset src + int32_wrap (index * stride_of src raxis))).
  assert (WellFormed d2) as Hw2 by done.
  destruct (fold_set_axis_slots (fun r => r - 1) (dim_of src) (stride_of src)
              (seqZ (raxis + 1) (num_axes src - (raxis + 1))))
    with (p := d2) as ((Hw3 & Hn3 & Ho3 & Hc3) & Hin3 & Hout3); [| |done|].
  { apply (NoDup_fmap_2_strong (fun r => r - 1)); [|apply NoDup_seqZ].
    intros x y _ _ Hxy. lia. }
  { intros r Hr. apply list_elem_of_In, elem_of_seqZ in Hr.
    unfold KALDI_TENSOR_MAX_AXES. lia. }
  set (d3 := foldl _ d2 (seqZ (raxis + 1) _)) in *.
  destruct (fold_trivial_slots (num_axes src - 1)
              (5 - (num_axes src - 1)) d3 Hw3)
    as ((Hw4 & Hn4 & Ho4 & Hc4) & Hq4);
    [lia|unfold KALDI_TENSOR_MAX_AXES; lia|].
  set (d4 := foldl _ d3 (seqZ (num_axes src - 1) _)) in *.
  intros [= <-].
  split; [lia|]. split; [lia|]. split; [lia|]. split; [done|].
  split.
  { change (num_axes d4 = num_axes src - 1). rewrite Hn4, Hn3. exact Hn1. }
  split.
  { change (offset d4 =
            offset src + int32_wrap (index * stride_of src raxis)).
    by rewrite Ho4, Ho3. }
  split; [done|]. split.
  - intros x Hx.
    change (dim_of (set_code d4 (-1)) x) with (dim_of d4 x).
    change (stride_of (set_code d4 (-1)) x) with (stride_of d4 x).
    destruct (Hq4 x ltac:(lia)) as [-> ->].
    replace ((num_axes src - 1 <=? x) &&
             (x <? num_axes src - 1 + (5 - (num_axes src - 1))))
      with false by lia.
    destruct (Z.ltb_spec x raxis) as [Hlt|Hge].
    + destruct (Hout3 x ltac:(lia)) as [-> ->].
      { intros r Hr. apply list_elem_of_In, elem_of_seqZ in Hr. lia. }
      change (dim_of d2 x) with (dim_of d1 x).
      change (stride_of d2 x) with (stride_of d1 x).
      apply (Hin1 x). apply In_upto. lia.
    + replace x with (x + 1 - 1) at 1 3 by lia.
      apply (Hin3 (x + 1)). apply list_elem_of_In, elem_of_seqZ. lia.
  - intros x Hx.
    change (dim_of (set_code d4 (-1)) x) with (dim_of d4 x).
    change (stride_of (set_code d4 (-1)) x) with (stride_of d4 x).
    destruct (Hq4 x ltac:(lia)) as [-> ->].
    by replace ((num_axes src - 1 <=? x) &&
                (x <? num_axes src - 1 + (5 - (num_axes src - 1))))
      with true by lia.
Qed.

(** The used axes of the result of [Select] are the ones of the source
    without the selected axis. *)
Lemma Select_axes (eaxis index : Z) (src dest : Pattern) :
  WellFormed src -> Select eaxis index src = Some dest ->
  let raxis := EaxisToRaxis (num_axes src) eaxis in
  axes_of dest =
  map (fun q => (dim_of src q, stride_of src q)) (upto raxis) ++
  map (fun q => (dim_of src q, stride_of src q))
      (seqZ (raxis + 1) (num_axes src - (raxis + 1))).
Proof.
  intros Hw Hs. cbv zeta.
  destruct (Select_slots eaxis index src dest Hw Hs)
    as (Hr & _ & _ & Hw' & Hn' & _ & _ & Hx & _).
  set (raxis := EaxisToRaxis (num_axes src) eaxis) in *.
  rewrite axes_of_slots by done. rewrite Hn'. unfold upto.
  replace (num_axes src - 1)
    with (raxis + (num_axes src - (raxis + 1))) at 1 by lia.
  rewrite seqZ_app, map_app by lia. f_equal.
  - apply map_ext_in. intros q Hq. apply In_upto in Hq.
    destruct (Hx q ltac:(lia)) as [-> ->].
    by replace (q <? raxis) with true by lia.
  - replace (raxis + 1) with (1 + (0 + raxis)) by lia.
    rewrite <- (fmap_add_seqZ 1 (0 + raxis)).
    change (Z.add 1 <$> ?l) with (map (Z.add 1) l). rewrite map_map.
    apply map_ext_in. intros q Hq.
    apply list_elem_of_In, elem_of_seqZ in Hq.
    destruct (Hx q ltac:(lia)) as [-> ->].
    replace (q <? raxis) with false by lia.
    by replace (q + 1) with (1 + q) by lia.
Qed.

(** [Select] drops the selected axis and moves the offset to the chosen
    index: when that index lies within the dim of the selected axis and
    the int32 product of the index and the stride fits, the memory indexes
    of the result are memory indexes of the source, and the source has as
    many elements as the result times that dim.  A negative [eaxis] never
    succeeds: the selected private axis is [num_axes - 1 - eaxis]. *)
Theorem Select_keeps_within_pattern (eaxis index : Z) (src dest : Pattern) :
  WellFormed src -> Select eaxis index src = Some dest ->
  index < dim_of src (num_axes src - 1 - eaxis) ->
  - 2147483648 <= index * stride_of src (num_axes src - 1 - eaxis)
    <= int32_max ->
  0 <= eaxis < num_axes src /\
  (forall m, In m (MemoryIndexSet dest) -> In m (MemoryIndexSet src)) /\
  num_axes dest = num_axes src - 1 /\
  NumElements src =
    dim_of src (num_axes src - 1 - eaxis) * NumElements dest.
Proof.
  intros Hw Hs Hi Hfit.
  pose proof (Select_axes eaxis index src dest Hw Hs) as Ha.
  destruct (Select_slots eaxis index src dest Hw Hs)
    as (Hr & Hidx & Hax & Hw' & Hn' & Ho' & _).
  cbv zeta in Ha.
  assert (EaxisToRaxis (num_axes src) eaxis = num_axes src - 1 - eaxis)
    as Eax
    by (unfold EaxisToRaxis; by replace (eaxis <? 0) with false by lia).
  rewrite Eax in Hr, Ha, Ho'. rewrite int32_wrap_small in Ho' by done.
  set (raxis := num_axes src - 1 - eaxis) in *.
  split; [lia|]. split; [|split; [done|]].
  - intros m. unfold MemoryIndexSet.
    rewrite Ha, Ho', (axes_of_split src raxis Hw Hr).
    apply In_mindexes_from_fixed. lia.
  - rewrite !NumElements_product by done.
    rewrite Ha, (axes_of_split src raxis Hw Hr).
    rewrite !dims_product_app. cbn [dims_product foldr fst].
    fold (dims_product
            (map (fun q => (dim_of src q, stride_of src q))
                 (seqZ (raxis + 1) (num_axes src - (raxis + 1))))).
    lia.
Qed.

Lemma Select_keeps_within_pattern_witness :
  let src := make_pattern [4; 3] [1; 4] 0 (-1) in
  WellFormed src /\
  exists dest, Select 1 2 src = Some dest /\
               NumElements src = 4 * NumElements dest.
Proof.
  cbv zeta.
  assert (WellFormed (make_pattern [4; 3] [1; 4] 0 (-1))) as Hw
    by (repeat split; done).
  split; [exact Hw|]. eexists. split; [reflexivity|].
  by destruct (Select_keeps_within_pattern 1 2 _ _ Hw eq_refl)
    as (_ & _ & _ & H).
Defined.

(** ** Removing trivial axes from one pattern *)

(** A list of axes of dim 1 has the base as its only memory index. *)
Lemma mindexes_from_all_trivial (axes : list (Z * Z)) (base : Z) :
  Forall (fun a => fst a = 1) axes -> mindexes_from axes base = [base].
Proof.
  intros H. revert base. induction H as [|[d s] rest Hd _ IH]; intros base.
  - reflexivity.
  - cbn in Hd. subst d. cbn [mindexes_from]. change (upto 1) with [0].
    cbn [flat_map]. rewrite app_nil_r, IH. f_equal. lia.
Qed.

(** The in-place [RemoveTrivialAxes] never counts an axis as kept, so its
    second loop resets every used axis: whatever the pattern, the result
    has the same number of axes, all of dim 1 and stride 0, its only
    memory index is the offset, and it has one element. *)
Theorem RemoveTrivialAxes_erases_pattern (p : Pattern) :
  WellFormed p ->
  let q := RemoveTrivialAxes p in
  num_axes q = num_axes p /\ offset q = offset p /\ code q = -1 /\
  (forall r, 0 <= r < num_axes p -> dim_of q r = 1 /\ stride_of q r = 0) /\
  MemoryIndexSet q = [offset p] /\ NumElements q = 1.
Proof.
  intros Hw. cbv zeta. unfold RemoveTrivialAxes. cbv zeta.
  set (p1 := foldl _ p (upto (num_axes p))).
  assert (same_frame p p1) as (Hw1 & Hn1 & Ho1 & Hc1).
  { apply (foldl_invariant (same_frame p)); [done|].
    intros a x _ Ha. destruct (negb (dim_of a x =? 1)); [|done].
    destruct (negb (0 =? x)); [|done]. by apply same_frame_set_axis. }
  pose proof Hw as (_ & _ & Hn).
  destruct (fold_trivial_slots 0 (num_axes p - 0) p1 Hw1)
    as ((Hw2 & Hn2 & Ho2 & Hc2) & Hq); [lia|lia|].
  set (p2 := foldl _ p1 (seqZ 0 (num_axes p - 0))) in *.
  set (q := set_code (set_num_axes p2 (num_axes p)) (-1)).
  assert (WellFormed q) as Hwq.
  { destruct Hw2 as (? & ? & _). repeat split; (done || cbn; lia). }
  assert (forall r, 0 <= r < num_axes p ->
            dim_of q r = 1 /\ stride_of q r = 0) as Hslots.
  { intros r Hr.
    change (dim_of q r) with (dim_of p2 r).
    change (stride_of q r) with (stride_of p2 r).
    destruct (Hq r ltac:(lia)) as [-> ->].
    by replace ((0 <=? r) && (r <? 0 + (num_axes p - 0))) with true by lia. }
  assert (Forall (fun a => fst a = 1) (axes_of q)) as Hall.
  { rewrite axes_of_slots by done. apply List.Forall_forall.
    intros a Ha. apply in_map_iff in Ha as (r & <- & Hr).
    apply In_upto in Hr. cbn. by apply Hslots. }
  split; [done|]. split; [by rewrite <- Ho1, <- Ho2|]. split; [done|].
  split; [done|]. split.
  - unfold MemoryIndexSet. rewrite mindexes_from_all_trivial by done.
    change (offset q) with (offset p2). by rewrite Ho2, Ho1.
  - rewrite NumElements_product by done. unfold dims_product.
    induction Hall as [|a l Ha _ IH]; cbn [foldr]; [done|].
    rewrite Ha, IH. done.
Qed.

Lemma RemoveTrivialAxes_erases_pattern_witness :
  let p := make_pattern [4; 1; 3] [1; 0; 4] 2 (-1) in
  WellFormed p /\ NumElements p = 12 /\
  MemoryIndexSet (RemoveTrivialAxes p) = [2].
Proof.
  cbv zeta.
  assert (WellFormed (make_pattern [4; 1; 3] [1; 0; 4] 2 (-1))) as Hw
    by (repeat split; done).
  split; [exact Hw|]. split; [reflexivity|].
  by destruct (RemoveTrivialAxes_erases_pattern _ Hw) as (_ & _ & _ & _ & H & _).
Defined.

(** The copying [RemoveTrivialAxes] never counts an axis as kept either,
    and its second loop resets every slot: whatever [pattern_in], the
    result is the pattern without axes at the offset that [pattern_out]
    had before the call. *)
Theorem RemoveTrivialAxes_out_ignores_input (pattern_in pattern_out : Pattern) :
  WellFormed pattern_out ->
  RemoveTrivialAxes_out pattern_in pattern_out =
  set_offset fresh_pattern (offset pattern_out).
Proof.
  intros Hw. unfold RemoveTrivialAxes_out. cbv zeta.
  set (p1 := foldl _ pattern_out (upto (num_axes pattern_in))).
  assert (same_frame pattern_out p1) as (Hw1 & Hn1 & Ho1 & Hc1).
  { apply (foldl_invariant (same_frame pattern_out)); [done|].
    intros a x _ Ha. destruct (negb (dim_of pattern_in x =? 1)); [|done].
    by apply same_frame_set_axis. }
  destruct (fold_trivial_slots 0 (KALDI_TENSOR_MAX_AXES - 0) p1 Hw1)
    as ((Hw2 & Hn2 & Ho2 & Hc2) & Hq); [lia|lia|].
  set (p2 := foldl _ p1 (seqZ 0 (KALDI_TENSOR_MAX_AXES - 0))) in *.
  rewrite (Pattern_eta (set_code (set_num_axes p2 0) (-1))).
  rewrite (Pattern_eta (set_offset fresh_pattern (offset pattern_out))).
  destruct Hw2 as (Hd2 & Hs2 & _). unfold KALDI_TENSOR_MAX_AXES in *.
  cbn [num_axes dims strides offset code set_code set_num_axes set_offset
       fresh_pattern make_pattern].
  f_equal.
  - apply rd_ext; [by rewrite Hd2|]. intros j Hj.
    destruct (Hq j ltac:(lia)) as [Hdj _]. unfold dim_of in Hdj.
    rewrite Hdj.
    replace ((0 <=? j) && (j <? 0 + (5 - 0))) with true by lia.
    rewrite Hd2 in Hj.
    assert (j = 0 \/ j = 1 \/ j = 2 \/ j = 3 \/ j = 4) as Hc by lia.
    by destruct Hc as [->|[->|[->|[->| ->]]]].
  - apply rd_ext; [by rewrite Hs2|]. intros j Hj.
    destruct (Hq j ltac:(lia)) as [_ Hsj]. unfold stride_of in Hsj.
    rewrite Hsj.
    replace ((0 <=? j) && (j <? 0 + (5 - 0))) with true by lia.
    rewrite Hs2 in Hj.
    assert (j = 0 \/ j = 1 \/ j = 2 \/ j = 3 \/ j = 4) as Hc by lia.
    by destruct Hc as [->|[->|[->|[->| ->]]]].
  - by rewrite Ho2, Ho1.
Qed.

Lemma RemoveTrivialAxes_out_ignores_input_witness :
  let pattern_in := make_pattern [4; 1; 3] [1; 0; 4] 2 (-1) in
  let pattern_out := make_pattern [7] [1] 9 (-1) in
  WellFormed pattern_out /\
  MemoryIndexSet (RemoveTrivialAxes_out pattern_in pattern_out) = [9].
Proof.
  cbv zeta.
  assert (WellFormed (make_pattern [7] [1] 9 (-1))) as Hw
    by (repeat split; done).
  split; [exact Hw|].
  by rewrite (RemoveTrivialAxes_out_ignores_input
                (make_pattern [4; 1; 3] [1; 0; 4] 2 (-1)) _ Hw).
Defined.

(** ** The search for offsets *)

(** Started on an empty vector, the recursion ends with an empty vector or
    in [back()] on it: the only statement that stores an offset tuple
    appends to the last element of [offsets_out], which nothing ever
    creates. *)
Lemma FindOffsetsRecursive_empty (raxis : nat) (pattern1 pattern2 : Pattern) :
  forall known_offsets remainder keep_all_offsets out,
    FindOffsetsRecursive raxis pattern1 pattern2 known_offsets remainder
                         keep_all_offsets [] = Some out ->
    out = [].
Proof.
  induction raxis as [|raxis IH];
    intros known_offsets remainder keep_all_offsets out.
  - cbn [FindOffsetsRecursive].
    destruct (cdiv _ _) as [this_offset|]; [|discriminate].
    destruct (_ =? 0); [discriminate|]. by intros [= <-].
  - cbn [FindOffsetsRecursive].
    destruct (cdiv _ _) as [this_offset|]; [|discriminate].
    set (r := Z.of_nat (S raxis)).
    set (next := remainder - stride_of pattern1 r * this_offset).
    assert (exists o1,
              (if in_range4 pattern1 pattern2 r this_offset
               then FindOffsetsRecursive raxis pattern1 pattern2
                      (known_offsets ++ [this_offset]) next
                      keep_all_offsets []
               else Some []) = o1 /\ (o1 = None \/ o1 = Some [])) as
      (o1 & -> & Ho1).
    { eexists. split; [reflexivity|].
      destruct (in_range4 _ _ _ _); [|by right].
      destruct (FindOffsetsRecursive _ _ _ _ _ _ _) as [o|] eqn:E;
        [|by left].
      right. f_equal. by apply IH in E. }
    destruct Ho1 as [->| ->]; [discriminate|].
    destruct (_ || _); [by intros [= <-]|].
    destruct (in_range4 _ _ _ _); [|by intros [= <-]].
    apply IH.
Qed.

Lemma FindOffsets_empty (pattern1 pattern2 : Pattern) (keep : bool)
    (offsets : list (list Z)) :
  FindOffsets pattern1 pattern2 keep = Some offsets -> offsets = [].
Proof.
  unfold FindOffsets. destruct (_ <=? 0); [discriminate|].
  apply FindOffsetsRecursive_empty.
Qed.

(** [FindOffsets] never finds an offset: whatever the two patterns, it
    returns an empty list of offsets, unless it fails: on a pattern
    without axes, by a division by a zero stride, or by [back()] on the
    empty vector. *)
Theorem FindOffsets_never_finds (pattern1 pattern2 : Pattern)
    (keep_all_offsets : bool) (offsets : list (list Z)) :
  FindOffsets pattern1 pattern2 keep_all_offsets = Some offsets ->
  offsets = [] /\ 0 < num_axes pattern1.
Proof.
  intros H. split; [by apply FindOffsets_empty in H|].
  unfold FindOffsets in H.
  destruct (Z.leb_spec (num_axes pattern1) 0); [discriminate|lia].
Qed.

Lemma FindOffsets_never_finds_witness :
  let p := make_pattern [3] [2] 0 (-1) in
  exists offsets, FindOffsets p p true = Some offsets /\ offsets = [].
Proof.
  cbv zeta. eexists. split; [vm_compute; reflexivity|].
  apply (FindOffsets_never_finds (make_pattern [3] [2] 0 (-1))
           (make_pattern [3] [2] 0 (-1)) true).
  vm_compute. reflexivity.
Defined.

(** ** Intersection and subset *)

Lemma insert_uniq_not_nil (x : Z) (l : list Z) : insert_uniq x l <> [].
Proof.
  induction l as [|y l IH]; cbn [insert_uniq]; [done|].
  destruct (x <? y); [done|]. by destruct (x =? y).
Qed.

(** Patterns with an axis have a stride. *)
Lemma FindAllStrides_not_nil (pattern1 pattern2 : Pattern) :
  1 <= num_axes pattern1 \/ 1 <= num_axes pattern2 ->
  FindAllStrides pattern1 pattern2 <> [].
Proof.
  intros Hn. unfold FindAllStrides, SortAndUniq.
  destruct (map _ (upto (num_axes pattern1)) ++ _) as [|x l] eqn:E.
  - apply app_eq_nil in E as [E1 E2].
    apply map_eq_nil in E1, E2. unfold upto in E1, E2.
    apply (f_equal length) in E1, E2. rewrite length_seqZ in E1, E2.
    cbn in E1, E2. lia.
  - cbn [foldr]. apply insert_uniq_not_nil.
Qed.

(** The loop over the pairs of sub-patterns, started without any pattern,
    ends without any, or fails. *)
Lemma Intersection_pairs_empty (pattern1 pattern2 : Pattern) (keep : bool)
    (pairs : list (Pattern * Pattern)) :
  foldl (Intersection_pair pattern1 pattern2 keep) (Some (false, [])) pairs
    = None \/
  foldl (Intersection_pair pattern1 pattern2 keep) (Some (false, [])) pairs
    = Some (false, []).
Proof.
  induction pairs as [|sub pairs IH]; [by right|].
  cbn [foldl]. unfold Intersection_pair at 2 4.
  destruct (FindOffsets (fst sub) (snd sub) keep) as [offsets|] eqn:E.
  - apply FindOffsets_empty in E as ->. cbn [map app].
    rewrite bool_decide_eq_true_2 by done. cbn [negb].
    rewrite andb_false_r. exact IH.
  - left. clear. induction pairs as [|sub pairs IH]; [done|]. exact IH.
Qed.

(** As soon as one of the patterns has an axis, [ComputeIntersection]
    never produces a pattern: when it returns, true or false, the
    intersection is empty, also for two equal patterns.  So
    [PatternIsSubsetOf], which compares the number of elements of the
    intersection with the one of its first argument, never answers true on
    a valid pattern. *)
Theorem ComputeIntersection_never_finds (p q : Pattern) :
  1 <= num_axes p \/ 1 <= num_axes q ->
  (forall keep_all_patterns flag intersection,
     ComputeIntersection p q keep_all_patterns = Some (flag, intersection) ->
     intersection = []) /\
  (IsValid p -> PatternIsSubsetOf p q <> Some true).
Proof.
  intros Hn.
  assert (forall keep flag intersection,
            ComputeIntersection p q keep = Some (flag, intersection) ->
            intersection = []) as Hi.
  { intros keep flag intersection. unfold ComputeIntersection. cbv zeta.
    pose proof (FindAllStrides_not_nil (CanonicalizePattern p)
                  (CanonicalizePattern q) Hn) as Hs.
    destruct (FindAllStrides _ _) as [|s0 ss]; [done|].
    replace (Z.of_nat (length (s0 :: ss)) =? 0) with false
      by (symmetry; apply Z.eqb_neq; cbn [length]; lia).
    destruct (ConvertPatternStrides (CanonicalizePattern p) _)
      as [[patterns1|]|]; [|by intros [= _ <-]|discriminate].
    destruct (ConvertPatternStrides (CanonicalizePattern q) _)
      as [[patterns2|]|]; [|by intros [= _ <-]|discriminate].
    destruct (Intersection_pairs_empty (CanonicalizePattern p)
                (CanonicalizePattern q) keep
                (list_prod patterns1 patterns2)) as [-> | ->];
      [discriminate|]. by intros [= _ <-]. }
  split; [exact Hi|].
  intros Hv. unfold PatternIsSubsetOf.
  destruct (ComputeIntersection p q true) as [[flag intersection]|] eqn:E;
    [|discriminate].
  pose proof (Hi _ _ _ E) as ->.
  change (Some (0 =? NumElements p) <> Some true).
  pose proof (NumElements_positive p Hv) as H1.
  replace (0 =? NumElements p) with false by lia. discriminate.
Qed.

Lemma ComputeIntersection_never_finds_witness :
  let p := make_pattern [3] [2] 0 (-1) in
  IsValid p /\ MemoryIndexSet p = [0; 2; 4] /\
  ComputeIntersection p p true = Some (true, []) /\
  PatternIsSubsetOf p p <> Some true.
Proof.
  cbv zeta.
  assert (IsValid (make_pattern [3] [2] 0 (-1))) as Hv
    by (by apply IsValidb_sound).
  split; [exact Hv|]. split; [reflexivity|]. split; [vm_compute; reflexivity|].
  destruct (ComputeIntersection_never_finds
              (make_pattern [3] [2] 0 (-1))
              (make_pattern [3] [2] 0 (-1))) as [_ H];
    [left; done|]. by apply H.
Defined.

(** ** Membership of a memory index *)

(** The loop of [PatternContains] from the axis [k - 1] down to the axis 0
    accepts a memory index only with an index for every axis. *)
Lemma PatternContains_loop_sound (p : Pattern) (k : nat) :
  forall mindex base,
    PatternContains_loop p (downto (Z.of_nat k - 1) (-1)) mindex
      = Some true ->
    In (base + mindex)
       (mindexes_from (map (fun r => (dim_of p r, stride_of p r))
                           (upto (Z.of_nat k))) base).
Proof.
  induction k as [|k IH]; intros mindex base.
  - cbn. intros [= H]. left. lia.
  - replace (Z.of_nat (S k) - 1) with (Z.of_nat k) by lia.
    rewrite downto_cons by lia. cbn [PatternContains_loop].
    destruct (cdiv mindex (stride_of p (Z.of_nat k))) as [index|];
      [|discriminate].
    destruct (uint32_ge index (dim_of p (Z.of_nat k))) eqn:E;
      [discriminate|].
    unfold uint32_ge in E. apply orb_false_iff in E as [E1 E2].
    intros H. apply (IH _ base) in H.
    unfold upto. replace (Z.of_nat (S k)) with (Z.of_nat k + 1) by lia.
    rewrite seqZ_app, map_app by lia.
    replace (seqZ (0 + Z.of_nat k) 1) with [Z.of_nat k]
      by (rewrite seqZ_cons, seqZ_nil by lia; f_equal; lia).
    apply In_mindexes_from_app. eexists. split; [exact H|].
    cbn [map]. apply In_mindexes_from_cons.
    exists index. split; [lia|]. left. lia.
Qed.

(** [PatternContains] has no false positive: on a canonical pattern, which
    it does not rearrange, a memory index that it accepts is a memory
    index of the pattern. *)
Theorem PatternContains_sound (p : Pattern) (mindex : Z) :
  IsCanonicalb p = true -> PatternContains p mindex = Some true ->
  In mindex (MemoryIndexSet p).
Proof.
  intros Hc. unfold PatternContains. rewrite Hc. cbn [negb].
  apply IsCanonicalb_sound in Hc as [Hv _].
  pose proof (IsValid_WellFormed p Hv) as Hw.
  pose proof Hw as (_ & _ & Hn).
  intros H. unfold MemoryIndexSet. rewrite axes_of_slots by done.
  replace (num_axes p) with (Z.of_nat (Z.to_nat (num_axes p))) in * by lia.
  apply (PatternContains_loop_sound p _ _ (offset p)) in H.
  by replace (offset p + (mindex - offset p)) with mindex in H by lia.
Qed.

Lemma PatternContains_sound_witness :
  let p := make_pattern [3; 2] [1; 3] 7 (-1) in
  IsCanonicalb p = true /\ PatternContains p 11 = Some true /\
  In 11 (MemoryIndexSet p).
Proof.
  cbv zeta. split; [reflexivity|]. split; [reflexivity|].
  apply (PatternContains_sound (make_pattern [3; 2] [1; 3] 7 (-1)) 11);
    reflexivity.
Defined.

(** ** The exhaustive intersection test *)

(** [PatternsIntersectSlow] never answers true for two patterns with the
    same offset, which share that memory index when they are valid: both
    iterators start at the larger offset less the smaller one, and the
    loop is left at once when the first iterator is at [begin()]. *)
Theorem PatternsIntersectSlow_same_offset (pattern1 pattern2 : Pattern) :
  offset pattern1 = offset pattern2 ->
  PatternsIntersectSlow pattern1 pattern2 = None \/
  PatternsIntersectSlow pattern1 pattern2 = Some false.
Proof.
  intros Ho. unfold PatternsIntersectSlow. cbv zeta.
  change (offset (CanonicalizePattern pattern1)) with (offset pattern1).
  change (offset (CanonicalizePattern pattern2)) with (offset pattern2).
  cbn [offset set_offset]. rewrite Ho, Z.min_id, Z.sub_diag.
  destruct (ToMemoryIndexSet (set_offset (CanonicalizePattern pattern1) 0))
    as [v1|]; [|by left].
  destruct (ToMemoryIndexSet (set_offset (CanonicalizePattern pattern2) 0))
    as [v2|]; [|by left].
  right. change (Z.max 0 0) with 0.
  assert (forall n : nat, (0 >? Z.of_nat n) = false) as Hg
    by (intros; rewrite Z.gtb_ltb; apply Z.ltb_ge; lia).
  cbn [mbind option_bind]. by rewrite !Hg.
Qed.

Lemma PatternsIntersectSlow_same_offset_witness :
  let p := make_pattern [3] [2] 0 (-1) in
  In (offset p) (MemoryIndexSet p) /\
  PatternsIntersectSlow p p = Some false.
Proof.
  cbv zeta. split; [by left|].
  destruct (PatternsIntersectSlow_same_offset
              (make_pattern [3] [2] 0 (-1)) (make_pattern [3] [2] 0 (-1))
              eq_refl) as [H|H]; [discriminate H|exact H].
Defined.

(** ** Hyperrectangles *)

Lemma In_HyperrectangleSet (h : Hyperrectangle) :
  forall t, In t (HyperrectangleSet h) <-> InHyperrectangle t h.
Proof.
  unfold InHyperrectangle.
  induction h as [|[b e] rest IH]; intros t; cbn [HyperrectangleSet].
  - split.
    + intros [<-|[]]. constructor.
    + intros H. apply Forall2_nil_inv_r in H as ->. by left.
  - rewrite in_flat_map. split.
    + intros (i & Hi & Ht). apply in_map_iff in Ht as (t' & <- & Ht').
      apply list_elem_of_In, elem_of_seqZ in Hi.
      constructor; [cbn; lia|]. by apply IH.
    + intros H. apply Forall2_cons_inv_r in H as (x & t' & Hx & Ht' & ->).
      cbn in Hx. exists x. split.
      * apply list_elem_of_In, elem_of_seqZ. lia.
      * apply in_map. by apply IH.
Qed.

(** A tuple in a hyperrectangle, interval by interval. *)
Lemma InHyperrectangle_lookup (t : list Z) (h : Hyperrectangle) :
  InHyperrectangle t h <->
  length t = length h /\
  forall j x iv, t !! j = Some x -> h !! j = Some iv -> fst iv <= x < snd iv.
Proof. apply Forall2_same_length_lookup. Qed.

(** A tuple of a hyperrectangle of which one interval was replaced by a
    part of it is a tuple of the hyperrectangle. *)
Lemma InHyperrectangle_narrow (t : list Z) (a : Hyperrectangle) (i : nat)
    (b e : Z) :
  fst (interval a i) <= b -> e <= snd (interval a i) ->
  InHyperrectangle t (<[i := (b, e)]> a) -> InHyperrectangle t a.
Proof.
  intros Hb He Ht. apply InHyperrectangle_lookup in Ht as [Hl H].
  unfold Hyperrectangle in *. rewrite length_insert in Hl.
  apply InHyperrectangle_lookup.
  split; [done|]. intros j x iv Hx Hiv.
  destruct (decide (j = i)) as [->|Hne].
  - specialize (H i x (b, e) Hx).
    rewrite list_lookup_insert_eq in H
      by (apply lookup_lt_Some in Hiv; lia).
    specialize (H eq_refl). unfold interval, Hyperrectangle in *.
    rewrite Hiv in Hb, He. cbn in *. lia.
  - apply (H j); [done|]. by rewrite list_lookup_insert_ne.
Qed.

(** The index of a tuple at the position of a replaced interval. *)
Lemma InHyperrectangle_insert_at (t : list Z) (a : Hyperrectangle) (i : nat)
    (b e : Z) :
  (i < length a)%nat -> InHyperrectangle t (<[i := (b, e)]> a) ->
  exists x, t !! i = Some x /\ b <= x < e.
Proof.
  intros Hi Ht. apply InHyperrectangle_lookup in Ht as [Hl H].
  unfold Hyperrectangle in *. rewrite length_insert in Hl.
  destruct (lookup_lt_is_Some_2 t i ltac:(lia)) as [x Hx].
  exists x. split; [done|].
  apply (H i x (b, e) Hx). by rewrite list_lookup_insert_eq.
Qed.

(** The index of a tuple at a position of a hyperrectangle. *)
Lemma InHyperrectangle_at (t : list Z) (a : Hyperrectangle) (i : nat) :
  (i < length a)%nat -> InHyperrectangle t a ->
  exists x, t !! i = Some x /\ fst (interval a i) <= x < snd (interval a i).
Proof.
  intros Hi Ht. apply InHyperrectangle_lookup in Ht as [Hl H].
  unfold Hyperrectangle in *.
  destruct (lookup_lt_is_Some_2 t i ltac:(lia)) as [x Hx].
  destruct (lookup_lt_is_Some_2 a i Hi) as [iv Hiv].
  exists x. split; [done|]. unfold interval, Hyperrectangle. rewrite Hiv.
  by apply (H i).
Qed.

(** A tuple whose index at one position misses the interval of [b] is
    not in [b]. *)
Lemma not_InHyperrectangle (t : list Z) (b : Hyperrectangle) (i : nat)
    (x : Z) :
  (i < length b)%nat -> t !! i = Some x ->
  x < fst (interval b i) \/ snd (interval b i) <= x ->
  ~ InHyperrectangle t b.
Proof.
  intros Hi Hx Hout Hb.
  destruct (InHyperrectangle_at t b i Hi Hb) as (y & Hy & Hin).
  assert (x = y) as -> by congruence. lia.
Qed.

(** Every hyperrectangle that the recursion appends holds only tuples of
    [a] that are not in [b]. *)
Lemma SubtractHyperrectangles_from_sound (k : nat) :
  forall a b i difference h,
    length a = length b -> (i + k = length a)%nat ->
    In h (SubtractHyperrectangles_from k a b i difference) ->
    In h difference \/
    forall t, InHyperrectangle t h ->
              InHyperrectangle t a /\ ~ InHyperrectangle t b.
Proof.
  unfold Hyperrectangle in *.
  induction k as [|k IH]; intros a b i difference h Hl Hk;
    cbn [SubtractHyperrectangles_from]; [by left|].
  destruct (interval a i) as [a_start a_end] eqn:Ea.
  destruct (interval b i) as [b_start b_end] eqn:Eb.
  assert (i < length a)%nat as Hi by lia.
  assert (forall t lo hi,
            InHyperrectangle t (<[i := (lo, hi)]> a) ->
            a_start <= lo -> hi <= a_end ->
            (hi <= b_start \/ b_end <= lo) ->
            InHyperrectangle t a /\ ~ InHyperrectangle t b) as Hpiece.
  { intros t lo hi Ht Hlo Hhi Hout. split.
    - apply (InHyperrectangle_narrow t a i lo hi); rewrite ?Ea; done.
    - destruct (InHyperrectangle_insert_at t a i lo hi Hi Ht) as (x & Hx & ?).
      apply (not_InHyperrectangle t b i x); [lia|done|].
      rewrite Eb. cbn. lia. }
  destruct ((b_start <? a_end) && (b_end >? a_start)) eqn:Eo.
  - apply andb_true_iff in Eo as [Eo1 Eo2].
    rewrite Z.gtb_ltb in Eo2. apply Z.ltb_lt in Eo1, Eo2.
    set (d1 := if a_start <? b_start
               then difference ++ [<[i := (a_start, b_start)]> a]
               else difference).
    set (d2 := if a_end >? b_end
               then d1 ++ [<[i := (b_end, a_end)]> a] else d1).
    assert (forall h, In h d2 ->
              In h difference \/
              forall t, InHyperrectangle t h ->
                        InHyperrectangle t a /\ ~ InHyperrectangle t b) as Hd2.
    { intros h' Hh'. unfold d2, d1 in Hh'.
      assert (In h' difference \/
              (a_start < b_start /\ h' = <[i := (a_start, b_start)]> a) \/
              (b_end < a_end /\ h' = <[i := (b_end, a_end)]> a))
        as [?|[[? ->]|[? ->]]].
      { destruct (Z.ltb_spec a_start b_start);
          destruct (a_end >? b_end) eqn:E2;
          rewrite ?Z.gtb_ltb in E2; try apply Z.ltb_lt in E2;
          repeat (apply in_app_or in Hh' as [Hh'|Hh']);
          try (destruct Hh' as [<-|[]]); auto. }
      - by left.
      - right. intros t Ht.
        apply (Hpiece t a_start b_start); [done|lia..].
      - right. intros t Ht.
        apply (Hpiece t b_end a_end); [done|lia..]. }
    destruct (S i <? length a)%nat eqn:Es; [|by apply Hd2].
    intros Hin.
    apply IH in Hin;
      [|unfold Hyperrectangle; by rewrite length_insert
       |unfold Hyperrectangle; rewrite length_insert; lia].
    destruct Hin as [Hin|Hin]; [by apply Hd2|].
    right. intros t Ht. destruct (Hin t Ht) as [Ha _]. exfalso.
    destruct (InHyperrectangle_insert_at t a i _ _ Hi Ha) as (x & _ & Hx).
    lia.
  - intros Hin. apply in_app_or in Hin as [Hin|[<-|[]]]; [by left|].
    right. intros t Ht. split; [done|].
    destruct (InHyperrectangle_at t a i Hi Ht) as (x & Hx & Hin).
    rewrite Ea in Hin. cbn in Hin.
    apply (not_InHyperrectangle t b i x); [lia|done|].
    rewrite Eb. cbn.
    apply andb_false_iff in Eo as [Eo|Eo].
    + apply Z.ltb_ge in Eo. lia.
    + rewrite Z.gtb_ltb in Eo. apply Z.ltb_ge in Eo. lia.
Qed.

(** [SubtractHyperrectangles], called with [i = 0] and an empty vector,
    returns only hyperrectangles inside the difference of [a] and [b]:
    every index tuple of the result is a tuple of [a] and not a tuple of
    [b].  (Index tuples of the difference can be missing from the
    result.) *)
Theorem SubtractHyperrectangles_within_difference (a b h : Hyperrectangle)
    (t : list Z) :
  length a = length b ->
  In h (SubtractHyperrectangles a b 0 []) -> In t (HyperrectangleSet h) ->
  In t (HyperrectangleSet a) /\ ~ In t (HyperrectangleSet b).
Proof.
  intros Hl Hh Ht. rewrite !In_HyperrectangleSet in *.
  unfold SubtractHyperrectangles in Hh.
  apply SubtractHyperrectangles_from_sound in Hh as [[]|Hh]; [by apply Hh| |];
    lia.
Qed.

Lemma SubtractHyperrectangles_within_difference_witness :
  let a := [(0, 4); (0, 3)] in
  let b := [(1, 2); (1, 5)] in
  In [(2, 4); (0, 3)] (SubtractHyperrectangles a b 0 []) /\
  In [3; 1] (HyperrectangleSet a) /\ ~ In [3; 1] (HyperrectangleSet b).
Proof.
  cbv zeta. split; [vm_compute; auto|].
  apply (SubtractHyperrectangles_within_difference
           [(0, 4); (0, 3)] [(1, 2); (1, 5)] [(2, 4); (0, 3)] [3; 1]).
  - reflexivity.
  - vm_compute. auto.
  - vm_compute. auto 10.
Defined.

(** ** From hyperrectangles to patterns *)

Lemma foldl_ext_in {A B : Type} (f g : A -> B -> A) (l : list B) (a : A) :
  (forall a x, In x l -> f a x = g a x) -> foldl f a l = foldl g a l.
Proof.
  revert a. induction l as [|x l IH]; intros a H; [done|].
  cbn [foldl]. rewrite H by (by left). apply IH.
  intros a' y Hy. apply H. by right.
Qed.

Lemma foldl_pair_split {A B C : Type} (F : A -> C -> A) (G : B -> C -> B)
    (l : list C) (a : A) (b : B) :
  foldl (fun '(x, y) r => (F x r, G y r)) (a, b) l =
  (foldl F a l, foldl G b l).
Proof. revert a b. induction l as [|r l IH]; intros a b; cbn; auto. Qed.

(** The pattern that [HyperrectangleToPattern] builds, slot by slot. *)
Lemma HyperrectangleToPattern_slots (src : Pattern) (h : Hyperrectangle) :
  WellFormed src ->
  let dest := HyperrectangleToPattern src h in
  WellFormed dest /\ num_axes dest = num_axes src /\ code dest = -1 /\
  offset dest =
    foldl (fun o r => o + fst (interval h (Z.to_nat r)) * stride_of src r)
          (offset src) (upto (num_axes src)) /\
  (forall r, 0 <= r < num_axes src ->
     dim_of dest r =
       snd (interval h (Z.to_nat r)) - fst (interval h (Z.to_nat r)) /\
     stride_of dest r = stride_of src r) /\
  (forall r, num_axes src <= r < KALDI_TENSOR_MAX_AXES ->
     dim_of dest r = 1 /\ stride_of dest r = 0).
Proof.
  intros Hw. pose proof Hw as (_ & _ & Hn). cbv zeta.
  unfold HyperrectangleToPattern. cbv zeta.
  set (d0 := set_num_axes fresh_pattern (num_axes src)).
  assert (WellFormed d0) as Hw0 by (by apply WellFormed_fresh).
  rewrite (foldl_ext_in _
             (fun '(dest, offset_) r =>
                (set_axis dest r
                   (snd (interval h (Z.to_nat r)) -
                    fst (interval h (Z.to_nat r)))
                   (stride_of src r),
                 offset_ + fst (interval h (Z.to_nat r)) * stride_of src r))).
  2:{ intros [d o] r _. by destruct (interval h (Z.to_nat r)). }
  rewrite (foldl_pair_split
             (fun dest r =>
                set_axis dest r
                  (snd (interval h (Z.to_nat r)) -
                   fst (interval h (Z.to_nat r)))
                  (stride_of src r))
             (fun o r => o + fst (interval h (Z.to_nat r)) * stride_of src r)).
  destruct (fold_set_axis_slots (fun r => r)
              (fun r => snd (interval h (Z.to_nat r)) -
                        fst (interval h (Z.to_nat r)))
              (stride_of src) (upto (num_axes src))) with (p := d0)
    as ((Hw1 & Hn1 & Ho1 & Hc1) & Hin1 & Hout1); [| |done|].
  { rewrite map_id. apply NoDup_seqZ. }
  { intros r Hr. apply In_upto in Hr. lia. }
  set (d1 := foldl _ d0 (upto (num_axes src))) in *.
  unfold SetUnusedDimsAndStrides, SetDefaultCodeAndProperties.
  destruct (fold_trivial_slots (num_axes src)
              (KALDI_TENSOR_MAX_AXES - num_axes src) d1 Hw1)
    as ((Hw2 & Hn2 & Ho2 & Hc2) & Hq2); [lia|lia|].
  set (d2 := foldl _ d1 (seqZ (num_axes src) _)) in *.
  split.
  { destruct Hw2 as (? & ? & _). repeat split; (done || cbn; lia). }
  split; [done|]. split; [done|]. split; [done|]. split.
  - intros r Hr.
    change (dim_of (set_code _ _) r) with (dim_of d2 r).
    change (stride_of (set_code _ _) r) with (stride_of d2 r).
    destruct (Hq2 r ltac:(lia)) as [-> ->].
    replace ((num_axes src <=? r) &&
             (r <? num_axes src + (KALDI_TENSOR_MAX_AXES - num_axes src)))
      with false by lia.
    apply (Hin1 r). by apply In_upto.
  - intros r Hr.
    change (dim_of (set_code _ _) r) with (dim_of d2 r).
    change (stride_of (set_code _ _) r) with (stride_of d2 r).
    destruct (Hq2 r ltac:(lia)) as [-> ->].
    by replace ((num_axes src <=? r) &&
                (r <? num_axes src + (KALDI_TENSOR_MAX_AXES - num_axes src)))
      with true by lia.
Qed.

(** The memory index of a tuple moves with the base. *)
Lemma tuple_index_base (str : Z -> Z) (t : list Z) :
  forall a base c,
    tuple_index str a t (base + c) = tuple_index str a t base + c.
Proof.
  induction t as [|x t IH]; intros a base c; cbn [tuple_index]; [done|].
  rewrite <- IH. f_equal. lia.
Qed.

(** The axes cut out by a hyperrectangle, started at the memory index of
    its lowest corner, enumerate the memory indexes of its tuples, in the
    order of the tuples. *)
Lemma mindexes_from_rect_axes (str : Z -> Z) (h : Hyperrectangle) :
  forall a base,
    mindexes_from (rect_axes str a h) (tuple_index str a (map fst h) base) =
    map (fun t => tuple_index str a t base) (HyperrectangleSet h).
Proof.
  induction h as [|[b e] h IH]; intros a base; [reflexivity|].
  cbn [rect_axes map tuple_index mindexes_from HyperrectangleSet fst snd].
  rewrite flat_map_concat_map, (flat_map_concat_map _ (seqZ b (e - b))).
  rewrite concat_map, map_map. f_equal.
  unfold upto.
  replace (seqZ b (e - b)) with (Z.add b <$> seqZ 0 (e - b))
    by (rewrite fmap_add_seqZ; f_equal; lia).
  change (Z.add b <$> ?l) with (map (Z.add b) l). rewrite map_map.
  apply map_ext. intros i. rewrite map_map. cbn [tuple_index].
  rewrite <- tuple_index_base.
  replace (base + b * str a + i * str a) with (base + (b + i) * str a)
    by lia.
  apply IH.
Qed.

(** The loops over the axis numbers, read on the lists. *)
Lemma rect_axes_upto (str : Z -> Z) (h : Hyperrectangle) :
  forall a,
    map (fun r => (snd (interval h (Z.to_nat (r - a))) -
                   fst (interval h (Z.to_nat (r - a))), str r))
        (seqZ a (Z.of_nat (length h))) =
    rect_axes str a h.
Proof.
  induction h as [|iv h IH]; intros a; [reflexivity|].
  cbn [length]. rewrite seqZ_S. cbn [map rect_axes]. f_equal.
  - by replace (Z.to_nat (a - a)) with 0%nat by lia.
  - rewrite <- IH. apply map_ext_in. intros r Hr.
    apply list_elem_of_In, elem_of_seqZ in Hr.
    replace (Z.to_nat (r - a)) with (S (Z.to_nat (r - (a + 1)))) by lia.
    reflexivity.
Qed.

Lemma tuple_index_upto (str : Z -> Z) (t : list Z) :
  forall a base,
    foldl (fun m r => m + rd t (r - a) * str r) base
          (seqZ a (Z.of_nat (length t))) =
    tuple_index str a t base.
Proof.
  induction t as [|x t IH]; intros a base; [reflexivity|].
  cbn [length]. rewrite seqZ_S. cbn [foldl tuple_index].
  replace (rd (x :: t) (a - a)) with x
    by (unfold rd; by replace (Z.to_nat (a - a)) with 0%nat by lia).
  rewrite <- IH. apply foldl_ext_in. intros m r Hr.
  apply list_elem_of_In, elem_of_seqZ in Hr. f_equal. f_equal.
  unfold rd.
  by replace (Z.to_nat (r - a)) with (S (Z.to_nat (r - (a + 1)))) by lia.
Qed.

Lemma length_HyperrectangleSet (h : Hyperrectangle) (t : list Z) :
  In t (HyperrectangleSet h) -> length t = length h.
Proof.
  rewrite In_HyperrectangleSet. apply Forall2_length.
Qed.

(** [HyperrectangleToPattern] does what its documentation says: with one
    interval per axis of [src], the memory indexes of the result are the
    memory indexes that [src] gives to the index tuples of the
    hyperrectangle, in the order of the tuples; the strides are the ones
    of [src]. *)
Theorem HyperrectangleToPattern_indexes (src : Pattern) (h : Hyperrectangle) :
  WellFormed src -> length h = Z.to_nat (num_axes src) ->
  MemoryIndexSet (HyperrectangleToPattern src h) =
    map (IndexPattern src) (HyperrectangleSet h) /\
  num_axes (HyperrectangleToPattern src h) = num_axes src /\
  (forall r, 0 <= r < num_axes src ->
     stride_of (HyperrectangleToPattern src h) r = stride_of src r).
Proof.
  intros Hw Hl. pose proof Hw as (_ & _ & Hn).
  destruct (HyperrectangleToPattern_slots src h Hw)
    as (Hw' & Hn' & _ & Ho' & Hx & _).
  split; [|split; [done|by intros r Hr; apply Hx]].
  unfold MemoryIndexSet. rewrite axes_of_slots, Hn', Ho' by done.
  rewrite (map_ext_in _
             (fun r => (snd (interval h (Z.to_nat (r - 0))) -
                        fst (interval h (Z.to_nat (r - 0))),
                        stride_of src r))).
  2:{ intros r Hr. apply In_upto in Hr.
      destruct (Hx r Hr) as [-> ->]. by rewrite Z.sub_0_r. }
  unfold upto.
  replace (num_axes src) with (Z.of_nat (length h)) by lia.
  rewrite rect_axes_upto.
  rewrite (foldl_ext_in _
             (fun m r => m + rd (map fst h) (r - 0) * stride_of src r)).
  2:{ intros m r _. rewrite Z.sub_0_r. f_equal. f_equal.
      unfold rd, interval. unfold Hyperrectangle in *.
      change (map fst h) with (fst <$> h). rewrite list_lookup_fmap.
      by destruct (h !! Z.to_nat r). }
  rewrite <- (length_map fst h), tuple_index_upto, mindexes_from_rect_axes.
  apply map_ext_in. intros t Ht. apply length_HyperrectangleSet in Ht.
  unfold IndexPattern, upto.
  replace (num_axes src) with (Z.of_nat (length t)) by lia.
  rewrite <- tuple_index_upto. apply foldl_ext_in. intros m r _.
  by rewrite Z.sub_0_r.
Qed.

Lemma HyperrectangleToPattern_indexes_witness :
  let src := make_pattern [4; 3] [1; 4] 10 (-1) in
  WellFormed src /\
  MemoryIndexSet (HyperrectangleToPattern src [(1, 3); (0, 2)]) =
    [11; 15; 12; 16].
Proof.
  cbv zeta.
  assert (WellFormed (make_pattern [4; 3] [1; 4] 10 (-1))) as Hw
    by (repeat split; done).
  split; [exact Hw|].
  destruct (HyperrectangleToPattern_indexes _ [(1, 3); (0, 2)] Hw eq_refl)
    as [-> _]. reflexivity.
Defined.

(** ** Conversion to a list of strides *)

(** The loop of [ConvertPatternStridesLazily] after the output axes
    [0 .. k-1]: the output axes written so far enumerate the memory indexes
    of the input axes consumed so far, and carry the requested strides. *)
Lemma ConvertPatternStridesLazily_loop (pattern_in p0 : Pattern)
    (strides_ : list Z) (k : nat) :
  WellFormed p0 -> Z.of_nat k <= KALDI_TENSOR_MAX_AXES ->
  let step := fun '(pattern_out, raxis_in) raxis_out =>
    let stride := rd strides_ raxis_out in
    if stride_of pattern_in raxis_in =? stride
    then (set_axis pattern_out raxis_out (dim_of pattern_in raxis_in) stride,
          raxis_in + 1)
    else (set_axis pattern_out raxis_out 1 stride, raxis_in) in
  let res := foldl step (p0, 0) (seqZ 0 (Z.of_nat k)) in
  same_frame p0 (fst res) /\ 0 <= snd res /\
  (forall r, 0 <= r < Z.of_nat k -> stride_of (fst res) r = rd strides_ r) /\
  (forall base,
     mindexes_from
       (map (fun r => (dim_of (fst res) r, stride_of (fst res) r))
            (seqZ 0 (Z.of_nat k))) base =
     mindexes_from
       (map (fun r => (dim_of pattern_in r, stride_of pattern_in r))
            (seqZ 0 (snd res))) base).
Proof.
  intros Hw0. induction k as [|k IH]; intros Hk; cbv zeta.
  - cbn. split; [by apply same_frame_refl|]. split; [done|].
    split; [intros; lia|done].
  - replace (Z.of_nat (S k)) with (Z.of_nat k + 1) by lia.
    rewrite seqZ_app by lia. rewrite foldl_app.
    replace (seqZ (0 + Z.of_nat k) 1) with [Z.of_nat k]
      by (rewrite seqZ_cons, seqZ_nil by lia; f_equal; lia).
    cbv zeta in IH.
    destruct (foldl _ (p0, 0) (seqZ 0 (Z.of_nat k))) as [po j] eqn:E.
    destruct (IH ltac:(lia)) as (Hf & Hj & Hs & Hm). cbn [fst snd] in *.
    pose proof Hf as ((Hd & Hl & _) & _).
    unfold KALDI_TENSOR_MAX_AXES in *.
    cbn [foldl].
    set (stride := rd strides_ (Z.of_nat k)).
    assert (forall d,
              let po' := set_axis po (Z.of_nat k) d stride in
              same_frame p0 po' /\
              (forall r, 0 <= r < Z.of_nat k + 1 ->
                 stride_of po' r = rd strides_ r) /\
              map (fun r => (dim_of po' r, stride_of po' r))
                  (seqZ 0 (Z.of_nat k) ++ [Z.of_nat k]) =
              map (fun r => (dim_of po r, stride_of po r))
                  (seqZ 0 (Z.of_nat k)) ++ [(d, stride)]) as Hstep.
    { intros d. cbv zeta. split; [by apply same_frame_set_axis|]. split.
      - intros r Hr. rewrite stride_of_set_axis by lia.
        destruct (Z.eqb_spec r (Z.of_nat k)) as [->|Hne]; [done|].
        apply Hs. lia.
      - rewrite map_app. cbn [map].
        rewrite dim_of_set_axis, stride_of_set_axis, Z.eqb_refl by lia.
        f_equal. apply map_ext_in. intros r Hr.
        apply list_elem_of_In, elem_of_seqZ in Hr.
        rewrite dim_of_set_axis, stride_of_set_axis by lia.
        by replace (r =? Z.of_nat k) with false by lia. }
    destruct (Z.eqb_spec (stride_of pattern_in j) stride) as [Es|Es];
      cbn [fst snd].
    + destruct (Hstep (dim_of pattern_in j)) as (Hf' & Hs' & Hmap).
      split; [done|]. split; [lia|]. split; [done|].
      intros base. rewrite Hmap, mindexes_from_app, Hm.
      rewrite seqZ_app by lia. rewrite map_app, mindexes_from_app.
      replace (seqZ (0 + j) 1) with [j]
        by (rewrite seqZ_cons, seqZ_nil by lia; f_equal; lia).
      cbn [map]. by rewrite Es.
    + destruct (Hstep 1) as (Hf' & Hs' & Hmap).
      split; [done|]. split; [lia|]. split; [done|].
      intros base. rewrite Hmap.
      rewrite (mindexes_from_trivial_axis _ [] stride), app_nil_r.
      apply Hm.
Qed.

(** [ConvertPatternStridesLazily] does what its documentation says when it
    returns: the output has the requested strides, in their order, and the
    enumeration of its memory indexes is the one of the input. *)
Theorem ConvertPatternStridesLazily_keeps_memory_indexes
    (pattern_in pattern_out : Pattern) (strides_ : list Z) :
  WellFormed pattern_in ->
  ConvertPatternStridesLazily pattern_in strides_ = Some pattern_out ->
  MemoryIndexSet pattern_out = MemoryIndexSet pattern_in /\
  num_axes pattern_out = Z.of_nat (length strides_) /\
  (forall r, 0 <= r < num_axes pattern_out ->
     stride_of pattern_out r = rd strides_ r) /\
  offset pattern_out = offset pattern_in /\ code pattern_out = -1 /\
  WellFormed pattern_out.
Proof.
  intros Hw. unfold ConvertPatternStridesLazily. cbv zeta.
  destruct (Z.of_nat (length strides_) >? KALDI_TENSOR_MAX_AXES) eqn:E;
    [discriminate|].
  rewrite Z.gtb_ltb in E. apply Z.ltb_ge in E.
  set (p0 := set_offset
               (set_code (set_num_axes fresh_pattern
                            (Z.of_nat (length strides_))) (-1))
               (offset pattern_in)).
  assert (WellFormed p0) as Hw0.
  { repeat split; (done || cbn; lia). }
  pose proof (ConvertPatternStridesLazily_loop pattern_in p0 strides_
                (length strides_) Hw0 E) as H.
  cbv zeta in H. unfold upto.
  destruct (foldl _ (p0, 0) (seqZ 0 (Z.of_nat (length strides_))))
    as [po j].
  cbn [fst snd] in H. destruct H as ((Hwo & Hn & Ho & Hc) & Hj & Hs & Hm).
  destruct (Z.eqb_spec j (num_axes pattern_in)) as [->|Hne]; [|discriminate].
  cbn [negb]. intros [= <-].
  split; [|by rewrite Hn].
  unfold MemoryIndexSet. rewrite !axes_of_slots by done.
  rewrite Hn, Ho. apply Hm.
Qed.

Lemma ConvertPatternStridesLazily_keeps_memory_indexes_witness :
  let p := make_pattern [3; 2] [2; 9] 4 (-1) in
  WellFormed p /\
  exists q, ConvertPatternStridesLazily p [2; 6; 9] = Some q /\
            MemoryIndexSet q = MemoryIndexSet p /\ num_axes q = 3.
Proof.
  cbv zeta.
  assert (WellFormed (make_pattern [3; 2] [2; 9] 4 (-1))) as Hw
    by (repeat split; done).
  split; [exact Hw|]. eexists. split; [reflexivity|].
  destruct (ConvertPatternStridesLazily_keeps_memory_indexes _ _ [2; 6; 9]
              Hw eq_refl) as (H1 & H2 & _).
  by split.
Defined.

(** ** The conversion keeps the patterns stored *)

Lemma WellFormed_set_dims_wr (p : Pattern) (r d : Z) :
  WellFormed p -> WellFormed (set_dims p (wr (dims p) r d)).
Proof.
  intros (Hd & Hs & Hn). unfold WellFormed. cbn. by rewrite length_wr.
Qed.

Lemma nth_pattern_WellFormed (patterns : list Pattern) (i : Z) (p : Pattern) :
  Forall WellFormed patterns -> nth_pattern patterns i = Some p ->
  WellFormed p.
Proof.
  intros Hf. unfold nth_pattern. destruct (i <? 0); [discriminate|].
  intros H. eapply Forall_lookup_1; eauto.
Qed.

Lemma put_pattern_WellFormed (patterns : list Pattern) (i : Z) (p : Pattern) :
  Forall WellFormed patterns -> WellFormed p ->
  Forall WellFormed (put_pattern patterns i p).
Proof.
  intros Hf Hp. unfold put_pattern.
  destruct (decide (Z.to_nat i < length patterns)%nat).
  - by apply Forall_insert.
  - by rewrite list_insert_ge by lia.
Qed.

Lemma Ensure_split_step_WellFormed (i this_stride this_dim j : Z)
    (st : option (list Pattern * Z)) (patterns : list Pattern) (cur : Z) :
  (forall ps c, st = Some (ps, c) -> Forall WellFormed ps) ->
  Ensure_split_step i this_stride this_dim st j = Some (patterns, cur) ->
  Forall WellFormed patterns.
Proof.
  intros Hst. unfold Ensure_split_step.
  destruct st as [[ps c]|]; [|discriminate]. cbn [mbind option_bind].
  specialize (Hst ps c eq_refl).
  destruct (nth_pattern ps c) as [pattern|] eqn:E1; [|discriminate].
  cbn [mbind option_bind].
  destruct (cdiv _ this_stride) as [stride_ratio|]; [|discriminate].
  cbn [mbind option_bind].
  destruct (cdiv this_dim stride_ratio) as [j_dim|]; [|discriminate].
  cbn [mbind option_bind].
  destruct (cmod this_dim stride_ratio) as [remainder|]; [|discriminate].
  cbn [mbind option_bind].
  assert (Forall WellFormed (ps ++ [fresh_pattern])) as Hps'.
  { apply Forall_app. split; [done|]. constructor; [|done].
    by apply (WellFormed_fresh 0). }
  destruct (negb (remainder =? 0)).
  - destruct (nth_pattern (ps ++ [fresh_pattern]) i) as [pi|] eqn:E2;
      [|discriminate].
    cbn [mbind option_bind].
    pose proof (nth_pattern_WellFormed _ _ _ Hps' E2) as Hpi.
    set (ps2 := put_pattern _ _ _).
    assert (Forall WellFormed ps2) as Hps2.
    { apply put_pattern_WellFormed; [done|].
      by apply WellFormed_set_dims_wr. }
    destruct (nth_pattern ps2 i) as [pc|] eqn:E3; [|discriminate].
    cbn [mbind option_bind]. intros [= <- _].
    apply put_pattern_WellFormed; [done|].
    pose proof (nth_pattern_WellFormed _ _ _ Hps2 E3) as Hpc.
    by do 2 apply WellFormed_set_dims_wr.
  - cbn [mbind option_bind]. rewrite E1. cbn [mbind option_bind].
    intros [= <- _].
    apply put_pattern_WellFormed; [done|].
    pose proof (nth_pattern_WellFormed _ _ _ Hst E1) as Hpc.
    by do 2 apply WellFormed_set_dims_wr.
Qed.

Lemma Ensure_split_WellFormed (i this_stride this_dim : Z) (js : list Z) :
  forall st patterns cur,
    (forall ps c, st = Some (ps, c) -> Forall WellFormed ps) ->
    foldl (Ensure_split_step i this_stride this_dim) st js
      = Some (patterns, cur) ->
    Forall WellFormed patterns.
Proof.
  induction js as [|j js IH]; intros st patterns cur Hst; cbn [foldl].
  - intros ->. by eapply Hst.
  - apply IH. intros ps c E.
    by eapply Ensure_split_step_WellFormed.
Qed.

Lemma EnsureAxisSortingPropertyHolds_WellFormed (raxis pattern_index : Z)
    (patterns patterns' : list Pattern) (b : bool) :
  Forall WellFormed patterns ->
  EnsureAxisSortingPropertyHolds raxis pattern_index patterns
    = Some (b, patterns') ->
  Forall WellFormed patterns'.
Proof.
  intros Hf. unfold EnsureAxisSortingPropertyHolds.
  destruct (nth_pattern patterns pattern_index) as [pattern|];
    [|discriminate].
  cbn [mbind option_bind]. cbv zeta.
  destruct (dim_of pattern raxis =? 1); [by intros [= _ <-]|].
  destruct (Ensure_scan _ _ _ _ _) as [[k|]|]; cbn [mbind option_bind];
    [|by intros [= _ <-]|discriminate].
  destruct (foldl _ _ _) as [[ps c]|] eqn:E; [|discriminate].
  cbn [mbind option_bind]. intros [= _ <-].
  eapply Ensure_split_WellFormed; [|exact E].
  by intros ps' c' [= <- _].
Qed.

Lemma Convert_patterns_WellFormed (fuel : nat) :
  forall raxis p patterns patterns',
    Forall WellFormed patterns ->
    Convert_patterns fuel raxis p patterns = Some (Some patterns') ->
    Forall WellFormed patterns'.
Proof.
  induction fuel as [|fuel IH]; intros raxis p patterns patterns' Hf;
    cbn [Convert_patterns]; [discriminate|].
  destruct (p <? Z.of_nat (length patterns)); [|by intros [= <-]].
  destruct (EnsureAxisSortingPropertyHolds raxis p patterns)
    as [[[|] ps]|] eqn:E; [|discriminate..].
  apply IH. by eapply EnsureAxisSortingPropertyHolds_WellFormed.
Qed.

Lemma ConvertPatternStridesLazily_WellFormed (pattern_in pattern_out : Pattern)
    (strides_ : list Z) :
  ConvertPatternStridesLazily pattern_in strides_ = Some pattern_out ->
  WellFormed pattern_out.
Proof.
  unfold ConvertPatternStridesLazily. cbv zeta.
  destruct (Z.of_nat (length strides_) >? KALDI_TENSOR_MAX_AXES) eqn:E;
    [discriminate|].
  rewrite Z.gtb_ltb in E. apply Z.ltb_ge in E.
  set (p0 := set_offset _ _).
  assert (WellFormed p0) as Hw0 by (repeat split; (done || cbn; lia)).
  pose proof (ConvertPatternStridesLazily_loop pattern_in p0 strides_
                (length strides_) Hw0 E) as H.
  cbv zeta in H. unfold upto.
  destruct (foldl _ (p0, 0) _) as [po j]. cbn [fst snd] in H.
  destruct H as ((Hwo & _) & _).
  destruct (negb _); [discriminate|]. by intros [= <-].
Qed.

Lemma ConvertPatternStrides_WellFormed (pattern : Pattern)
    (strides_ : list Z) (patterns : list Pattern) :
  ConvertPatternStrides pattern strides_ = Some (Some patterns) ->
  Forall WellFormed patterns.
Proof.
  unfold ConvertPatternStrides.
  destruct (ConvertPatternStridesLazily pattern strides_) as [first|] eqn:E;
    [|discriminate].
  cbn [mbind option_bind]. cbv zeta.
  apply ConvertPatternStridesLazily_WellFormed in E.
  assert (forall ps, Some (Some [first]) = Some (Some ps) ->
                     Forall WellFormed ps) as Hst.
  { intros ps [= <-]. by constructor. }
  revert Hst. generalize (Some (Some [first])).
  generalize (upto (Z.of_nat (length strides_) - 1)). intros l.
  revert patterns. induction l as [|raxis l IH]; intros patterns st Hst;
    cbn [foldl].
  - intros ->. by apply Hst.
  - apply IH. intros ps.
    destruct st as [[ps0|]|]; cbn [mbind option_bind]; [|discriminate..].
    apply Convert_patterns_WellFormed. by apply Hst.
Qed.

(** ** The conversion never reports a failure *)















(** ** The difference *)

(** The full hyperrectangle of a stored pattern gives the memory indexes
    of the pattern back. *)
Lemma HyperrectangleToPattern_full (src : Pattern) :
  WellFormed src ->
  let dest := HyperrectangleToPattern src (GetFullHyperrectangleOfPattern src)
  in
  WellFormed dest /\ MemoryIndexSet dest = MemoryIndexSet src.
Proof.
  intros Hw. cbv zeta.
  destruct (HyperrectangleToPattern_slots src
              (GetFullHyperrectangleOfPattern src) Hw)
    as (Hw' & Hn' & _ & Ho' & Hx & _).
  split; [done|].
  assert (forall r, 0 <= r < num_axes src ->
            interval (GetFullHyperrectangleOfPattern src) (Z.to_nat r) =
            (0, dim_of src r)) as Hi.
  { intros r Hr. unfold interval, GetFullHyperrectangleOfPattern, upto.
    unfold Hyperrectangle.
    change (map ?f ?l) with (f <$> l). rewrite list_lookup_fmap.
    rewrite lookup_seqZ_lt by lia. cbn. do 2 f_equal. lia. }
  unfold MemoryIndexSet. f_equal.
  - rewrite !axes_of_slots, Hn' by done.
    apply map_ext_in. intros r Hr. apply In_upto in Hr.
    destruct (Hx r Hr) as [-> ->]. rewrite (Hi r Hr). cbn. f_equal. lia.
  - rewrite Ho'. generalize (offset src). intros o.
    assert (forall l, (forall r, In r l -> 0 <= r < num_axes src) ->
              foldl (fun o r =>
                       o + fst (interval (GetFullHyperrectangleOfPattern src)
                                         (Z.to_nat r)) * stride_of src r)
                    o l = o) as Hfold.
    { induction l as [|r l IH]; intros Hl; [done|]. cbn [foldl].
      rewrite (Hi r) by (apply Hl; by left). cbn [fst].
      replace (o + 0 * stride_of src r) with o by lia.
      apply IH. intros q Hq. apply Hl. by right. }
    apply Hfold. intros r Hr. by apply In_upto.
Qed.

(** One step of the loop over [cur_difference] adds one pattern with the
    memory indexes of [sub_pattern1], or fails. *)
Lemma Difference_step_keeps (n : Z) (sub_pattern2 sub_pattern1 : Pattern)
    (next next' : list Pattern) :
  WellFormed sub_pattern1 ->
  Difference_step n sub_pattern2 (Some next) sub_pattern1 = Some next' ->
  exists x, next' = next ++ [x] /\ WellFormed x /\
            MemoryIndexSet x = MemoryIndexSet sub_pattern1.
Proof.
  intros Hw. unfold Difference_step. cbn [mbind option_bind]. cbv zeta.
  destruct (_ || _).
  - intros [= <-]. eauto.
  - destruct (FindOffsets sub_pattern1 sub_pattern2 true) as [offsets|] eqn:E;
      [|discriminate].
    apply FindOffsets_empty in E as ->. cbn.
    intros [= <-].
    destruct (HyperrectangleToPattern_full sub_pattern1 Hw) as [Hw' Hm].
    eauto.
Qed.

Lemma Difference_steps_keep (n : Z) (sub_pattern2 : Pattern)
    (cur : list Pattern) :
  forall next next',
    Forall WellFormed cur ->
    foldl (Difference_step n sub_pattern2) (Some next) cur = Some next' ->
    exists added,
      next' = next ++ added /\ Forall WellFormed added /\
      map MemoryIndexSet added = map MemoryIndexSet cur.
Proof.
  induction cur as [|sp1 cur IH]; intros next next' Hf; cbn [foldl].
  - intros [= <-]. exists []. by rewrite app_nil_r.
  - apply Forall_cons in Hf as [Hw Hf].
    destruct (Difference_step n sub_pattern2 (Some next) sp1)
      as [next1|] eqn:E.
    + apply Difference_step_keeps in E as (x & -> & Hwx & Hmx); [|done].
      intros H. apply IH in H as (added & -> & Hfa & Hma); [|done].
      exists (x :: added). rewrite <- app_assoc. split; [done|].
      split; [by constructor|]. cbn [map]. by rewrite Hmx, Hma.
    + intros H. exfalso. clear -H.
      induction cur as [|sp cur IH]; [discriminate|]. apply IH. exact H.
Qed.

Lemma Difference_loops_keep (n : Z) (patterns2 : list Pattern) :
  forall cur difference,
    Forall WellFormed cur ->
    foldl (fun st sub_pattern2 =>
             cur_difference ← st;
             foldl (Difference_step n sub_pattern2) (Some [])
                   cur_difference)
          (Some cur) patterns2 = Some difference ->
    map MemoryIndexSet difference = map MemoryIndexSet cur.
Proof.
  induction patterns2 as [|sp2 patterns2 IH]; intros cur difference Hf;
    cbn [foldl].
  - by intros [= <-].
  - cbn [mbind option_bind].
    destruct (foldl (Difference_step n sp2) (Some []) cur) as [cur'|] eqn:E.
    + apply Difference_steps_keep in E as (added & -> & Hfa & Hma); [|done].
      cbn [app]. intros H. apply IH in H; [|done]. congruence.
    + intros H. exfalso. clear -H.
      induction patterns2 as [|sp patterns2 IH]; [discriminate|].
      apply IH. exact H.
Qed.

Lemma WellFormed_CanonicalizePattern (p : Pattern) :
  WellFormed p -> WellFormed (CanonicalizePattern p).
Proof.
  intros Hw. unfold CanonicalizePattern.
  destruct (axes_of_with_axes p (sort_axes (axes_of p)) Hw) as [Hw' _];
    [|done].
  rewrite (Permutation_length (sort_axes_Permutation _)).
  by apply length_axes_of.
Qed.

(** As soon as one of the patterns has an axis, [ComputeDifference]
    subtracts nothing: when it returns true, the patterns of the difference
    have, one by one, the memory indexes of the patterns that
    [ConvertPatternStrides] makes of the first argument, whatever the
    second argument is, the first argument itself included. *)
Theorem ComputeDifference_subtracts_nothing (p q : Pattern)
    (difference : list Pattern) :
  1 <= num_axes p \/ 1 <= num_axes q ->
  ComputeDifference p q = Some (true, difference) ->
  exists patterns1,
    ConvertPatternStrides (CanonicalizePattern p)
      (FindAllStrides (CanonicalizePattern p) (CanonicalizePattern q))
      = Some (Some patterns1) /\
    map MemoryIndexSet difference = map MemoryIndexSet patterns1.
Proof.
  intros Hn. unfold ComputeDifference. cbv zeta.
  pose proof (FindAllStrides_not_nil (CanonicalizePattern p)
                (CanonicalizePattern q) Hn) as Hs.
  destruct (FindAllStrides _ _) as [|s0 ss]; [done|].
  replace (Z.of_nat (length (s0 :: ss)) =? 0) with false
    by (symmetry; apply Z.eqb_neq; cbn [length]; lia).
  destruct (ConvertPatternStrides (CanonicalizePattern p) _)
    as [[patterns1|]|] eqn:E1; [|discriminate..].
  destruct (ConvertPatternStrides (CanonicalizePattern q) _)
    as [[patterns2|]|]; [|discriminate..].
  apply ConvertPatternStrides_WellFormed in E1.
  destruct (foldl _ (Some patterns1) patterns2) as [d|] eqn:E;
    [|discriminate].
  cbn [mbind option_bind]. intros [= <-].
  exists patterns1. split; [done|].
  by apply Difference_loops_keep in E.
Qed.

Lemma ComputeDifference_subtracts_nothing_witness :
  let p := make_pattern [3] [2] 0 (-1) in
  exists difference,
    ComputeDifference p p = Some (true, difference) /\
    map MemoryIndexSet difference = [MemoryIndexSet p].
Proof.
  cbv zeta.
  assert (exists d, ComputeDifference (make_pattern [3] [2] 0 (-1))
                      (make_pattern [3] [2] 0 (-1)) = Some (true, d))
    as [d Hd] by (eexists; vm_compute; reflexivity).
  exists d. split; [exact Hd|].
  assert (1 <= num_axes (make_pattern [3] [2] 0 (-1)) \/
          1 <= num_axes (make_pattern [3] [2] 0 (-1))) as Hn by (by left).
  destruct (ComputeDifference_subtracts_nothing _ _ _ Hn Hd)
    as (ps & E & ->).
  vm_compute in E. by injection E as <-.
Defined.

(** ** Normalization of signs *)













(** ** Compact layouts *)

Lemma CompactFrom_covers (l : list (Z * Z)) :
  forall c base j,
    CompactFrom c l -> 0 <= j < dims_product l ->
    In (base + c * j) (mindexes_from l base).
Proof.
  induction l as [|[d s] rest IH]; intros c base j Hc Hj.
  - cbn in Hj. assert (j = 0) as -> by lia. left. lia.
  - cbn [CompactFrom] in Hc. destruct Hc as (Hd & Hs & Hrest).
    cbn [dims_product foldr fst] in Hj. fold (dims_product rest) in Hj.
    apply In_mindexes_from_cons.
    destruct Hs as [[-> ->]| ->].
    + exists 0. split; [lia|].
      replace (base + 0 * 0) with base by lia.
      replace (c * j) with (c * 1 * j) by lia.
      apply IH; [done|lia].
    + exists (j mod d). split; [apply Z.mod_pos_bound; lia|].
      replace (base + c * j) with (base + j mod d * c + c * d * (j / d)).
      * apply IH; [done|]. split; [apply Z.div_pos; lia|].
        apply Z.div_lt_upper_bound; lia.
      * pose proof (Z.div_mod j d ltac:(lia)). nia.
Qed.

Lemma CompactFrom_dims (c : Z) (l : list (Z * Z)) :
  CompactFrom c l -> Forall (fun a => 0 <= fst a) l.
Proof.
  revert c. induction l as [|[d s] rest IH]; intros c Hc; [constructor|].
  destruct Hc as (Hd & _ & Hrest). constructor; [cbn; lia|by eapply IH].
Qed.

Lemma CompactFrom_Permutation (l : list (Z * Z)) :
  CompactFrom 1 l ->
  Permutation (mindexes_from l 0) (seqZ 0 (dims_product l)).
Proof.
  intros Hc. symmetry. apply submseteq_length_Permutation.
  - apply NoDup_submseteq; [apply NoDup_seqZ|].
    intros j Hj. apply elem_of_seqZ in Hj. apply list_elem_of_In.
    replace j with (0 + 1 * j) by lia.
    apply CompactFrom_covers; [done|lia].
  - pose proof (length_mindexes_from l (CompactFrom_dims 1 l Hc) 0) as E.
    pose proof (CompactFrom_dims 1 l Hc) as Hd.
    assert (0 <= dims_product l) by lia.
    rewrite length_seqZ. lia.
Qed.

(** The loop of [MakeCompactNormalizedAndJustified], the stride counter
    apart. *)
Lemma MakeCompactNormalizedAndJustified_loop (src dest : Pattern) (k : nat) :
  foldl (fun '(dest, next_stride) raxis =>
           let this_dim := dim_of src raxis in
           let this_stride := stride_of src raxis in
           if this_stride =? 0
           then (set_axis dest raxis this_dim 0, next_stride)
           else (set_axis dest raxis this_dim next_stride,
                 int32_wrap (next_stride * this_dim)))
        (dest, 1) (upto (Z.of_nat k)) =
  (foldl (fun dest raxis =>
            set_axis dest raxis (dim_of src raxis)
              (if stride_of src raxis =? 0 then 0
               else next_stride_at src raxis))
         dest (upto (Z.of_nat k)),
   next_stride_at src (Z.of_nat k)).
Proof.
  induction k as [|k IH]; [reflexivity|].
  unfold next_stride_at, upto in *.
  replace (Z.of_nat (S k)) with (Z.of_nat k + 1) by lia.
  rewrite seqZ_app by lia. rewrite !foldl_app, IH.
  replace (seqZ (0 + Z.of_nat k) 1) with [Z.of_nat k]
    by (rewrite seqZ_cons, seqZ_nil by lia; f_equal; lia).
  cbn [foldl]. cbv zeta.
  by destruct (stride_of src (Z.of_nat k) =? 0).
Qed.

Lemma next_stride_at_succ (src : Pattern) (r : Z) :
  0 <= r ->
  next_stride_at src (r + 1) =
    if stride_of src r =? 0 then next_stride_at src r
    else int32_wrap (next_stride_at src r * dim_of src r).
Proof.
  intros Hr. unfold next_stride_at, upto.
  rewrite seqZ_app by lia. rewrite foldl_app.
  replace (seqZ (0 + r) 1) with [r]
    by (rewrite seqZ_cons, seqZ_nil by lia; f_equal; lia).
  reflexivity.
Qed.

(** The product of the dims of the axes below [k] lies between 1 and the
    number of elements. *)
Lemma dims_product_prefix (src : Pattern) (k : Z) :
  (forall r, 0 <= r < num_axes src -> 1 <= dim_of src r) ->
  0 <= k <= num_axes src ->
  1 <= dims_product (map (fun r => (dim_of src r, stride_of src r)) (upto k))
    <= NumElements src.
Proof.
  intros Hd Hk.
  assert (forall l, (forall r, In r l -> 1 <= dim_of src r) ->
            1 <= dims_product
                   (map (fun r => (dim_of src r, stride_of src r)) l))
    as Hpos.
  { induction l as [|r l IH]; intros Hl; [cbn; lia|].
    cbn [map dims_product foldr fst].
    fold (dims_product (map (fun r => (dim_of src r, stride_of src r)) l)).
    specialize (Hl r (or_introl eq_refl)) as H1.
    specialize (IH (fun q Hq => Hl q (or_intror Hq))). nia. }
  unfold NumElements. rewrite NumElements_fold, Z.mul_1_l.
  unfold upto.
  replace (seqZ 0 (num_axes src)) with (seqZ 0 (k + (num_axes src - k)))
    by (f_equal; lia).
  rewrite seqZ_app, map_app, dims_product_app by lia.
  pose proof (Hpos (seqZ 0 k)) as H1.
  pose proof (Hpos (seqZ (0 + k) (num_axes src - k))) as H2.
  assert (forall a b r, 0 <= a -> a + b <= num_axes src ->
            In r (seqZ a b) -> 1 <= dim_of src r) as Hin.
  { intros a b r Ha Hb Hr. apply list_elem_of_In, elem_of_seqZ in Hr.
    apply Hd. lia. }
  specialize (H1 (fun r => Hin 0 k r ltac:(lia) ltac:(lia))).
  specialize (H2 (fun r => Hin (0 + k) (num_axes src - k) r
                             ltac:(lia) ltac:(lia))).
  nia.
Qed.

(** While the number of elements fits in an int32, [next_stride] is the
    product of the dims of the axes passed. *)
Lemma next_stride_at_exact (src : Pattern) (k : nat) :
  (forall r, 0 <= r < num_axes src ->
     1 <= dim_of src r /\ (stride_of src r = 0 -> dim_of src r = 1)) ->
  NumElements src <= int32_max ->
  Z.of_nat k <= num_axes src ->
  next_stride_at src (Z.of_nat k) =
  dims_product (map (fun r => (dim_of src r, stride_of src r))
                    (upto (Z.of_nat k))).
Proof.
  intros Hsrc Hfit. induction k as [|k IH]; intros Hk; [reflexivity|].
  replace (Z.of_nat (S k)) with (Z.of_nat k + 1) by lia.
  rewrite next_stride_at_succ by lia. rewrite IH by lia.
  pose proof (dims_product_prefix src (Z.of_nat k + 1)
                (fun r Hr => proj1 (Hsrc r Hr)) ltac:(lia)) as Hb.
  unfold upto in *. rewrite seqZ_app, map_app, dims_product_app in * by lia.
  replace (seqZ (0 + Z.of_nat k) 1) with [Z.of_nat k] in *
    by (rewrite seqZ_cons, seqZ_nil by lia; f_equal; lia).
  cbn [map dims_product foldr fst] in *. rewrite Z.mul_1_r in *.
  destruct (Hsrc (Z.of_nat k) ltac:(lia)) as [Hd Hs].
  destruct (Z.eqb_spec (stride_of src (Z.of_nat k)) 0) as [E|E].
  - rewrite (Hs E). lia.
  - apply int32_wrap_small. unfold int32_max in *. lia.
Qed.

Lemma MakeCompactNormalizedAndJustified_axes (src : Pattern) (k : nat) :
  forall a,
    0 <= a -> a + Z.of_nat k <= num_axes src ->
    (forall r, 0 <= r < num_axes src ->
       1 <= dim_of src r /\ (stride_of src r = 0 -> dim_of src r = 1)) ->
    NumElements src <= int32_max ->
    CompactFrom (next_stride_at src a)
      (map (fun r => (dim_of src r,
                      if stride_of src r =? 0 then 0
                      else next_stride_at src r))
           (seqZ a (Z.of_nat k))).
Proof.
  induction k as [|k IH]; intros a Ha Hk Hsrc Hfit; [done|].
  rewrite seqZ_S. cbn [map CompactFrom].
  destruct (Hsrc a ltac:(lia)) as [Hd Hs].
  split; [done|]. split.
  - destruct (Z.eqb_spec (stride_of src a) 0) as [E|E]; [|by right].
    left. split; [done|by apply Hs].
  - specialize (IH (a + 1) ltac:(lia) ltac:(lia) Hsrc Hfit).
    assert (next_stride_at src (a + 1) =
            next_stride_at src a * dim_of src a) as Enext.
    { pose proof (next_stride_at_exact src (Z.to_nat a) Hsrc Hfit
                    ltac:(lia)) as E0.
      pose proof (next_stride_at_exact src (Z.to_nat (a + 1)) Hsrc Hfit
                    ltac:(lia)) as E1.
      rewrite Z2Nat.id in E0, E1 by lia. rewrite E0, E1.
      unfold upto. rewrite seqZ_app, map_app, dims_product_app by lia.
      replace (seqZ (0 + a) 1) with [a]
        by (rewrite seqZ_cons, seqZ_nil by lia; f_equal; lia).
      cbn [map dims_product foldr fst]. lia. }
    by rewrite Enext in IH.
Qed.

(** [MakeCompactNormalizedAndJustified] keeps the dims and lays the
    elements out without holes: when the axes of [src] have dims of at
    least 1 and stride 0 only with dim 1, and the number of elements fits
    in an int32 as [next_stride] requires, the result has offset 0 and
    visits each of the memory indexes 0 .. NumElements(src)-1 exactly
    once. *)
Theorem MakeCompactNormalizedAndJustified_compact (src dest : Pattern) :
  WellFormed src -> WellFormed dest ->
  (forall r, 0 <= r < num_axes src ->
     1 <= dim_of src r /\ (stride_of src r = 0 -> dim_of src r = 1)) ->
  NumElements src <= int32_max ->
  let out := MakeCompactNormalizedAndJustified src dest in
  num_axes out = num_axes src /\ offset out = 0 /\
  (forall r, 0 <= r < num_axes src -> dim_of out r = dim_of src r) /\
  Permutation (MemoryIndexSet out) (seqZ 0 (NumElements src)).
Proof.
  intros Hw Hwd Hsrc Hfit. pose proof Hw as (_ & _ & Hn). cbv zeta.
  unfold MakeCompactNormalizedAndJustified.
  pose proof (MakeCompactNormalizedAndJustified_loop src dest
                (Z.to_nat (num_axes src))) as Hloop.
  rewrite Z2Nat.id in Hloop by lia. cbv zeta in Hloop |- *.
  rewrite Hloop. clear Hloop.
  destruct (fold_set_axis_slots (fun r => r) (dim_of src)
              (fun r => if stride_of src r =? 0 then 0
                        else next_stride_at src r)
              (upto (num_axes src))) with (p := dest)
    as ((Hw1 & Hn1 & Ho1 & Hc1) & Hin1 & Hout1); [| |done|].
  { rewrite map_id. apply NoDup_seqZ. }
  { intros r Hr. apply In_upto in Hr. lia. }
  set (d1 := foldl _ dest (upto (num_axes src))) in *.
  unfold SetUnusedDimsAndStrides, SetDefaultCodeAndProperties.
  destruct (fold_trivial_slots (num_axes src)
              (KALDI_TENSOR_MAX_AXES - num_axes src) d1 Hw1)
    as ((Hw2 & Hn2 & Ho2 & Hc2) & Hq2); [lia|lia|].
  set (d2 := foldl _ d1 (seqZ (num_axes src) _)) in *.
  set (out := set_code _ _).
  assert (WellFormed out) as Hwo.
  { destruct Hw2 as (? & ? & _). repeat split; (done || cbn; lia). }
  assert (forall r, 0 <= r < num_axes src ->
            dim_of out r = dim_of src r /\
            stride_of out r =
              (if stride_of src r =? 0 then 0 else next_stride_at src r))
    as Hslots.
  { intros r Hr.
    change (dim_of out r) with (dim_of d2 r).
    change (stride_of out r) with (stride_of d2 r).
    destruct (Hq2 r ltac:(lia)) as [-> ->].
    replace ((num_axes src <=? r) &&
             (r <? num_axes src + (KALDI_TENSOR_MAX_AXES - num_axes src)))
      with false by lia.
    apply (Hin1 r). by apply In_upto. }
  split; [done|]. split; [done|]. split; [intros r Hr; by apply Hslots|].
  assert (axes_of out =
          map (fun r => (dim_of src r,
                         if stride_of src r =? 0 then 0
                         else next_stride_at src r))
              (upto (num_axes src))) as Haxes.
  { rewrite (axes_of_slots out Hwo).
    change (num_axes out) with (num_axes src).
    apply map_ext_in. intros r Hr. apply In_upto in Hr.
    by destruct (Hslots r Hr) as [-> ->]. }
  pose proof (MakeCompactNormalizedAndJustified_axes src
                (Z.to_nat (num_axes src)) 0 ltac:(lia) ltac:(lia) Hsrc Hfit)
    as Hcompact.
  rewrite Z2Nat.id in Hcompact by lia.
  change (next_stride_at src 0) with 1 in Hcompact.
  fold (upto (num_axes src)) in Hcompact. rewrite <- Haxes in Hcompact.
  unfold MemoryIndexSet. change (offset out) with 0.
  rewrite (CompactFrom_Permutation _ Hcompact).
  rewrite Haxes. unfold NumElements. rewrite NumElements_fold.
  rewrite Z.mul_1_l.
  assert (forall l,
            dims_product
              (map (fun r => (dim_of src r,
                              if stride_of src r =? 0 then 0
                              else next_stride_at src r)) l) =
            dims_product
              (map (fun r => (dim_of src r, stride_of src r)) l)) as ->;
    [|done].
  clear. intros l. induction l as [|r l IH]; [done|].
  cbn [map dims_product foldr fst]. unfold dims_product in IH.
  by rewrite IH.
Qed.

Lemma MakeCompactNormalizedAndJustified_compact_witness :
  let src := make_pattern [3; 1; 2] [-10; 0; 4] 25 (-1) in
  let out := MakeCompactNormalizedAndJustified src fresh_pattern in
  WellFormed src /\
  (take 3 (dims out) = [3; 1; 2] /\ take 3 (strides out) = [1; 0; 3]) /\
  Permutation (MemoryIndexSet out) [0; 1; 2; 3; 4; 5].
Proof.
  cbv zeta.
  assert (WellFormed (make_pattern [3; 1; 2] [-10; 0; 4] 25 (-1))) as Hw
    by (repeat split; (done || cbn; lia)).
  split; [exact Hw|]. split; [vm_compute; by split|].
  refine (proj2 (proj2 (proj2
    (MakeCompactNormalizedAndJustified_compact _ fresh_pattern Hw _ _ _)))).
  - repeat split; (done || cbn; lia).
  - intros r Hr. change (num_axes _) with 3 in Hr.
    assert (r = 0 \/ r = 1 \/ r = 2) as [->|[->| ->]] by lia;
      by vm_compute.
  - by vm_compute.
Defined.

(** ** Rebasing *)

Lemma index_sum_succ (indexes strides : list Z) (k : Z) :
  0 <= k ->
  index_sum indexes strides (k + 1) =
    index_sum indexes strides k + rd indexes k * rd strides k.
Proof.
  intros Hk. unfold index_sum, upto.
  rewrite seqZ_app by lia. rewrite foldl_app.
  replace (seqZ (0 + k) 1) with [k]
    by (rewrite seqZ_cons, seqZ_nil by lia; f_equal; lia).
  reflexivity.
Qed.

Lemma downto_succ (k : nat) :
  downto (Z.of_nat (S k) - 1) (-1) =
    Z.of_nat k :: downto (Z.of_nat k - 1) (-1).
Proof.
  unfold downto.
  replace (Z.of_nat (S k) - 1 - -1) with (Z.of_nat k + 1) by lia.
  replace (Z.of_nat k - 1 - -1) with (Z.of_nat k) by lia.
  change (-1 + 1) with 0.
  rewrite seqZ_app by lia. rewrite reverse_app.
  replace (seqZ (0 + Z.of_nat k) 1) with [Z.of_nat k]
    by (rewrite seqZ_cons, seqZ_nil by lia; f_equal; lia).
  reflexivity.
Qed.

(** The loop of [ConvertMemoryIndex] over the axes below [k], entered with
    the part of the memory index that those axes make up. *)
Lemma ConvertMemoryIndex_loop (r : PatternRebaser) (indexes : list Z)
    (k : nat) :
  (forall j, 0 <= j < Z.of_nat k ->
     0 <= rd indexes j /\
     0 <= index_sum indexes (src_strides_ r) j < rd (src_strides_ r) j) ->
  forall ans,
    foldl (fun st raxis =>
             '(m, ans) ← st;
             let stride := rd (src_strides_ r) raxis in
             i ← cdiv m stride;
             Some (m - i * stride, ans + i * rd (dest_strides_ r) raxis))
          (Some (index_sum indexes (src_strides_ r) (Z.of_nat k), ans))
          (downto (Z.of_nat k - 1) (-1)) =
    Some (0, ans + index_sum indexes (dest_strides_ r) (Z.of_nat k)).
Proof.
  induction k as [|k IH]; intros H ans.
  - cbn. by rewrite Z.add_0_r.
  - rewrite downto_succ. cbn [foldl].
    replace (Z.of_nat (S k)) with (Z.of_nat k + 1) by lia.
    rewrite !index_sum_succ by lia.
    destruct (H (Z.of_nat k) ltac:(lia)) as [Hi Hs].
    set (s := rd (src_strides_ r) (Z.of_nat k)) in *.
    set (w := index_sum indexes (src_strides_ r) (Z.of_nat k)) in *.
    set (i := rd indexes (Z.of_nat k)) in *.
    assert (Z.quot (w + i * s) s = i) as Hq.
    { rewrite Z.quot_div_nonneg by nia.
      rewrite Z.div_add by lia. rewrite Z.div_small by lia. lia. }
    cbn [mbind option_bind]. cbv zeta. unfold cdiv.
    replace (s =? 0) with false by lia.
    cbn [mbind option_bind]. rewrite Hq.
    replace (w + i * s - i * s) with w by lia.
    subst w. rewrite IH by (intros j Hj; apply H; lia).
    f_equal. f_equal. lia.
Qed.

(** The partial sums of a decomposition with sorted, separated strides. *)
Lemma index_sum_bounds (indexes strides : list Z) (k : nat) :
  (forall j, 0 <= j < Z.of_nat k ->
     0 <= rd indexes j /\ index_sum indexes strides j < rd strides j) ->
  forall j, 0 <= j <= Z.of_nat k -> 0 <= index_sum indexes strides j.
Proof.
  intros H. induction k as [|k IH]; intros j Hj.
  - assert (j = 0) as -> by lia. done.
  - destruct (Z.eq_dec j (Z.of_nat (S k))) as [->|Hne].
    + replace (Z.of_nat (S k)) with (Z.of_nat k + 1) by lia.
      rewrite index_sum_succ by lia.
      destruct (H (Z.of_nat k) ltac:(lia)) as [Hi Hs].
      assert (0 <= index_sum indexes strides (Z.of_nat k))
        by (apply IH; [intros; apply H|]; lia).
      nia.
    + apply IH; [intros; apply H|]; lia.
Qed.

(** [ConvertMemoryIndex] rebases the memory indexes that decompose along
    the source strides: with nonnegative indexes, and each source stride
    above the part of the memory index that the lower axes make up, the
    function takes the source offset plus the indexes times the source
    strides to the destination offset plus the same indexes times the
    destination strides. *)
Theorem ConvertMemoryIndex_rebases (r : PatternRebaser) (indexes : list Z) :
  0 < num_axes_ r ->
  (forall j, 0 <= j < num_axes_ r ->
     0 <= rd indexes j /\
     index_sum indexes (src_strides_ r) j < rd (src_strides_ r) j) ->
  ConvertMemoryIndex r
    (src_offset_ r + index_sum indexes (src_strides_ r) (num_axes_ r)) =
  Some (dest_offset_ r + index_sum indexes (dest_strides_ r) (num_axes_ r)).
Proof.
  intros Hn H. unfold ConvertMemoryIndex. cbv zeta.
  replace (num_axes_ r =? 0) with false by lia.
  replace (src_offset_ r + index_sum indexes (src_strides_ r) (num_axes_ r) -
           src_offset_ r)
    with (index_sum indexes (src_strides_ r) (num_axes_ r)) by lia.
  pose proof (ConvertMemoryIndex_loop r indexes (Z.to_nat (num_axes_ r)))
    as Hloop.
  rewrite Z2Nat.id in Hloop by lia. cbv zeta in Hloop.
  rewrite Hloop; [done|].
  intros j Hj. destruct (H j Hj) as [Hi Hs]. split; [done|].
  split; [|done].
  apply (index_sum_bounds indexes (src_strides_ r)
           (Z.to_nat (num_axes_ r))); [|lia].
  intros j' Hj'. apply H. lia.
Qed.

Lemma ConvertMemoryIndex_rebases_witness :
  let r := mkPatternRebaser 2 100 7 [1; 4] [5; 30] in
  ConvertMemoryIndex r (100 + (3 * 1 + 2 * 4)) = Some (7 + (3 * 5 + 2 * 30)).
Proof.
  cbv zeta.
  refine (ConvertMemoryIndex_rebases
            (mkPatternRebaser 2 100 7 [1; 4] [5; 30]) [3; 2] _ _).
  - done.
  - intros j Hj. change (num_axes_ _) with 2 in Hj.
    assert (j = 0 \/ j = 1) as [->| ->] by lia; by vm_compute.
Defined.

(** ** The bounding range *)

Lemma ComputeMinAndMaxMindex_exact_up_to_offset_witness :
  let p := make_pattern [3; 2] [2; -7] 4 (-1) in
  IsValid p /\ ComputeMinAndMaxMindex p = (-7, 4) /\
  In (-3) (MemoryIndexSet p) /\ In 8 (MemoryIndexSet p).
Proof.
  cbv zeta.
  assert (IsValid (make_pattern [3; 2] [2; -7] 4 (-1))) as Hv
    by (by apply IsValidb_sound).
  split; [exact Hv|]. split; [reflexivity|].
  destruct (ComputeMinAndMaxMindex_exact_up_to_offset _ Hv)
    as (_ & Hmin & Hmax).
  split; [exact Hmin|exact Hmax].
Defined.
